(** * csim.c: a set-associative cache simulator with counter-based LRU

    A shallow embedding of [src/csim.c] and the properties of its
    address decomposition, its per-set lookup / placement / eviction and its
    trace replay loop.

    Conventions of the embedding.
    - C integers are [Z].  Where the program converts to a narrower type
      the conversion is written out with [to_short] (two's complement
      wrap-around, what GCC and Clang document for the implementation-defined
      conversion).  [int] counters ([hits], [misses], [evictions]) are left
      unbounded: overflowing them needs a trace of 2^31 entries.
    - An array [cache_line set[]] of [assoc] lines is a [list cache_line];
      a loop [for (i = 0; i < assoc; i++)] visits the first [assoc] elements.
    - A pointer [&set[i]] is the index [i]; [NULL] is [None].
    - [assert], the use of an uninitialised pointer and an access outside an
      array end the run with a [fault].  The use of the uninitialised
      pointer is undefined in C: the model stops there, and no statement
      below is about a run that reaches it.
    - The shifts [1 << s], [address >> b] and [address >> (s+b)] are
      defined in C for [s] from 0 to 30 (an [int]) and for counts from 0 to
      63 (a [long long]).  The model writes them on [Z]; it is the program
      on that range only, and every statement that depends on what they
      compute assumes [0 <= s <= 30], [0 <= b] and [s + b <= 63]. *)

From Stdlib Require Import ZArith Lia Ascii.
From stdpp Require Import base list list_numbers.

Local Open Scope Z_scope.

(** ** Machine integers *)

(** Conversion of an integer to a signed type of [bits] bits. *)
Definition wrap (bits : Z) (z : Z) : Z :=
  (z + 2 ^ (bits - 1)) mod 2 ^ bits - 2 ^ (bits - 1).

(** [(short) z] *)
Definition to_short (z : Z) : Z := wrap 16 z.

(** The 64-bit pattern stored by [fscanf]'s [%llx], read back through the
    [long long] variable [address]. *)
Definition to_long_long (z : Z) : Z := wrap 64 z.

Definition is_short (z : Z) : Prop := -32768 <= z <= 32767.

(** ** Faults and the error monad *)

Inductive fault : Set :=
| assertion_failed   (* assert(max_lru_cntr == assoc-1) *)
| wild_pointer       (* lru_line returned without having been assigned *)
| out_of_bounds.     (* array index outside the allocated object *)

Inductive result (A : Type) : Type :=
| Ok (a : A)
| Fault (f : fault).
Arguments Ok {A} a.
Arguments Fault {A} f.

#[global] Instance result_ret : MRet result := fun A a => Ok a.
#[global] Instance result_bind : MBind result := fun A B k r =>
  match r with
  | Ok a => k a
  | Fault f => Fault f
  end.

(** [a[i]] for a C array held in a list. *)
Definition array_get {A : Type} (a : list A) (i : Z) : result A :=
  if i <? 0 then Fault out_of_bounds
  else match a !! Z.to_nat i with
       | Some x => Ok x
       | None => Fault out_of_bounds
       end.

(** ** Cache lines (csim.c, lines 12-16) *)

(** [valid] is a [short] that only ever holds 0 or 1 (lines 80 and 118) and
    is only tested for being zero: it is a [bool] here. *)
Record cache_line : Set := mk_line {
  tag : Z;
  valid : bool;
  lru_cntr : Z
}.

Definition set_tag (l : cache_line) (t : Z) : cache_line :=
  {| tag := t; valid := valid l; lru_cntr := lru_cntr l |}.
Definition set_valid (l : cache_line) (v : bool) : cache_line :=
  {| tag := tag l; valid := v; lru_cntr := lru_cntr l |}.
Definition set_lru_cntr (l : cache_line) (c : Z) : cache_line :=
  {| tag := tag l; valid := valid l; lru_cntr := c |}.

(** ** update_lru_cntr (csim.c, lines 168-178) *)

(** The body of the loop, for [set[i]]: [lru_cntr] is a [short], so the
    increment is converted back to [short]. *)
Definition update_line (lru_cntr_accessed : Z) (l : cache_line) : cache_line :=
  if lru_cntr l <? lru_cntr_accessed then
    set_lru_cntr l (to_short (lru_cntr l + 1))
  else if lru_cntr l =? lru_cntr_accessed then
    set_lru_cntr l 0
  else l.

Definition update_lru_cntr (set : list cache_line) (assoc : Z)
    (lru_cntr_accessed : Z) : list cache_line :=
  map (update_line lru_cntr_accessed) (take (Z.to_nat assoc) set)
    ++ drop (Z.to_nat assoc) set.

(** ** cache_lookup (csim.c, lines 135-166) *)

(** First loop (lines 140-145): the first valid line holding [t], if any. *)
Fixpoint find_hit (lines : list cache_line) (t : Z) : option cache_line :=
  match lines with
  | [] => None
  | l :: rest =>
      if valid l && (tag l =? t) then Some l else find_hit rest t
  end.

(** Second loop (lines 150-160), from index [i] on, with the current values
    of the locals [max_lru_cntr] and [lru_line]. *)
Inductive slot_scan : Set :=
| EmptySlot (i : nat) (l : cache_line)
| FullSet (max_lru_cntr : Z) (lru_line : option nat).

Fixpoint find_slot (lines : list cache_line) (i : nat) (max_lru_cntr : Z)
    (lru_line : option nat) : slot_scan :=
  match lines with
  | [] => FullSet max_lru_cntr lru_line
  | l :: rest =>
      if negb (valid l) then EmptySlot i l
      else if lru_cntr l >? max_lru_cntr then
        find_slot rest (S i) (lru_cntr l) (Some i)
      else find_slot rest (S i) max_lru_cntr lru_line
  end.

(** The returned pointer ([None] is [NULL]) and the set as the call leaves
    it.  When the second loop has assigned nothing to [lru_line] (there is
    no line to scan) and the assertion holds, the function returns an
    indeterminate pointer: the model stops with [wild_pointer]. *)
Definition cache_lookup (set : list cache_line) (assoc : Z) (t : Z)
    : result (option nat * list cache_line) :=
  let lines := take (Z.to_nat assoc) set in
  match find_hit lines t with
  | Some l => Ok (None, update_lru_cntr set assoc (lru_cntr l))
  | None =>
      match find_slot lines 0 (-1) None with
      | EmptySlot i l => Ok (Some i, update_lru_cntr set assoc (lru_cntr l))
      | FullSet max_lru_cntr lru_line =>
          if max_lru_cntr =? assoc - 1 then
            match lru_line with
            | Some i =>
                Ok (Some i, update_lru_cntr set assoc (to_short (assoc - 1)))
            | None => Fault wild_pointer
            end
          else Fault assertion_failed
      end
  end.

(** ** The access to one set (csim.c, lines 107-123) *)

(** What [main] prints for the access: "hit", "miss", "miss eviction". *)
Inductive Outcome : Set := Hit | MissNoEvict | MissWithEvict.

(** The call of [cache_lookup] and the writes through [line_to_replace]. *)
Definition Set_access (set : list cache_line) (assoc : Z) (t : Z)
    : result (Outcome * list cache_line) :=
  '(line_to_replace, set1) ← cache_lookup set assoc t;
  match line_to_replace with
  | None => Ok (Hit, set1)
  | Some i =>
      match set1 !! i with
      | None => Fault out_of_bounds
      | Some l =>
          if valid l then Ok (MissWithEvict, <[i := set_tag l t]> set1)
          else Ok (MissNoEvict, <[i := set_tag (set_valid l true) t]> set1)
      end
  end.

(** ** main (csim.c, lines 65-133) *)

Record sim : Type := mk_sim {
  cache : list (list cache_line);
  hits : Z;
  misses : Z;
  evictions : Z
}.

(** One call of [fscanf(tracefp, " %c %llx %*c %*d", ...)]: the value it
    returns and what it stored.  The trace file is the list of the results of
    the successive calls; past the end of the list [fscanf] returns [EOF]. *)
Record scan : Set := mk_scan {
  items : Z;
  access_type : ascii;
  address : Z
}.

Definition count (o : Outcome) (st : sim) (c : list (list cache_line)) : sim :=
  match o with
  | Hit => mk_sim c (hits st + 1) (misses st) (evictions st)
  | MissNoEvict => mk_sim c (hits st) (misses st + 1) (evictions st)
  | MissWithEvict => mk_sim c (hits st) (misses st + 1) (evictions st + 1)
  end.

Section Main.

(** The command line: [-s], [-b], [-E]. *)
Variables (s b assoc : Z).

(** The [tag] fields are not initialised: [malloc_tag i j] is what
    [malloc] left in [cache[i][j].tag]. *)
Variable malloc_tag : nat -> nat -> Z.

(** Lines 68 and 70.  Both are [int]s: [1 << s] is defined in C for [s]
    from 0 to 30 only, where it is the value below.  Outside that range
    these are not what the program computes. *)
Definition num_sets : Z := Z.shiftl 1 s.
Definition INDEX_MASK : Z := Z.shiftl 1 s - 1.

(** Lines 72-85. *)
Definition init_line (i j : nat) : cache_line :=
  {| tag := malloc_tag i j; valid := false;
     lru_cntr := to_short (Z.of_nat j) |}.
Definition init_set (i : nat) : list cache_line :=
  map (init_line i) (seq 0 (Z.to_nat assoc)).
Definition init_cache : list (list cache_line) :=
  map init_set (seq 0 (Z.to_nat num_sets)).
Definition init : sim := mk_sim init_cache 0 0 0.

(** Lines 103-104.  [address] is a [long long] and the counts are [int]s:
    the shifts are defined in C for [0 <= b] and [s + b <= 63], where they
    are the values below (the shift of a negative [address] is the
    arithmetic one, as GCC and Clang define it). *)
Definition decode (address : Z) : Z * Z :=
  (Z.shiftr address (s + b), Z.land (Z.shiftr address b) INDEX_MASK).

(** Lines 94-129: the body of the [while] loop. *)
Definition loop_body (st : sim) (access_type : ascii) (address : Z)
    : result sim :=
  if Ascii.eqb access_type "I" then Ok st
  else
    let '(t, set_index) := decode address in
    set ← array_get (cache st) set_index;
    '(o, set') ← Set_access set assoc t;
    let st' := count o st (<[Z.to_nat set_index := set']> (cache st)) in
    if Ascii.eqb access_type "M" then
      Ok (mk_sim (cache st') (hits st' + 1) (misses st') (evictions st'))
    else Ok st'.

(** Lines 93-130: the loop ends at the first call of [fscanf] that does
    not return 2. *)
Fixpoint replay (trace : list scan) (st : sim) : result sim :=
  match trace with
  | [] => Ok st
  | e :: rest =>
      if items e =? 2 then
        st' ← loop_body st (access_type e) (address e);
        replay rest st'
      else Ok st
  end.

(** The three numbers handed to [printSummary] (line 132). *)
Definition summary (st : sim) : Z * Z * Z :=
  (hits st, misses st, evictions st).

Definition main (trace : list scan) : result (Z * Z * Z) :=
  st ← replay trace init; Ok (summary st).

End Main.

(** Trace entries that [fscanf] converted in full. *)
Definition L (a : Z) : scan := mk_scan 2 "L" a.
Definition M (a : Z) : scan := mk_scan 2 "M" a.

(** * Vocabulary of the statements *)

(** The ranks of the lines of a set are a permutation of 0, ..., assoc-1. *)
Definition rank_invariant (set : list cache_line) (assoc : Z) : Prop :=
  map lru_cntr set ≡ₚ seqZ 0 assoc.

(** The ranks are values of the C type [short]. *)
Definition short_ranks (set : list cache_line) : Prop :=
  Forall (fun l => is_short (lru_cntr l)) set.

(** The same invariant, as a test that can be run. *)
Definition rank_invariantb (set : list cache_line) (assoc : Z) : bool :=
  bool_decide (map lru_cntr set ≡ₚ seqZ 0 assoc).

(** The rule of the promotion step on one rank. *)
Definition promote (r0 r : Z) : Z :=
  if r <? r0 then r + 1 else if r =? r0 then 0 else r.

(** No valid line of the set holds [t]. *)
Definition no_hit (set : list cache_line) (t : Z) : Prop :=
  forall l, l ∈ set -> valid l = true -> tag l <> t.

(** What the access writes into the line it selected. *)
Definition placed (o : Outcome) (t : Z) (l : cache_line) : cache_line :=
  match o with
  | Hit => l
  | MissNoEvict => set_tag (set_valid l true) t
  | MissWithEvict => set_tag l t
  end.

(** Line [k] of the set, [l], is the one an access to [t] selects, with
    outcome [o]. *)
Definition selects (set : list cache_line) (assoc t : Z) (o : Outcome)
    (k : nat) (l : cache_line) : Prop :=
  set !! k = Some l /\
  match o with
  | Hit => valid l = true /\ tag l = t
  | MissNoEvict =>
      no_hit set t /\ valid l = false /\
      forall j l', (j < k)%nat -> set !! j = Some l' -> valid l' = true
  | MissWithEvict =>
      no_hit set t /\ (forall l', l' ∈ set -> valid l' = true) /\
      lru_cntr l = assoc - 1
  end.

(** The rank handed to [update_lru_cntr]. *)
Definition rank_accessed (assoc : Z) (o : Outcome) (l : cache_line) : Z :=
  match o with
  | MissWithEvict => to_short (assoc - 1)
  | _ => lru_cntr l
  end.

(** Some valid line of the set holds [t]. *)
Definition has_tag (set : list cache_line) (t : Z) : Prop :=
  exists l, l ∈ set /\ valid l = true /\ tag l = t.

(** Line [k] is the first line, in index order, that is not valid. *)
Definition first_empty (set : list cache_line) (k : nat) : Prop :=
  (exists l, set !! k = Some l /\ valid l = false) /\
  forall j l', (j < k)%nat -> set !! j = Some l' -> valid l' = true.

(** A set of three lines, the second one empty. *)
Definition set_C1 : list cache_line :=
  [mk_line 5 true 1; mk_line 0 false 0; mk_line 9 true 2].

(** [short_ranks], as a test that can be run. *)
Definition short_ranksb (set : list cache_line) : bool :=
  forallb (fun l => (-32768 <=? lru_cntr l) && (lru_cntr l <=? 32767)) set.

(** The cache has its [num_sets] sets and each of them satisfies the rank
    invariant. *)
Definition cache_invariant (s assoc : Z) (c : list (list cache_line)) : Prop :=
  length c = Z.to_nat (num_sets s) /\
  Forall (fun set => rank_invariant set assoc) c.

(** A cache of one full set of two lines, in the middle of a run. *)
Definition sim_C4 : sim :=
  mk_sim [[mk_line 3 true 0; mk_line 4 true 1]] 5 6 2.

(** An instruction reference: an entry that [fscanf] converted in full and
    whose kind is [I]. *)
Definition is_instruction (e : scan) : bool :=
  (items e =? 2) && Ascii.eqb (access_type e) "I".

(** The trace without its instruction references. *)
Fixpoint remove_instructions (trace : list scan) : list scan :=
  match trace with
  | [] => []
  | e :: rest =>
      if is_instruction e then remove_instructions rest
      else e :: remove_instructions rest
  end.

(** A line whose address is not hexadecimal: [fscanf] stores the kind and
    returns 1. *)
Definition unparsable : scan := mk_scan 1 "L" 0.

(** The decomposition in the words of the specification, on the unsigned
    address. *)
Definition decode_unsigned (address s b : Z) : Z * Z :=
  (Z.shiftr address (s + b),
   Z.land (Z.shiftr address b) (Z.shiftl 1 s - 1)).

(** The accesses to one set, one tag after the other. *)
Fixpoint Set_replay (set : list cache_line) (assoc : Z) (tags : list Z)
    : result (list cache_line) :=
  match tags with
  | [] => Ok set
  | t :: rest =>
      '(_, set') ← Set_access set assoc t; Set_replay set' assoc rest
  end.

(** Histories list the tags accessed so far, the latest first.
    [age h t] is the number of accesses made since [t] was last accessed. *)
Fixpoint age (h : list Z) (t : Z) : option nat :=
  match h with
  | [] => None
  | x :: h' => if x =? t then Some 0%nat else S <$> age h' t
  end.

(** [x] was accessed more recently than [y]. *)
Definition more_recent (h : list Z) (x y : Z) : Prop :=
  exists i j, age h x = Some i /\ age h y = Some j /\ (i < j)%nat.

(** The distinct tags of a history, the most recently accessed first. *)
Fixpoint recency (h : list Z) : list Z :=
  match h with
  | [] => []
  | t :: h' => t :: filter (fun x => x <> t) (recency h')
  end.

(** A valid line of rank [r] holds the tag at position [r] of the recency
    list; the lines that are not valid have the ranks past its end. *)
Definition lru_inv (set : list cache_line) (h : list Z) : Prop :=
  forall k l, set !! k = Some l ->
    if valid l then recency h !! Z.to_nat (lru_cntr l) = Some (tag l)
    else Z.of_nat (length (recency h)) <= lru_cntr l.

(** The [i]-th access of the pattern that goes round the tags [ts]. *)
Definition cyclic (ts : list Z) (i : nat) : Z :=
  nth (i mod length ts) ts 0.

(** The first [n] accesses of the pattern, the first access first. *)
Definition cycle (ts : list Z) (n : nat) : list Z :=
  map (cyclic ts) (seq 0 n).

(** The set of 32769 lines after the tags 0, ..., k-1 have been accessed,
    for [k] up to 32768: line [i] below [k] holds the tag [i]; the last
    line started with the rank (short) 32768 = -32768 and has been
    incremented [k] times. *)
Definition filled (k : Z) (set : list cache_line) : Prop :=
  length set = Z.to_nat 32769 /\
  forall i l, set !! i = Some l ->
    (Z.of_nat i < k ->
     valid l = true /\ tag l = Z.of_nat i /\ lru_cntr l = k - 1 - Z.of_nat i)
    /\ (k <= Z.of_nat i < 32768 -> valid l = false /\ lru_cntr l = Z.of_nat i)
    /\ (Z.of_nat i = 32768 -> valid l = false /\ lru_cntr l = k - 32768).

(** All 32769 lines are valid and none has the rank 32768. *)
Definition full_without_last_rank (set : list cache_line) : Prop :=
  length set = Z.to_nat 32769 /\
  forall l, l ∈ set ->
    valid l = true /\ 0 <= tag l <= 32768 /\ lru_cntr l <> 32768.

(** * The rest of the program *)

From Stdlib Require String.
Import String.StringSyntax.
Delimit Scope string_scope with string.

(** ** Counting over a trace *)

(** The entries that the loop of [main] replays: those before the first
    call of [fscanf] that does not return 2. *)
Fixpoint processed (trace : list scan) : list scan :=
  match trace with
  | [] => []
  | e :: rest => if items e =? 2 then e :: processed rest else []
  end.

(** The data references of a list of entries, and those of kind [M]. *)
Definition data_refs (entries : list scan) : list scan :=
  List.filter (fun e => negb (Ascii.eqb (access_type e) "I")) entries.
Definition modifies (entries : list scan) : list scan :=
  List.filter (fun e => Ascii.eqb (access_type e) "M") entries.

(** The number of valid lines of a set, and of a cache. *)
Definition count_valid (set : list cache_line) : Z :=
  Z.of_nat (length (List.filter valid set)).
Definition valid_lines (c : list (list cache_line)) : Z :=
  foldr (fun set n => count_valid set + n) 0 c.

(** The outcomes of the accesses to one set, one tag after the other. *)
Fixpoint Set_outcomes (set : list cache_line) (assoc : Z) (tags : list Z)
    : result (list Outcome) :=
  match tags with
  | [] => Ok []
  | t :: rest =>
      '(o, set') ← Set_access set assoc t;
      os ← Set_outcomes set' assoc rest;
      Ok (o :: os)
  end.

(** The number of accesses that filled an empty line. *)
Definition cold_misses (os : list Outcome) : nat :=
  length (List.filter (fun o => if o is MissNoEvict then true else false) os).

(** A short sequence of accesses to one set. *)
Definition tags_7879 : list Z := [7; 8; 7; 9].

(** ** The command line (csim.c, lines 22-63, 65-71, 87-88 and 132-133) *)

(** One call of [getopt(argc, argv, "s:E:b:t:")] that did not return -1:
    the character it returned and the string it left in [optarg].  The
    command line is the list of these calls; the call that returns -1 ends
    the loop ([c] is a [char], signed here, so that it compares equal to
    -1). *)
Record getopt_call : Set := mk_call {
  opt : ascii;
  optarg : String.string
}.

(** The locals that the loop over the options sets.  The four [char *]
    are not initialised: [None] until the option is seen. *)
Record options : Set := mk_options {
  sflag : bool;
  Eflag : bool;
  bflag : bool;
  tflag : bool;
  err_flag : bool;
  sname : option String.string;
  Ename : option String.string;
  trace_file : option String.string;
  bname : option String.string
}.

Definition no_options : options :=
  mk_options false false false false false None None None None.

(** The [switch] of lines 30-50. *)
Definition getopt_case (o : options) (call : getopt_call) : options :=
  if Ascii.eqb (opt call) "s" then
    mk_options true (Eflag o) (bflag o) (tflag o) (err_flag o)
      (Some (optarg call)) (Ename o) (trace_file o) (bname o)
  else if Ascii.eqb (opt call) "E" then
    mk_options (sflag o) true (bflag o) (tflag o) (err_flag o)
      (sname o) (Some (optarg call)) (trace_file o) (bname o)
  else if Ascii.eqb (opt call) "b" then
    mk_options (sflag o) (Eflag o) true (tflag o) (err_flag o)
      (sname o) (Ename o) (trace_file o) (Some (optarg call))
  else if Ascii.eqb (opt call) "t" then
    mk_options (sflag o) (Eflag o) (bflag o) true (err_flag o)
      (sname o) (Ename o) (Some (optarg call)) (bname o)
  else if Ascii.eqb (opt call) "?" then
    mk_options (sflag o) (Eflag o) (bflag o) (tflag o) true
      (sname o) (Ename o) (trace_file o) (bname o)
  else o.

(** The loop of lines 29-51. *)
Definition getopt_loop (calls : list getopt_call) : options :=
  fold_left getopt_case calls no_options.

(** How [main] ends: it returns a status, after printing the summary or
    not; or the run is aborted by a fault of the replay; or [fscanf] is
    handed the null pointer that [fopen] returned; or a [char *] is used
    that was never set. *)
Inductive termination : Set :=
| Exit (status : Z) (summary : option (Z * Z * Z))
| Abort (f : fault)
| NullFile
| Unset.

Section Program.

(** The C library: [atoi], and for each path the trace that [fopen] and
    the calls of [fscanf] read from it, if the file can be opened. *)
Variable atoi : String.string -> Z.
Variable fopen : String.string -> option (list scan).
Variable malloc_tag : nat -> nat -> Z.

(** The whole of [main]. *)
Definition main_argv (calls : list getopt_call) : termination :=
  let o := getopt_loop calls in
  if negb (sflag o) || negb (Eflag o) || negb (bflag o) || negb (tflag o)
  then Exit (-1) None
  else if err_flag o then Exit (-2) None
  else
    match sname o, bname o, Ename o, trace_file o with
    | Some sn, Some bn, Some En, Some tf =>
        match fopen tf with
        | None => NullFile
        | Some trace =>
            match main (atoi sn) (atoi bn) (atoi En) malloc_tag trace with
            | Ok counters => Exit 0 (Some counters)
            | Fault f => Abort f
            end
        end
    | _, _, _, _ => Unset
    end.

End Program.

(** The options given on a command line, and the last argument given for
    an option. *)
Definition given (c : ascii) (calls : list getopt_call) : bool :=
  existsb (fun call => Ascii.eqb (opt call) c) calls.
Definition last_arg (c : ascii) (calls : list getopt_call) : option String.string :=
  optarg <$> List.find (fun call => Ascii.eqb (opt call) c) (rev calls).

(** A command line for the witnesses. *)
Definition calls_sEbt : list getopt_call :=
  [mk_call "s" "4"%string; mk_call "E" "2"%string; mk_call "s" "1"%string;
   mk_call "b" "3"%string; mk_call "t" "yi.trace"%string].

(** * trans.c: matrix transposes *)

(** Conventions of the embedding of [src/trans.c].
    - An [int A[N][M]] is a [matrix]: the list of its [N] rows, each the
      list of its [M] elements.  An access [A[i][j]] outside the rows or
      outside a row stops the run ([outside_array]).
    - The result of an [int] addition or subtraction taken from the loop
      variables is written with [to_int].  A loop variable that is
      incremented by one below an [int] bound does not overflow.
    - An integer division by zero stops the run ([division_by_zero]).
    - A loop whose step is not the constant one is run with [fuel]: the
      number of iterations each such loop may take before the run is given
      up ([out_of_fuel]). *)

(** [(int) z] *)
Definition to_int (z : Z) : Z := wrap 32 z.

Definition INT_MAX : Z := 2147483647.

Inductive stop : Set :=
| division_by_zero
| outside_array
| out_of_fuel.

Inductive run (A : Type) : Type :=
| Done (a : A)
| Stop (why : stop).
Arguments Done {A} a.
Arguments Stop {A} why.

#[global] Instance run_ret : MRet run := fun A a => Done a.
#[global] Instance run_bind : MBind run := fun A B k r =>
  match r with
  | Done a => k a
  | Stop why => Stop why
  end.

(** [a / b] on [int]s (the quotient truncates towards zero). *)
Definition int_div (a b : Z) : run Z :=
  if b =? 0 then Stop division_by_zero else Done (a ÷ b).

Abbreviation matrix := (list (list Z)).

(** [A[i][j]] *)
Definition load (A : matrix) (i j : Z) : run Z :=
  if (0 <=? i) && (0 <=? j) then
    match A !! Z.to_nat i with
    | Some row =>
        match row !! Z.to_nat j with
        | Some x => Done x
        | None => Stop outside_array
        end
    | None => Stop outside_array
    end
  else Stop outside_array.

(** [B[i][j] = x] *)
Definition store (B : matrix) (i j x : Z) : run matrix :=
  if (0 <=? i) && (0 <=? j) then
    match B !! Z.to_nat i with
    | Some row =>
        match row !! Z.to_nat j with
        | Some _ => Done (<[Z.to_nat i := <[Z.to_nat j := x]> row]> B)
        | None => Stop outside_array
        end
    | None => Stop outside_array
    end
  else Stop outside_array.

(** ** Loops *)

Fixpoint for_each {St : Type} (xs : list Z) (body : Z -> St -> run St)
    (st : St) : run St :=
  match xs with
  | [] => Done st
  | x :: xs' => st' ← body x st; for_each xs' body st'
  end.

(** [for (x = lo; x < hi; x++) body], for a bound [hi] that the body does
    not change. *)
Definition for_up {St : Type} (lo hi : Z) (body : Z -> St -> run St)
    (st : St) : run St :=
  for_each (seqZ lo (hi - lo)) body st.

(** [for (x = x0; x < hi; x += step) body] *)
Fixpoint for_step {St : Type} (fuel : nat) (x hi step : Z)
    (body : Z -> St -> run St) (st : St) : run St :=
  if x <? hi then
    match fuel with
    | O => Stop out_of_fuel
    | S fuel' =>
        st' ← body x st;
        for_step fuel' (to_int (x + step)) hi step body st'
    end
  else Done st.

(** A loop that a [return] in its body leaves: the body gives the returned
    value, if it returns. *)
Fixpoint for_each_until {R : Type} (xs : list Z) (body : Z -> run (option R))
    : run (option R) :=
  match xs with
  | [] => Done None
  | x :: xs' =>
      r ← body x;
      match r with
      | Some v => Done (Some v)
      | None => for_each_until xs' body
      end
  end.

(** ** The functions of trans.c *)

(** [min] (lines 32-34) *)
Definition min (a b : Z) : Z := if a <? b then a else b.

(** [trans] (lines 97-106) *)
Definition trans (M N : Z) (A B : matrix) : run matrix :=
  for_up 0 N (fun i B =>
    for_up 0 M (fun j B =>
      x ← load A i j;
      store B j i x) B) B.

(** [is_transpose] (lines 178-190) *)
Definition is_transpose (M N : Z) (A B : matrix) : run Z :=
  r ← for_each_until (seqZ 0 N) (fun i =>
         for_each_until (seqZ 0 M) (fun j =>
           a ← load A i j;
           b ← load B j i;
           Done (if negb (a =? b) then Some 0 else None)));
  Done (default 1 r).

(** [transpose_blocking] (lines 109-124) *)
Definition transpose_blocking (fuel : nat) (M N : Z) (A B : matrix)
    : run matrix :=
  let num_sets := 32 in
  let sets_per_row := M ÷ 8 in
  block_dim ← int_div num_sets sets_per_row;
  for_step fuel 0 N block_dim (fun i B =>
    for_step fuel 0 M block_dim (fun j B =>
      for_up i (min (to_int (i + block_dim)) N) (fun ib B =>
        for_up j (min (to_int (j + block_dim)) M) (fun jb B =>
          x ← load A ib jb;
          store B jb ib x) B) B) B) B.

(** The locals that the loops of [transpose_submit] and of
    [transpose_square_matrix] assign, with the matrix [B]. *)
Record locals : Type := mk_locals {
  mat : matrix;
  diag_flag : bool;
  idx1 : Z;
  idx2 : Z
}.

(** [transpose_submit] (lines 37-86).  [idx1] and [idx2] are not
    initialised: [u1] and [u2] are the values they start with. *)
Definition transpose_submit (fuel : nat) (M N : Z) (A B : matrix)
    (u1 u2 : Z) : run matrix :=
  let num_sets := 32 in
  let sets_per_row := M ÷ 8 in
  block_dim ← (if M =? N then int_div num_sets sets_per_row else Done 18);
  st ← for_step fuel 0 N block_dim (fun i st =>
    for_step fuel 0 M block_dim (fun j st =>
      for_up i (min (to_int (i + block_dim)) N) (fun ib st =>
        st ← for_up j (min (to_int (j + block_dim)) M) (fun jb st =>
          if negb (ib =? jb)
             && (negb (M =? 64)
                 || (negb (ib =? to_int (jb - 4))
                     && negb (ib =? to_int (jb + 4))))
          then
            x ← load A ib jb;
            B' ← store (mat st) jb ib x;
            Done (mk_locals B' (diag_flag st) (idx1 st) (idx2 st))
          else Done (mk_locals (mat st) true ib jb)) st;
        if diag_flag st then
          x ← load A (idx1 st) (idx2 st);
          B' ← store (mat st) (idx2 st) (idx1 st) x;
          Done (mk_locals B' false (idx1 st) (idx2 st))
        else Done st) st) st) (mk_locals B false u1 u2);
  Done (mat st).

(** [transpose_square_matrix] (lines 127-153) *)
Definition transpose_square_matrix (fuel : nat) (M N : Z) (A B : matrix)
    (u1 u2 : Z) : run matrix :=
  let num_sets := 32 in
  let sets_per_row := M ÷ 8 in
  block_dim ← int_div num_sets sets_per_row;
  st ← for_step fuel 0 N block_dim (fun i st =>
    for_step fuel 0 M block_dim (fun j st =>
      for_up i (min (to_int (i + block_dim)) N) (fun ib st =>
        st ← for_up j (min (to_int (j + block_dim)) M) (fun jb st =>
          if negb (ib =? jb)
             && ((M =? 32)
                 || (negb (ib =? to_int (jb - 4))
                     && negb (ib =? to_int (jb + 4))))
          then
            x ← load A ib jb;
            B' ← store (mat st) jb ib x;
            Done (mk_locals B' (diag_flag st) (idx1 st) (idx2 st))
          else Done (mk_locals (mat st) true ib jb)) st;
        if diag_flag st then
          x ← load A (idx1 st) (idx2 st);
          B' ← store (mat st) (idx2 st) (idx1 st) x;
          Done (mk_locals B' false (idx1 st) (idx2 st))
        else Done st) st) st) (mk_locals B false u1 u2);
  Done (mat st).

(** ** Vocabulary of the statements about trans.c *)

(** [A] has [rows] rows of [cols] elements. *)
Definition has_shape (rows cols : Z) (A : matrix) : bool :=
  (Z.of_nat (length A) =? rows)
  && forallb (fun row => Z.of_nat (length row) =? cols) A.

(** The [M] x [N] matrix [B] agrees with the transpose of [A] on the cells
    [(i, j)] of [A] that satisfy [R]. *)
Definition done_on (M N : Z) (A B : matrix) (R : Z -> Z -> Prop) : Prop :=
  has_shape M N B = true /\
  forall i j, 0 <= i < N -> 0 <= j < M -> R i j -> load B j i = load A i j.

(** [B] is the transpose of the [N] x [M] matrix [A]. *)
Definition transposed (M N : Z) (A B : matrix) : Prop :=
  has_shape M N B = true /\
  forall i j, 0 <= i < N -> 0 <= j < M -> load B j i = load A i j.

(** The loop nest that the three blocked functions share: [row ib j] is what
    they do for row [ib] of the block that starts at column [j]. *)
Definition nest {St : Type} (fuel : nat) (M N block_dim : Z)
    (row : Z -> Z -> St -> run St) (st : St) : run St :=
  for_step fuel 0 N block_dim (fun i st =>
    for_step fuel 0 M block_dim (fun j st =>
      for_up i (min (to_int (i + block_dim)) N) (fun ib st =>
        row ib j st) st) st) st.

(** The row of a block in [transpose_submit] and [transpose_square_matrix],
    for the test [direct ib jb] that sends a cell to [B] at once. *)
Definition deferring_row (direct : Z -> Z -> bool) (A : matrix) (hi : Z)
    (ib j : Z) (st : locals) : run locals :=
  st ← for_up j hi (fun jb st =>
    if direct ib jb then
      x ← load A ib jb;
      B' ← store (mat st) jb ib x;
      Done (mk_locals B' (diag_flag st) (idx1 st) (idx2 st))
    else Done (mk_locals (mat st) true ib jb)) st;
  if diag_flag st then
    x ← load A (idx1 st) (idx2 st);
    B' ← store (mat st) (idx2 st) (idx1 st) x;
    Done (mk_locals B' false (idx1 st) (idx2 st))
  else Done st.

(** The tests of the two functions. *)
Definition direct_submit (M ib jb : Z) : bool :=
  negb (ib =? jb)
  && (negb (M =? 64)
      || (negb (ib =? to_int (jb - 4)) && negb (ib =? to_int (jb + 4)))).
Definition direct_square (M ib jb : Z) : bool :=
  negb (ib =? jb)
  && ((M =? 32)
      || (negb (ib =? to_int (jb - 4)) && negb (ib =? to_int (jb + 4)))).

(** Matrices for the examples: [rows] x [cols], with [cols * i + j + 1] in
    cell [(i, j)], and with zero everywhere. *)
Definition iota_matrix (rows cols : Z) : matrix :=
  (fun i => (fun j => cols * i + j + 1) <$> seqZ 0 cols) <$> seqZ 0 rows.
Definition zero_matrix (rows cols : Z) : matrix :=
  (fun _ => (fun _ => 0) <$> seqZ 0 cols) <$> seqZ 0 rows.
(** * Properties *)

(** ** The scenarios of the specification *)

Example scenario_A :
  main 0 0 1 (fun _ _ => 0) [L 0; L 0] = Ok (1, 1, 0).
Proof. reflexivity. Qed.

Example scenario_B :
  main 0 0 1 (fun _ _ => 0) [L 0; L 16; L 0] = Ok (0, 3, 2).
Proof. reflexivity. Qed.

Example scenario_C :
  main 0 0 2 (fun _ _ => 0) [L 0; L 4; L 0; L 4] = Ok (2, 2, 0).
Proof. reflexivity. Qed.

Example scenario_D :
  main 4 4 2 (fun _ _ => 7) [M 0] = Ok (1, 1, 0).
Proof. reflexivity. Qed.

(** ** Machine integers *)

Lemma to_short_id (z : Z) : is_short z -> to_short z = z.
Proof.
  unfold is_short, to_short, wrap. intros H.
  change (2 ^ (16 - 1)) with 32768. change (2 ^ 16) with 65536.
  rewrite Z.mod_small; lia.
Qed.

Lemma to_short_is_short (z : Z) : is_short (to_short z).
Proof.
  unfold is_short, to_short, wrap.
  change (2 ^ (16 - 1)) with 32768. change (2 ^ 16) with 65536.
  pose proof (Z.mod_pos_bound (z + 32768) 65536). lia.
Qed.

(** ** The rank invariant *)

Lemma rank_invariantb_true set assoc :
  rank_invariantb set assoc = true -> rank_invariant set assoc.
Proof. unfold rank_invariantb. intros H. by apply bool_decide_eq_true in H. Qed.

Lemma rank_invariant_length set assoc :
  rank_invariant set assoc -> length set = Z.to_nat assoc.
Proof.
  intros H. apply Permutation_length in H.
  by rewrite length_map, length_seqZ in H.
Qed.

Lemma rank_invariant_range set assoc l :
  rank_invariant set assoc -> l ∈ set -> 0 <= lru_cntr l < assoc.
Proof.
  intros H Hl.
  assert (lru_cntr l ∈ seqZ 0 assoc) as Hin.
  { rewrite <- H. by apply list_elem_of_fmap_2. }
  apply elem_of_seqZ in Hin. lia.
Qed.

Lemma rank_invariant_has set assoc r :
  rank_invariant set assoc -> 0 <= r < assoc ->
  exists k l, set !! k = Some l /\ lru_cntr l = r.
Proof.
  intros H Hr.
  assert (r ∈ map lru_cntr set) as Hin.
  { rewrite H. apply elem_of_seqZ. lia. }
  apply list_elem_of_fmap in Hin as (l & -> & Hl).
  apply list_elem_of_lookup in Hl as [k Hk]. eauto.
Qed.

Lemma rank_invariant_inj set assoc i j li lj :
  rank_invariant set assoc ->
  set !! i = Some li -> set !! j = Some lj ->
  lru_cntr li = lru_cntr lj -> i = j.
Proof.
  intros H Hi Hj Heq.
  assert (NoDup (map lru_cntr set)) as Hnd.
  { rewrite H. apply NoDup_seqZ. }
  eapply NoDup_lookup; [exact Hnd | |].
  - rewrite list_lookup_fmap, Hi. reflexivity.
  - rewrite list_lookup_fmap, Hj. simpl. by rewrite Heq.
Qed.

(** ** update_lru_cntr *)

Lemma update_line_tag r0 l : tag (update_line r0 l) = tag l.
Proof. unfold update_line. by repeat case_match. Qed.

Lemma update_line_valid r0 l : valid (update_line r0 l) = valid l.
Proof. unfold update_line. by repeat case_match. Qed.

Lemma update_line_lru_cntr r0 l :
  is_short r0 -> is_short (lru_cntr l) ->
  lru_cntr (update_line r0 l) = promote r0 (lru_cntr l).
Proof.
  unfold update_line, promote, is_short. intros H0 Hl.
  destruct (lru_cntr l <? r0) eqn:Hlt; simpl.
  - apply Z.ltb_lt in Hlt. apply to_short_id. unfold is_short. lia.
  - by destruct (lru_cntr l =? r0).
Qed.

Lemma update_lru_cntr_whole set assoc r0 :
  length set = Z.to_nat assoc ->
  update_lru_cntr set assoc r0 = map (update_line r0) set.
Proof.
  intros H. unfold update_lru_cntr.
  rewrite take_ge, drop_ge by lia. apply app_nil_r.
Qed.

Lemma update_lru_cntr_length set assoc r0 :
  length (update_lru_cntr set assoc r0) = length set.
Proof.
  unfold update_lru_cntr.
  rewrite length_app, length_map, <- length_app, take_drop. reflexivity.
Qed.

Lemma update_lru_cntr_tags set assoc r0 :
  map tag (update_lru_cntr set assoc r0) = map tag set.
Proof.
  unfold update_lru_cntr. rewrite map_app, map_map.
  rewrite (map_ext _ tag) by apply update_line_tag.
  by rewrite <- map_app, take_drop.
Qed.

Lemma update_lru_cntr_valids set assoc r0 :
  map valid (update_lru_cntr set assoc r0) = map valid set.
Proof.
  unfold update_lru_cntr. rewrite map_app, map_map.
  rewrite (map_ext _ valid) by apply update_line_valid.
  by rewrite <- map_app, take_drop.
Qed.

Lemma update_lru_cntr_lookup set assoc r0 i l :
  length set = Z.to_nat assoc ->
  set !! i = Some l ->
  update_lru_cntr set assoc r0 !! i = Some (update_line r0 l).
Proof.
  intros Hlen Hi. rewrite update_lru_cntr_whole by done.
  change (map (update_line r0) set) with (update_line r0 <$> set).
  by rewrite list_lookup_fmap, Hi.
Qed.

Lemma update_lru_cntr_ranks set assoc r0 :
  length set = Z.to_nat assoc -> is_short r0 -> short_ranks set ->
  map lru_cntr (update_lru_cntr set assoc r0)
  = map (promote r0) (map lru_cntr set).
Proof.
  intros Hlen H0 Hs. rewrite update_lru_cntr_whole by done.
  rewrite !map_map. apply map_ext_in. intros l Hl.
  apply update_line_lru_cntr; [done |].
  unfold short_ranks in Hs. rewrite Forall_forall in Hs.
  apply Hs. by apply list_elem_of_In.
Qed.

(** [promote r0] permutes 0, ..., n-1 when [r0] is one of them. *)
Lemma seqZ_split (r0 n : Z) :
  0 <= r0 < n -> seqZ 0 n = seqZ 0 r0 ++ r0 :: seqZ (r0 + 1) (n - r0 - 1).
Proof.
  intros H. replace n with (r0 + (n - r0)) at 1 by lia.
  rewrite seqZ_app by lia. f_equal.
  rewrite seqZ_cons by lia. repeat (f_equal; try lia).
Qed.

Lemma promote_seqZ (r0 n : Z) :
  0 <= r0 < n -> map (promote r0) (seqZ 0 n) ≡ₚ seqZ 0 n.
Proof.
  intros H.
  assert (map (promote r0) (seqZ 0 r0) = seqZ 1 r0) as Hlow.
  { replace 1 with (1 + 0) by lia. rewrite <- fmap_add_seqZ.
    apply map_ext_in. intros r Hr. apply list_elem_of_In, elem_of_seqZ in Hr.
    unfold promote. destruct (r <? r0) eqn:E; [lia |].
    apply Z.ltb_ge in E. lia. }
  assert (map (promote r0) (seqZ (r0 + 1) (n - r0 - 1))
          = seqZ (r0 + 1) (n - r0 - 1)) as Hhigh.
  { rewrite <- (map_id (seqZ (r0 + 1) (n - r0 - 1))) at 2.
    apply map_ext_in. intros r Hr. apply list_elem_of_In, elem_of_seqZ in Hr.
    unfold promote. destruct (r <? r0) eqn:E; [apply Z.ltb_lt in E; lia |].
    destruct (r =? r0) eqn:E'; [apply Z.eqb_eq in E'; lia | done]. }
  rewrite (seqZ_split r0 n H) at 1.
  rewrite map_app. simpl. rewrite Hlow, Hhigh.
  unfold promote. rewrite Z.ltb_irrefl, Z.eqb_refl.
  rewrite <- Permutation_middle.
  rewrite (seqZ_split 0 n) by lia.
  rewrite (seqZ_nil 0 0) by lia. simpl. constructor.
  replace (n - 0 - 1) with (r0 + (n - r0 - 1)) by lia.
  rewrite seqZ_app by lia.
  by replace (0 + 1 + r0) with (r0 + 1) by lia.
Qed.

Lemma update_lru_cntr_invariant set assoc r0 :
  rank_invariant set assoc -> short_ranks set -> 0 <= r0 < assoc ->
  is_short r0 ->
  rank_invariant (update_lru_cntr set assoc r0) assoc.
Proof.
  intros Hinv Hs Hr0 Hsh. unfold rank_invariant.
  rewrite update_lru_cntr_ranks;
    [| by apply rank_invariant_length | done | done].
  unfold rank_invariant in Hinv.
  etransitivity; [| apply (promote_seqZ r0 assoc Hr0)].
  by apply Permutation_map.
Qed.

(** ** The two scans of cache_lookup *)

Lemma find_hit_Some lines t l :
  find_hit lines t = Some l ->
  exists k, lines !! k = Some l /\ valid l = true /\ tag l = t.
Proof.
  induction lines as [| l0 rest IH]; simpl; [done |].
  destruct (valid l0 && (tag l0 =? t)) eqn:E.
  - intros [= <-]. apply andb_true_iff in E as [Hv Ht].
    apply Z.eqb_eq in Ht. by exists 0%nat.
  - intros H. destruct (IH H) as (k & Hk & Hv). by exists (S k).
Qed.

Lemma find_hit_None lines t : find_hit lines t = None -> no_hit lines t.
Proof.
  induction lines as [| l0 rest IH]; simpl; intros H l Hl Hv Ht.
  - by apply elem_of_nil in Hl.
  - destruct (valid l0 && (tag l0 =? t)) eqn:E; [done |].
    apply elem_of_cons in Hl as [-> | Hl].
    + rewrite Hv in E. simpl in E. apply Z.eqb_neq in E. done.
    + by apply (IH H l).
Qed.

Lemma find_slot_EmptySlot lines i m p k l :
  find_slot lines i m p = EmptySlot k l ->
  exists j, k = (i + j)%nat /\ lines !! j = Some l /\ valid l = false /\
    forall j' l', (j' < j)%nat -> lines !! j' = Some l' -> valid l' = true.
Proof.
  revert i m p. induction lines as [| l0 rest IH]; simpl; intros i m p H.
  - done.
  - destruct (valid l0) eqn:Hv0; simpl in H.
    + assert (exists m' p', find_slot rest (S i) m' p' = EmptySlot k l)
        as (m' & p' & H') by (destruct (lru_cntr l0 >? m); eauto).
      destruct (IH _ _ _ H') as (j & -> & Hj & Hv & Hbefore).
      exists (S j). split; [lia |]. split; [done |]. split; [done |].
      intros [| j'] l' Hlt Hl'; simpl in Hl'.
      * by injection Hl' as <-.
      * apply (Hbefore j'); [lia | done].
    + injection H as <- <-. exists 0%nat.
      split; [lia |]. split; [done |]. split; [done |].
      intros j' l' Hlt. lia.
Qed.

Lemma find_slot_FullSet lines i m p m' p' :
  find_slot lines i m p = FullSet m' p' ->
  (forall l, l ∈ lines -> valid l = true /\ lru_cntr l <= m') /\
  m <= m' /\
  ((m' = m /\ p' = p) \/
   (m < m' /\ exists j l,
      p' = Some (i + j)%nat /\ lines !! j = Some l /\ lru_cntr l = m')).
Proof.
  revert i m p. induction lines as [| l0 rest IH]; simpl; intros i m p H.
  - injection H as <- <-. split; [| split; [lia | by left]].
    intros l Hl. by apply elem_of_nil in Hl.
  - destruct (valid l0) eqn:Hv0; simpl in H; [| done].
    destruct (lru_cntr l0 >? m) eqn:Hgt.
    + apply Z.gtb_lt in Hgt.
      destruct (IH _ _ _ H) as (Hall & Hle & Hcase).
      split; [| split; [lia |]].
      * intros l Hl. apply elem_of_cons in Hl as [-> | Hl]; [| by apply Hall].
        split; [done | lia].
      * right. split; [lia |].
        destruct Hcase as [[-> ->] | (Hlt & j & l & -> & Hj & Hl)].
        -- exists 0%nat, l0. split; [f_equal; lia | done].
        -- exists (S j), l. split; [f_equal; lia | done].
    + rewrite Z.gtb_ltb in Hgt. apply Z.ltb_ge in Hgt.
      destruct (IH _ _ _ H) as (Hall & Hle & Hcase).
      split; [| split; [lia |]].
      * intros l Hl. apply elem_of_cons in Hl as [-> | Hl]; [| by apply Hall].
        split; [done | lia].
      * destruct Hcase as [[-> ->] | (Hlt & j & l & -> & Hj & Hl)];
          [by left | right].
        split; [done |].
        exists (S j), l. split; [f_equal; lia | done].
Qed.

(** ** The access to one set *)

Lemma Set_access_view (set : list cache_line) (assoc t : Z) :
  1 <= assoc -> rank_invariant set assoc ->
  exists o k l,
    selects set assoc t o k l /\
    Set_access set assoc t =
      Ok (o, <[k := placed o t (update_line (rank_accessed assoc o l) l)]>
               (map (update_line (rank_accessed assoc o l)) set)).
Proof.
  intros HE Hinv.
  pose proof (rank_invariant_length _ _ Hinv) as Hlen.
  unfold Set_access, cache_lookup.
  rewrite take_ge by lia.
  destruct (find_hit set t) as [l |] eqn:Hhit.
  - (* hit *)
    destruct (find_hit_Some _ _ _ Hhit) as (k & Hk & Hv & Ht).
    exists Hit, k, l. split; [done |]. simpl.
    rewrite update_lru_cntr_whole by done.
    rewrite list_insert_id; [done |].
    change (map (update_line (lru_cntr l)) set)
      with (update_line (lru_cntr l) <$> set).
    by rewrite list_lookup_fmap, Hk.
  - apply find_hit_None in Hhit.
    destruct (find_slot set 0 (-1) None) as [k l | m p] eqn:Hslot.
    + (* an empty slot *)
      destruct (find_slot_EmptySlot _ _ _ _ _ _ Hslot)
        as (j & -> & Hj & Hv & Hbefore).
      exists MissNoEvict, j, l. split; [done |]. simpl.
      rewrite update_lru_cntr_whole by done.
      change (map (update_line (lru_cntr l)) set)
        with (update_line (lru_cntr l) <$> set).
      rewrite list_lookup_fmap, Hj. simpl.
      by rewrite update_line_valid, Hv.
    + (* the set is full *)
      destruct (find_slot_FullSet _ _ _ _ _ _ Hslot) as (Hall & Hle & Hcase).
      destruct (rank_invariant_has set assoc (assoc - 1) Hinv)
        as (k0 & l0 & Hk0 & Hr0); [lia |].
      assert (l0 ∈ set) as Hin0 by (apply list_elem_of_lookup; eauto).
      destruct Hcase as [[-> ->] | (Hlt & j & l & -> & Hj & Hl)].
      { destruct (Hall l0 Hin0). lia. }
      assert (l ∈ set) as Hin by (apply list_elem_of_lookup; eauto).
      assert (m = assoc - 1) as ->.
      { destruct (Hall l0 Hin0).
        pose proof (rank_invariant_range _ _ _ Hinv Hin). lia. }
      exists MissWithEvict, j, l. split.
      { split; [done |]. split; [done |]. split; [| done].
        intros l' Hl'. by destruct (Hall l' Hl'). }
      rewrite Z.eqb_refl. simpl.
      rewrite update_lru_cntr_whole by done.
      change (map (update_line (to_short (assoc - 1))) set)
        with (update_line (to_short (assoc - 1)) <$> set).
      rewrite list_lookup_fmap, Hj. simpl.
      rewrite update_line_valid.
      by destruct (Hall l Hin) as [-> _].
Qed.

Lemma placed_valid o t l :
  valid (placed o t l) = match o with MissNoEvict => true | _ => valid l end.
Proof. by destruct o. Qed.

Lemma placed_tag o t l :
  tag (placed o t l) = match o with Hit => tag l | _ => t end.
Proof. by destruct o. Qed.

Lemma placed_lru_cntr o t l : lru_cntr (placed o t l) = lru_cntr l.
Proof. by destruct o. Qed.

Lemma map_insert_same {A B : Type} (f : A -> B) (l : list A) k x y :
  l !! k = Some x -> f y = f x -> map f (<[k := y]> l) = map f l.
Proof.
  intros Hk Hf. change (f <$> <[k := y]> l = f <$> l).
  rewrite list_fmap_insert, Hf. apply list_insert_id.
  by rewrite list_lookup_fmap, Hk.
Qed.

Lemma lookup_map_Some {A B : Type} (f : A -> B) (l : list A) k x :
  l !! k = Some x -> map f l !! k = Some (f x).
Proof.
  intros Hk. change ((f <$> l) !! k = Some (f x)).
  by rewrite list_lookup_fmap, Hk.
Qed.

(** Claim C1.  An access to a set that satisfies the rank invariant, for any
    associativity of at least 1, returns: [Hit] when a valid line holds the
    tag, and then no tag and no valid flag changes; otherwise [MissNoEvict]
    when some line is not valid, and then the first such line receives the
    tag and becomes valid; otherwise [MissWithEvict], and then the line of
    rank [assoc - 1] has its tag overwritten and stays valid.  In the two
    miss cases the other lines keep their tag and valid flag. *)
Theorem Set_access_outcome (set : list cache_line) (assoc t : Z) :
  1 <= assoc -> rank_invariant set assoc ->
  exists o set', Set_access set assoc t = Ok (o, set') /\
    (has_tag set t ->
       o = Hit /\ map tag set' = map tag set /\
       map valid set' = map valid set) /\
    (~ has_tag set t -> (exists l, l ∈ set /\ valid l = false) ->
       o = MissNoEvict /\
       exists k, first_empty set k /\
         map tag set' = <[k := t]> (map tag set) /\
         map valid set' = <[k := true]> (map valid set)) /\
    (~ has_tag set t -> (forall l, l ∈ set -> valid l = true) ->
       o = MissWithEvict /\
       exists k l, set !! k = Some l /\ lru_cntr l = assoc - 1 /\
         map tag set' = <[k := t]> (map tag set) /\
         map valid set' = map valid set).
Proof.
  intros HE Hinv.
  destruct (Set_access_view set assoc t HE Hinv) as (o & k & l & Hsel & Heq).
  eexists o, _. split; [exact Heq |].
  destruct Hsel as [Hk Hsel].
  assert (l ∈ set) as Hin by (apply list_elem_of_lookup; eauto).
  set (r0 := rank_accessed assoc o l) in *.
  pose proof (lookup_map_Some (update_line r0) _ _ _ Hk) as Hk'.
  destruct o; simpl in Hsel.
  - (* Hit *)
    destruct Hsel as [Hv Ht].
    assert (has_tag set t) as Hhas by (exists l; done).
    split; [| split; intros Hno; by destruct Hno].
    intros _. split; [done |]. simpl.
    rewrite list_insert_id by done.
    rewrite !map_map. split; apply map_ext; intros l'.
    + apply update_line_tag.
    + apply update_line_valid.
  - (* MissNoEvict *)
    destruct Hsel as (Hno & Hv & Hfirst).
    split; [| split].
    + intros (l' & Hl' & Hv' & Ht'). by destruct (Hno l' Hl' Hv').
    + intros _ _. split; [done |]. exists k. split; [| split].
      * split; [by exists l | done].
      * change (tag <$> <[k := placed MissNoEvict t (update_line r0 l)]>
                  (map (update_line r0) set) = <[k := t]> (map tag set)).
        rewrite list_fmap_insert. simpl. f_equal.
        change (map tag (map (update_line r0) set) = map tag set).
        rewrite map_map. apply map_ext, update_line_tag.
      * change (valid <$> <[k := placed MissNoEvict t (update_line r0 l)]>
                  (map (update_line r0) set) = <[k := true]> (map valid set)).
        rewrite list_fmap_insert. simpl. f_equal.
        change (map valid (map (update_line r0) set) = map valid set).
        rewrite map_map. apply map_ext, update_line_valid.
    + intros _ Hall. rewrite (Hall l Hin) in Hv. done.
  - (* MissWithEvict *)
    destruct Hsel as (Hno & Hall & Hr).
    split; [| split].
    + intros (l' & Hl' & Hv' & Ht'). by destruct (Hno l' Hl' Hv').
    + intros _ (l' & Hl' & Hv'). rewrite (Hall l' Hl') in Hv'. done.
    + intros _ _. split; [done |]. exists k, l.
      split; [done |]. split; [done |]. split.
      * change (tag <$> <[k := placed MissWithEvict t (update_line r0 l)]>
                  (map (update_line r0) set) = <[k := t]> (map tag set)).
        rewrite list_fmap_insert. simpl. f_equal.
        change (map tag (map (update_line r0) set) = map tag set).
        rewrite map_map. apply map_ext, update_line_tag.
      * rewrite (map_insert_same valid _ k (update_line r0 l)); [| done | done].
        rewrite map_map. apply map_ext, update_line_valid.
Qed.

Lemma Set_access_outcome_witness :
  (1 <= 3 /\ rank_invariant set_C1 3) /\
  exists o set', Set_access set_C1 3 7 = Ok (o, set') /\
    (has_tag set_C1 7 ->
       o = Hit /\ map tag set' = map tag set_C1 /\
       map valid set' = map valid set_C1) /\
    (~ has_tag set_C1 7 -> (exists l, l ∈ set_C1 /\ valid l = false) ->
       o = MissNoEvict /\
       exists k, first_empty set_C1 k /\
         map tag set' = <[k := 7]> (map tag set_C1) /\
         map valid set' = <[k := true]> (map valid set_C1)) /\
    (~ has_tag set_C1 7 -> (forall l, l ∈ set_C1 -> valid l = true) ->
       o = MissWithEvict /\
       exists k l, set_C1 !! k = Some l /\ lru_cntr l = 3 - 1 /\
         map tag set' = <[k := 7]> (map tag set_C1) /\
         map valid set' = map valid set_C1).
Proof.
  assert (1 <= 3 /\ rank_invariant set_C1 3) as H.
  { split; [lia | apply rank_invariantb_true; vm_compute; reflexivity]. }
  split; [exact H |].
  exact (Set_access_outcome set_C1 3 7 (proj1 H) (proj2 H)).
Defined.

(** ** The promotion step *)

(** Claim C3.  [update_lru_cntr], called with the rank [r0] of the accessed
    line, leaves every line in place with its tag and valid flag, and gives
    a line of rank below [r0] its rank plus one, a line of rank [r0] the
    rank 0, and any other line the rank it had.  The hypotheses say that
    the array has [assoc] lines and that [r0] and the ranks are values of
    the C type [short], as the declarations have them. *)
Theorem update_lru_cntr_promotes (set : list cache_line) (assoc r0 : Z)
    (i : nat) (l : cache_line) :
  length set = Z.to_nat assoc -> is_short r0 -> short_ranks set ->
  set !! i = Some l ->
  exists l', update_lru_cntr set assoc r0 !! i = Some l' /\
    tag l' = tag l /\ valid l' = valid l /\
    (lru_cntr l < r0 -> lru_cntr l' = lru_cntr l + 1) /\
    (lru_cntr l = r0 -> lru_cntr l' = 0) /\
    (r0 < lru_cntr l -> lru_cntr l' = lru_cntr l).
Proof.
  intros Hlen H0 Hs Hi. exists (update_line r0 l).
  split; [by apply update_lru_cntr_lookup |].
  split; [apply update_line_tag |]. split; [apply update_line_valid |].
  assert (is_short (lru_cntr l)) as Hl.
  { unfold short_ranks in Hs. rewrite Forall_forall in Hs.
    apply Hs, list_elem_of_lookup. eauto. }
  rewrite update_line_lru_cntr by done. unfold promote.
  destruct (lru_cntr l <? r0) eqn:Hlt.
  - apply Z.ltb_lt in Hlt. repeat split; intros; lia.
  - apply Z.ltb_ge in Hlt. destruct (lru_cntr l =? r0) eqn:Heq.
    + apply Z.eqb_eq in Heq. repeat split; intros; lia.
    + apply Z.eqb_neq in Heq. repeat split; intros; lia.
Qed.

Lemma short_ranksb_true set : short_ranksb set = true -> short_ranks set.
Proof.
  unfold short_ranksb, short_ranks, is_short. rewrite forallb_forall.
  intros H. apply Forall_forall. intros l Hl.
  apply list_elem_of_In in Hl.
  specialize (H l Hl). apply andb_true_iff in H as [H1 H2].
  apply Z.leb_le in H1, H2. lia.
Qed.

Lemma update_lru_cntr_promotes_witness :
  (length set_C1 = Z.to_nat 3 /\ is_short 1 /\ short_ranks set_C1 /\
   set_C1 !! 1%nat = Some (mk_line 0 false 0)) /\
  exists l', update_lru_cntr set_C1 3 1 !! 1%nat = Some l' /\
    tag l' = 0 /\ valid l' = false /\
    (0 < 1 -> lru_cntr l' = 0 + 1) /\
    (0 = 1 -> lru_cntr l' = 0) /\
    (1 < 0 -> lru_cntr l' = 0).
Proof.
  assert (length set_C1 = Z.to_nat 3 /\ is_short 1 /\ short_ranks set_C1 /\
          set_C1 !! 1%nat = Some (mk_line 0 false 0)) as H.
  { split; [reflexivity |]. split; [unfold is_short; lia |].
    split; [apply short_ranksb_true; reflexivity | reflexivity]. }
  split; [exact H |].
  exact (update_lru_cntr_promotes set_C1 3 1 1 (mk_line 0 false 0)
           (proj1 H) (proj1 (proj2 H)) (proj1 (proj2 (proj2 H)))
           (proj2 (proj2 (proj2 H)))).
Defined.

(** A set whose ranks satisfy the invariant, with at most 32768 lines, holds
    ranks that fit the type [short]. *)
Lemma rank_invariant_short set assoc :
  assoc <= 32768 -> rank_invariant set assoc -> short_ranks set.
Proof.
  intros HE Hinv. apply Forall_forall. intros l Hl.
  pose proof (rank_invariant_range _ _ l Hinv Hl). unfold is_short. lia.
Qed.

(** Conversely, the invariant on ranks of type [short] bounds the number of
    lines. *)
Lemma short_ranks_bound set assoc :
  rank_invariant set assoc -> short_ranks set -> assoc <= 32768.
Proof.
  intros Hinv Hs. destruct (Z_le_gt_dec assoc 32768) as [| Hgt]; [done |].
  destruct (rank_invariant_has set assoc (assoc - 1) Hinv) as (k & l & Hk & Hr);
    [lia |].
  unfold short_ranks in Hs. rewrite Forall_forall in Hs.
  assert (is_short (lru_cntr l)) as Hl.
  { apply Hs, list_elem_of_lookup. eauto. }
  unfold is_short in Hl. lia.
Qed.

Lemma rank_accessed_former set assoc t o k l :
  assoc <= 32768 -> rank_invariant set assoc ->
  selects set assoc t o k l -> rank_accessed assoc o l = lru_cntr l.
Proof.
  intros HE Hinv [Hk Hsel]. destruct o; simpl; try done.
  destruct Hsel as (_ & _ & ->). apply to_short_id.
  assert (l ∈ set) as Hin by (apply list_elem_of_lookup; eauto).
  pose proof (rank_invariant_range _ _ l Hinv Hin). unfold is_short. lia.
Qed.

(** In each of the three branches the rank handed to the promotion step is
    the former rank of the line the access selects, and the ranks of the set
    afterwards are the promoted ranks. *)
Lemma Set_access_promotes (set : list cache_line) (assoc t : Z) :
  1 <= assoc <= 32768 -> rank_invariant set assoc ->
  exists o k l,
    selects set assoc t o k l /\
    Set_access set assoc t =
      Ok (o, <[k := placed o t (update_line (lru_cntr l) l)]>
               (map (update_line (lru_cntr l)) set)) /\
    forall set', Set_access set assoc t = Ok (o, set') ->
      map lru_cntr set' = map (promote (lru_cntr l)) (map lru_cntr set).
Proof.
  intros HE Hinv.
  destruct (Set_access_view set assoc t) as (o & k & l & Hsel & Heq);
    [lia | done |].
  rewrite (rank_accessed_former _ _ _ _ _ _ (proj2 HE) Hinv Hsel) in Heq.
  exists o, k, l. split; [done |]. split; [done |].
  intros set' Heq'. rewrite Heq in Heq'. injection Heq' as <-.
  destruct Hsel as [Hk _].
  assert (l ∈ set) as Hin by (apply list_elem_of_lookup; eauto).
  pose proof (rank_invariant_short _ _ (proj2 HE) Hinv) as Hs.
  pose proof (rank_invariant_range _ _ l Hinv Hin) as Hr.
  rewrite (map_insert_same lru_cntr _ k (update_line (lru_cntr l) l)).
  - rewrite <- update_lru_cntr_whole with (assoc := assoc)
      by (by apply rank_invariant_length).
    apply update_lru_cntr_ranks;
      [by apply rank_invariant_length | unfold is_short; lia | done].
  - by apply lookup_map_Some.
  - apply placed_lru_cntr.
Qed.

Lemma Set_access_invariant (set : list cache_line) (assoc t : Z) :
  1 <= assoc <= 32768 -> rank_invariant set assoc ->
  exists o set', Set_access set assoc t = Ok (o, set') /\
    rank_invariant set' assoc.
Proof.
  intros HE Hinv.
  destruct (Set_access_promotes set assoc t HE Hinv)
    as (o & k & l & [Hk Hsel] & Heq & Hranks).
  eexists o, _. split; [exact Heq |].
  unfold rank_invariant. rewrite (Hranks _ Heq).
  assert (l ∈ set) as Hin by (apply list_elem_of_lookup; eauto).
  pose proof (rank_invariant_range _ _ l Hinv Hin) as Hr.
  etransitivity; [| apply (promote_seqZ (lru_cntr l) assoc Hr)].
  by apply Permutation_map.
Qed.

(** ** The address decomposition *)

Lemma INDEX_MASK_ones (s : Z) : 0 <= s -> INDEX_MASK s = Z.ones s.
Proof.
  intros Hs. unfold INDEX_MASK. rewrite Z.shiftl_1_l, Z.ones_equiv. lia.
Qed.

Lemma num_sets_pow (s : Z) : 0 <= s -> num_sets s = 2 ^ s.
Proof. intros Hs. unfold num_sets. by rewrite Z.shiftl_1_l. Qed.

Lemma decode_index_range (s b address : Z) :
  0 <= s -> 0 <= snd (decode s b address) < num_sets s.
Proof.
  intros Hs. unfold decode. simpl.
  rewrite INDEX_MASK_ones, Z.land_ones, num_sets_pow by done.
  apply Z.mod_pos_bound. by apply Z.pow_pos_nonneg.
Qed.

(** ** The invariant of the whole cache *)

Lemma init_set_ranks assoc malloc_tag i :
  assoc <= 32768 ->
  map lru_cntr (init_set assoc malloc_tag i) = seqZ 0 assoc.
Proof.
  intros HE. unfold init_set, seqZ. rewrite map_map.
  apply map_ext_in. intros j Hj. apply in_seq in Hj. simpl.
  rewrite to_short_id; [lia | unfold is_short; lia].
Qed.

Lemma init_invariant s assoc malloc_tag :
  assoc <= 32768 -> cache_invariant s assoc (init_cache s assoc malloc_tag).
Proof.
  intros HE. split.
  - unfold init_cache. by rewrite length_map, length_seq.
  - apply Forall_forall. intros set Hset.
    apply list_elem_of_In, in_map_iff in Hset as (i & <- & _).
    unfold rank_invariant. by rewrite init_set_ranks.
Qed.

(** What one iteration of the loop does for a data reference. *)
Lemma loop_body_data s b assoc st c a :
  0 <= s -> 1 <= assoc -> cache_invariant s assoc (cache st) ->
  Ascii.eqb c "I" = false ->
  exists set o set',
    cache st !! Z.to_nat (snd (decode s b a)) = Some set /\
    Set_access set assoc (fst (decode s b a)) = Ok (o, set') /\
    rank_invariant set assoc /\
    loop_body s b assoc st c a =
      Ok (mk_sim (<[Z.to_nat (snd (decode s b a)) := set']> (cache st))
            ((hits st + if o is Hit then 1 else 0)
               + if Ascii.eqb c "M" then 1 else 0)
            (misses st + if o is Hit then 0 else 1)
            (evictions st + if o is MissWithEvict then 1 else 0)).
Proof.
  intros Hs HE [Hlen Hall] HI.
  pose proof (decode_index_range s b a Hs) as Hidx.
  unfold loop_body. rewrite HI.
  destruct (decode s b a) as [t idx] eqn:Hdec. simpl in *.
  destruct (lookup_lt_is_Some_2 (cache st) (Z.to_nat idx)) as [set Hset];
    [lia |].
  assert (rank_invariant set assoc) as Hinv.
  { rewrite Forall_forall in Hall. apply Hall, list_elem_of_lookup. eauto. }
  destruct (Set_access_view set assoc t HE Hinv)
    as (o & k & l & _ & Heq).
  eexists set, o, _. split; [done |]. split; [exact Heq |]. split; [done |].
  unfold array_get. destruct (idx <? 0) eqn:Hneg; [lia |].
  rewrite Hset. simpl. rewrite Heq. simpl.
  destruct o, (Ascii.eqb c "M"); simpl; f_equal; f_equal; lia.
Qed.

Lemma loop_body_invariant s b assoc st c a :
  0 <= s -> 1 <= assoc <= 32768 -> cache_invariant s assoc (cache st) ->
  exists st', loop_body s b assoc st c a = Ok st' /\
    cache_invariant s assoc (cache st').
Proof.
  intros Hs HE Hinv. destruct (Ascii.eqb c "I") eqn:HI.
  - exists st. unfold loop_body. by rewrite HI.
  - destruct (loop_body_data s b assoc st c a Hs (proj1 HE) Hinv HI)
      as (set & o & set' & Hset & Hacc & Hinvs & ->).
    destruct (Set_access_invariant set assoc (fst (decode s b a)) HE Hinvs)
      as (o2 & set2 & Hacc2 & Hinv2).
    rewrite Hacc in Hacc2. injection Hacc2 as <- <-.
    eexists. split; [reflexivity |]. simpl.
    destruct Hinv as [Hlen Hall]. split.
    + by rewrite length_insert.
    + by apply Forall_insert.
Qed.

Lemma replay_invariant s b assoc trace st :
  0 <= s -> 1 <= assoc <= 32768 -> cache_invariant s assoc (cache st) ->
  exists st', replay s b assoc trace st = Ok st' /\
    cache_invariant s assoc (cache st').
Proof.
  intros Hs HE. revert st.
  induction trace as [| e rest IH]; intros st Hinv; simpl.
  - by exists st.
  - destruct (items e =? 2); [| by exists st].
    destruct (loop_body_invariant s b assoc st (access_type e) (address e))
      as (st1 & -> & Hinv1); [done | done | done |].
    simpl. by apply IH.
Qed.

(** With at least one and at most 32768 lines per set (the ranks are C
    [short]s) and shifts that C defines, the run of any trace from the
    initial cache never faults, and in the cache it reaches every set has
    ranks that are a permutation of 0, ..., assoc-1.  Every state of a run
    is the state reached by a prefix of its trace, the empty prefix giving
    the initial cache. *)
Theorem rank_invariant_always (s b assoc : Z) (malloc_tag : nat -> nat -> Z)
    (trace : list scan) :
  0 <= s <= 30 -> 0 <= b -> s + b <= 63 -> 1 <= assoc <= 32768 ->
  exists st, replay s b assoc trace (init s assoc malloc_tag) = Ok st /\
    length (cache st) = Z.to_nat (num_sets s) /\
    forall set, set ∈ cache st -> map lru_cntr set ≡ₚ seqZ 0 assoc.
Proof.
  intros [Hs _] _ _ HE.
  destruct (replay_invariant s b assoc trace (init s assoc malloc_tag))
    as (st & Heq & Hlen & Hall); [done | done | |].
  - apply init_invariant. lia.
  - exists st. split; [done |]. split; [done |].
    intros set Hset. rewrite Forall_forall in Hall. by apply Hall.
Qed.

Lemma rank_invariant_always_witness :
  (0 <= 1 <= 30 /\ 0 <= 2 /\ 1 + 2 <= 63 /\ 1 <= 2 <= 32768) /\
  exists st,
    replay 1 2 2 [L 0; M 8; L 16; L 24] (init 1 2 (fun _ _ => 0)) = Ok st /\
    length (cache st) = Z.to_nat (num_sets 1) /\
    forall set, set ∈ cache st -> map lru_cntr set ≡ₚ seqZ 0 2.
Proof.
  assert (0 <= 1 <= 30 /\ 0 <= 2 /\ 1 + 2 <= 63 /\ 1 <= 2 <= 32768) as H
    by lia.
  split; [exact H |].
  exact (rank_invariant_always 1 2 2 (fun _ _ => 0) [L 0; M 8; L 16; L 24]
           (proj1 H) (proj1 (proj2 H)) (proj1 (proj2 (proj2 H)))
           (proj2 (proj2 (proj2 H)))).
Defined.

(** Claim C2, on the command line [-s 0 -E 32769 -b 0].  The loop of lines
    78-85 stores [j] in the [short] field [lru_cntr]: the last line of a
    fresh set gets the rank (short) 32768 = -32768, and the ranks of the
    sets of the initial cache are not a permutation of 0, ..., 32768,
    against the comment of lines 81-82 and the assertion of line 163. *)
Lemma rank_invariant_fails_at_init :
  ~ (forall set, set ∈ cache (init 0 32769 (fun _ _ => 0)) ->
       map lru_cntr set ≡ₚ seqZ 0 32769).
Proof.
  intros Hall.
  assert (init_set 32769 (fun _ _ => 0) 0
          ∈ cache (init 0 32769 (fun _ _ => 0))) as Hset.
  { apply list_elem_of_lookup. exists 0%nat.
    unfold init, init_cache, cache. apply lookup_map_Some.
    apply lookup_seq. split; [reflexivity | vm_compute; lia]. }
  pose proof (Hall _ Hset) as Hinv. clear Hall Hset.
  set (l := init_line (fun _ _ => 0) 0 (Z.to_nat 32768)).
  assert (init_set 32769 (fun _ _ => 0) 0 !! Z.to_nat 32768 = Some l)
    as Hlast.
  { unfold init_set. apply lookup_map_Some.
    apply lookup_seq. split; [reflexivity | lia]. }
  assert (l ∈ init_set 32769 (fun _ _ => 0) 0) as Hin.
  { apply list_elem_of_lookup. eauto. }
  pose proof (rank_invariant_range _ _ _ Hinv Hin) as Hr.
  assert (lru_cntr l = -32768) as Hl.
  { unfold l, init_line, lru_cntr. rewrite Z2Nat.id by lia. reflexivity. }
  lia.
Qed.

(** ** The replay loop *)

(** What an iteration that runs to its end has done, in any state and for
    any configuration. *)
Lemma loop_body_Ok_inv s b assoc st c a st' :
  loop_body s b assoc st c a = Ok st' ->
  (Ascii.eqb c "I" = true /\ st' = st) \/
  (Ascii.eqb c "I" = false /\
   exists set o set',
     0 <= snd (decode s b a) /\
     cache st !! Z.to_nat (snd (decode s b a)) = Some set /\
     Set_access set assoc (fst (decode s b a)) = Ok (o, set') /\
     st' = mk_sim (<[Z.to_nat (snd (decode s b a)) := set']> (cache st))
             ((hits st + if o is Hit then 1 else 0)
                + if Ascii.eqb c "M" then 1 else 0)
             (misses st + if o is Hit then 0 else 1)
             (evictions st + if o is MissWithEvict then 1 else 0)).
Proof.
  unfold loop_body. destruct (Ascii.eqb c "I") eqn:HI.
  - intros [= <-]. by left.
  - intros H. right. split; [done |].
    destruct (decode s b a) as [t idx]. simpl fst. simpl snd.
    unfold array_get in H. destruct (idx <? 0) eqn:Hneg; [done |].
    apply Z.ltb_ge in Hneg.
    destruct (cache st !! Z.to_nat idx) as [set |] eqn:Hset; [| done].
    simpl in H.
    destruct (Set_access set assoc t) as [[o set'] | f] eqn:Hacc; [| done].
    simpl in H. exists set, o, set'.
    split; [done |]. split; [done |]. split; [done |].
    destruct o, (Ascii.eqb c "M"); simpl in H; injection H as <-;
      f_equal; lia.
Qed.

(** Claim C4.  In any state and for any configuration: the iteration of the
    loop for an entry of kind [I] runs to its end and leaves the counters
    (and the cache) as they were; the iteration for any other entry runs to
    its end exactly when the set of its address exists and the access
    [Set_access] to it with the tag of the address has an outcome [o], and
    it has then put the set that the access leaves in the cache and added
    one to [hits] for [Hit], one to [misses] for [MissNoEvict], one to
    [misses] and one to [evictions] for [MissWithEvict]; an entry of kind
    [M] has added one more to [hits], whatever the outcome. *)
Theorem counters_follow_outcome (s b assoc : Z) (st : sim) (c : ascii)
    (a : Z) :
  (c = "I"%char -> loop_body s b assoc st c a = Ok st) /\
  (c <> "I"%char ->
   forall st',
     loop_body s b assoc st c a = Ok st' <->
     exists set o set',
       0 <= snd (decode s b a) /\
       cache st !! Z.to_nat (snd (decode s b a)) = Some set /\
       Set_access set assoc (fst (decode s b a)) = Ok (o, set') /\
       cache st' = <[Z.to_nat (snd (decode s b a)) := set']> (cache st) /\
       hits st' = hits st + (if o is Hit then 1 else 0)
                  + (if Ascii.eqb c "M" then 1 else 0) /\
       misses st' = misses st + (if o is Hit then 0 else 1) /\
       evictions st' = evictions st + (if o is MissWithEvict then 1 else 0)).
Proof.
  split.
  - intros ->. reflexivity.
  - intros Hne st'. apply Ascii.eqb_neq in Hne. split.
    + intros Hrun.
      apply loop_body_Ok_inv in Hrun
        as [[HI _] | (_ & set & o & set' & Hpos & Hset & Hacc & ->)];
        [congruence |].
      exists set, o, set'. simpl. done.
    + intros (set & o & set' & Hpos & Hset & Hacc & Hc & Hh & Hm & He).
      unfold loop_body. rewrite Hne.
      destruct (decode s b a) as [t idx]. simpl fst in *. simpl snd in *.
      unfold array_get. destruct (Z.ltb_spec idx 0) as [Hneg | _]; [lia |].
      rewrite Hset. simpl. rewrite Hacc. simpl.
      destruct st' as [c' h' m' e']. simpl in Hc, Hh, Hm, He. subst.
      destruct o, (Ascii.eqb c "M"); simpl; f_equal; f_equal; lia.
Qed.

Lemma cache_invariantb_true s assoc c :
  Nat.eqb (length c) (Z.to_nat (num_sets s))
    && forallb (fun set => rank_invariantb set assoc) c = true ->
  cache_invariant s assoc c.
Proof.
  intros H. apply andb_true_iff in H as [Hlen Hall].
  split; [by apply Nat.eqb_eq |].
  rewrite forallb_forall in Hall. apply Forall_forall. intros set Hset.
  apply rank_invariantb_true, Hall. by apply list_elem_of_In.
Qed.

Lemma counters_follow_outcome_witness :
  ("M"%char = "I"%char -> loop_body 0 0 2 sim_C4 "M" 9 = Ok sim_C4) /\
  ("M"%char <> "I"%char ->
   forall st',
     loop_body 0 0 2 sim_C4 "M" 9 = Ok st' <->
     exists set o set',
       0 <= snd (decode 0 0 9) /\
       cache sim_C4 !! Z.to_nat (snd (decode 0 0 9)) = Some set /\
       Set_access set 2 (fst (decode 0 0 9)) = Ok (o, set') /\
       cache st' = <[Z.to_nat (snd (decode 0 0 9)) := set']> (cache sim_C4) /\
       hits st' = hits sim_C4 + (if o is Hit then 1 else 0)
                  + (if Ascii.eqb "M" "M" then 1 else 0) /\
       misses st' = misses sim_C4 + (if o is Hit then 0 else 1) /\
       evictions st'
       = evictions sim_C4 + (if o is MissWithEvict then 1 else 0)).
Proof. exact (counters_follow_outcome 0 0 2 sim_C4 "M" 9). Defined.

(** The same iteration, evaluated. *)
Example counters_modify_evict :
  loop_body 0 0 2 sim_C4 "M" 9
  = Ok (mk_sim [[mk_line 3 true 1; mk_line 9 true 0]] 6 7 3).
Proof. reflexivity. Qed.

(** Claim C9.  For every configuration and trace, the run of the trace and
    the run of the trace without its [I] entries report the same three
    counters (or end in the same fault); from any starting state the two
    replays end in the same state, cache included; and the iteration for an
    [I] entry returns the state it was given: the entry does not reach the
    cache. *)
Theorem instructions_ignored (s b assoc : Z) (malloc_tag : nat -> nat -> Z)
    (trace : list scan) (st : sim) :
  main s b assoc malloc_tag (remove_instructions trace)
  = main s b assoc malloc_tag trace
  /\ replay s b assoc (remove_instructions trace) st
     = replay s b assoc trace st
  /\ forall a, loop_body s b assoc st "I" a = Ok st.
Proof.
  assert (forall st0, replay s b assoc (remove_instructions trace) st0
                      = replay s b assoc trace st0) as Hreplay.
  { induction trace as [| e rest IH]; intros st0; [done |].
    simpl. unfold is_instruction.
    destruct (items e =? 2) eqn:H2; simpl.
    - destruct (Ascii.eqb (access_type e) "I") eqn:HI.
      + apply Ascii.eqb_eq in HI. rewrite HI. simpl. apply IH.
      + simpl. rewrite H2.
        destruct (loop_body s b assoc st0 (access_type e) (address e));
          simpl; [apply IH | done].
    - by rewrite H2. }
  split; [| split; [apply Hreplay | done]].
  unfold main. by rewrite Hreplay.
Qed.

Example replay_without_instructions_example :
  main 1 1 2 (fun _ _ => 0)
    [L 0; mk_scan 2 "I" 4; mk_scan 2 "S" 8; mk_scan 2 "I" 0; L 0]
  = main 1 1 2 (fun _ _ => 0) [L 0; mk_scan 2 "S" 8; L 0].
Proof. reflexivity. Qed.

(** Claim C10.  An entry whose kind character is neither [I] nor [M] is
    handled exactly as the entry [L] with the same address: the iteration
    yields the same cache and the same counters (or the same fault). *)
Theorem kind_only_I_and_M_matter (s b assoc : Z) (st : sim) (c : ascii)
    (a : Z) :
  c <> "I"%char -> c <> "M"%char ->
  loop_body s b assoc st c a = loop_body s b assoc st "L" a.
Proof.
  intros HI HM. unfold loop_body.
  apply Ascii.eqb_neq in HI, HM. rewrite HI, HM. reflexivity.
Qed.

Lemma kind_only_I_and_M_matter_witness :
  ("X"%char <> "I"%char /\ "X"%char <> "M"%char) /\
  loop_body 0 0 2 sim_C4 "X" 9 = loop_body 0 0 2 sim_C4 "L" 9.
Proof.
  assert ("X"%char <> "I"%char /\ "X"%char <> "M"%char) as H.
  { split; discriminate. }
  split; [exact H |].
  exact (kind_only_I_and_M_matter 0 0 2 sim_C4 "X" 9 (proj1 H) (proj2 H)).
Defined.

(** ** Lines that [fscanf] does not convert *)

(** The line after a malformed line is not replayed: the run of
    [L 0; <malformed>; L 10] reports one miss, the run without the malformed
    line reports two misses and an eviction. *)
Lemma malformed_line_not_skipped :
  items unparsable <> 2 /\
  main 0 0 1 (fun _ _ => 0) [L 0; unparsable; L 16] = Ok (0, 1, 0) /\
  main 0 0 1 (fun _ _ => 0) [L 0; L 16] = Ok (0, 2, 1) /\
  main 0 0 1 (fun _ _ => 0) [L 0; unparsable; L 16]
  <> main 0 0 1 (fun _ _ => 0) [L 0; L 16].
Proof.
  split; [discriminate |]. split; [reflexivity |]. split; [reflexivity |].
  discriminate.
Qed.

(** Claim C7, as amended.  The replay loop ends at the first call of
    [fscanf] that does not return 2: the state it reaches is the state
    reached by the lines before the malformed line; the malformed line and
    the lines after it are not replayed, and the malformed line itself
    raises no fault, so that the counters of the lines before it are still
    reported. *)
Theorem malformed_line_ends_replay (s b assoc : Z) (pre post : list scan)
    (bad : scan) (st : sim) :
  Forall (fun e => items e = 2) pre -> items bad <> 2 ->
  replay s b assoc (pre ++ bad :: post) st = replay s b assoc pre st.
Proof.
  intros Hpre Hbad. revert st.
  induction Hpre as [| e pre He Hpre IH]; intros st; simpl.
  - apply Z.eqb_neq in Hbad. by rewrite Hbad.
  - rewrite He. simpl.
    destruct (loop_body s b assoc st (access_type e) (address e));
      simpl; [apply IH | done].
Qed.

Lemma malformed_line_ends_replay_witness :
  (Forall (fun e => items e = 2) [L 0] /\ items unparsable <> 2) /\
  replay 0 0 1 ([L 0] ++ unparsable :: [L 16]) (init 0 1 (fun _ _ => 0))
  = replay 0 0 1 [L 0] (init 0 1 (fun _ _ => 0)).
Proof.
  assert (Forall (fun e => items e = 2) [L 0] /\ items unparsable <> 2) as H.
  { split; [by repeat constructor | discriminate]. }
  split; [exact H |].
  exact (malformed_line_ends_replay 0 0 1 [L 0] [L 16] unparsable
           (init 0 1 (fun _ _ => 0)) (proj1 H) (proj2 H)).
Defined.

(** ** The address decomposition on 64-bit addresses *)

Lemma to_long_long_low (u : Z) : 0 <= u < 2 ^ 63 -> to_long_long u = u.
Proof.
  intros H. unfold to_long_long, wrap.
  change (2 ^ (64 - 1)) with (2 ^ 63). rewrite Z.mod_small; lia.
Qed.

Lemma to_long_long_high (u : Z) :
  2 ^ 63 <= u < 2 ^ 64 -> to_long_long u = u - 2 ^ 64.
Proof.
  intros H. unfold to_long_long, wrap. change (2 ^ (64 - 1)) with (2 ^ 63).
  replace (u + 2 ^ 63) with (u - 2 ^ 63 + 1 * 2 ^ 64) by lia.
  rewrite Z.mod_add by lia. rewrite Z.mod_small; lia.
Qed.

Lemma shiftr_high (u k : Z) :
  0 <= k <= 64 ->
  Z.shiftr (u - 2 ^ 64) k = Z.shiftr u k - 2 ^ (64 - k).
Proof.
  intros Hk. rewrite !Z.shiftr_div_pow2 by lia.
  replace (2 ^ 64) with (2 ^ (64 - k) * 2 ^ k).
  2:{ rewrite <- Z.pow_add_r by lia. f_equal. lia. }
  replace (u - 2 ^ (64 - k) * 2 ^ k) with (u + (- 2 ^ (64 - k)) * 2 ^ k)
    by lia.
  rewrite Z.div_add by (apply Z.pow_nonzero; lia). lia.
Qed.

(** The address ffffffffffffffff with [s = 0] and [b = 4]: the program
    shifts the [long long] -1 and gets the tag -1, the decomposition of the
    unsigned address has the tag 0fffffffffffffff. *)
Lemma decode_signed_address :
  decode 0 4 (to_long_long (2 ^ 64 - 1)) = (-1, 0) /\
  decode_unsigned (2 ^ 64 - 1) 0 4 = (2 ^ 60 - 1, 0) /\
  decode 0 4 (to_long_long (2 ^ 64 - 1)) <> decode_unsigned (2 ^ 64 - 1) 0 4.
Proof.
  split; [reflexivity |]. split; [reflexivity |]. discriminate.
Qed.

(** Claim C8, as amended.  The program reads the address into a [long long]
    and shifts that signed value.  For every 64-bit address [u] and every
    [s], [b] for which C defines the shifts ([s] from 0 to 30, as [1 << s]
    is an [int]; [b] from 0 and [s + b] up to 63), the set index is
    [(u >> b) & ((1 << s) - 1)]; the tag is [u >> (s + b)] when [u] is
    below 2^63, and [(u >> (s + b)) - 2^(64 - (s + b))] (the same bits,
    sign-extended) otherwise.  Two addresses have the same tag in the
    program exactly when they have the same [u >> (s + b)]. *)
Theorem decode_long_long (u s b : Z) :
  0 <= u < 2 ^ 64 -> 0 <= s <= 30 -> 0 <= b -> s + b <= 63 ->
  snd (decode s b (to_long_long u))
    = Z.land (Z.shiftr u b) (Z.shiftl 1 s - 1) /\
  fst (decode s b (to_long_long u))
    = Z.shiftr u (s + b) - (if u <? 2 ^ 63 then 0 else 2 ^ (64 - (s + b))) /\
  forall u', 0 <= u' < 2 ^ 64 ->
    (fst (decode s b (to_long_long u)) = fst (decode s b (to_long_long u'))
     <-> Z.shiftr u (s + b) = Z.shiftr u' (s + b)).
Proof.
  intros Hu [Hs _] Hb Hsb.
  assert (forall v, 0 <= v < 2 ^ 64 ->
            fst (decode s b (to_long_long v))
            = Z.shiftr v (s + b)
              - (if v <? 2 ^ 63 then 0 else 2 ^ (64 - (s + b)))) as Htag.
  { intros v Hv. unfold decode. simpl.
    destruct (v <? 2 ^ 63) eqn:E.
    - apply Z.ltb_lt in E. rewrite to_long_long_low by lia. lia.
    - apply Z.ltb_ge in E. rewrite to_long_long_high by lia.
      apply shiftr_high. lia. }
  split; [| split; [by apply Htag |]].
  - unfold decode. simpl. fold (INDEX_MASK s).
    destruct (Z_lt_ge_dec u (2 ^ 63)) as [Hlow | Hhigh].
    + by rewrite to_long_long_low by lia.
    + rewrite to_long_long_high by lia. rewrite shiftr_high by lia.
      rewrite INDEX_MASK_ones, !Z.land_ones by done.
      replace (2 ^ (64 - b)) with (2 ^ (64 - b - s) * 2 ^ s).
      2:{ rewrite <- Z.pow_add_r by lia. f_equal. lia. }
      replace (Z.shiftr u b - 2 ^ (64 - b - s) * 2 ^ s)
        with (Z.shiftr u b + (- 2 ^ (64 - b - s)) * 2 ^ s) by lia.
      apply Z.mod_add. apply Z.pow_nonzero; lia.
  - intros u' Hu'. rewrite !Htag by done.
    assert (forall v, 0 <= v < 2 ^ 64 ->
              (v < 2 ^ 63 -> 0 <= Z.shiftr v (s + b) < 2 ^ (63 - (s + b)))
              /\ (2 ^ 63 <= v ->
                  2 ^ (63 - (s + b)) <= Z.shiftr v (s + b)
                  < 2 ^ (64 - (s + b)))) as Hrange.
    { intros v Hv. rewrite Z.shiftr_div_pow2 by lia.
      assert (0 < 2 ^ (s + b)) as Hpos by (apply Z.pow_pos_nonneg; lia).
      assert (2 ^ 63 = 2 ^ (63 - (s + b)) * 2 ^ (s + b)) as H63.
      { rewrite <- Z.pow_add_r by lia. f_equal. lia. }
      assert (2 ^ 64 = 2 ^ (64 - (s + b)) * 2 ^ (s + b)) as H64.
      { rewrite <- Z.pow_add_r by lia. f_equal. lia. }
      split; intros Hv'; split.
      - apply Z.div_pos; lia.
      - apply Z.div_lt_upper_bound; lia.
      - apply Z.div_le_lower_bound; lia.
      - apply Z.div_lt_upper_bound; lia. }
    assert (2 ^ (64 - (s + b)) = 2 * 2 ^ (63 - (s + b))) as Hdouble.
    { rewrite <- Z.pow_succ_r by lia. f_equal. lia. }
    destruct (Hrange u Hu) as [Hul Huh].
    destruct (Hrange u' Hu') as [Hul' Huh'].
    destruct (u <? 2 ^ 63) eqn:E; destruct (u' <? 2 ^ 63) eqn:E';
      try apply Z.ltb_lt in E; try apply Z.ltb_ge in E;
      try apply Z.ltb_lt in E'; try apply Z.ltb_ge in E';
      split; intros Heq; lia.
Qed.

Lemma decode_long_long_witness :
  (0 <= 2 ^ 64 - 1 < 2 ^ 64 /\ 0 <= 4 <= 30 /\ 0 <= 4 /\ 4 + 4 <= 63) /\
  snd (decode 4 4 (to_long_long (2 ^ 64 - 1)))
    = Z.land (Z.shiftr (2 ^ 64 - 1) 4) (Z.shiftl 1 4 - 1) /\
  fst (decode 4 4 (to_long_long (2 ^ 64 - 1)))
    = Z.shiftr (2 ^ 64 - 1) (4 + 4)
      - (if 2 ^ 64 - 1 <? 2 ^ 63 then 0 else 2 ^ (64 - (4 + 4))) /\
  forall u', 0 <= u' < 2 ^ 64 ->
    (fst (decode 4 4 (to_long_long (2 ^ 64 - 1)))
     = fst (decode 4 4 (to_long_long u'))
     <-> Z.shiftr (2 ^ 64 - 1) (4 + 4) = Z.shiftr u' (4 + 4)).
Proof.
  assert (0 <= 2 ^ 64 - 1 < 2 ^ 64 /\ 0 <= 4 <= 30 /\ 0 <= 4 /\ 4 + 4 <= 63)
    as H.
  { lia. }
  split; [exact H |].
  exact (decode_long_long (2 ^ 64 - 1) 4 4 (proj1 H) (proj1 (proj2 H))
           (proj1 (proj2 (proj2 H))) (proj2 (proj2 (proj2 H)))).
Defined.

(** ** Least recently used *)

Lemma age_Some h t : t ∈ h -> exists i, age h t = Some i.
Proof.
  induction h as [| x h IH]; intros Hin; [by apply elem_of_nil in Hin |].
  simpl. destruct (x =? t) eqn:E; [eauto |].
  apply Z.eqb_neq in E. apply elem_of_cons in Hin as [-> | Hin]; [done |].
  destruct (IH Hin) as [i ->]. simpl. eauto.
Qed.

Lemma recency_elem_of h t : t ∈ recency h <-> t ∈ h.
Proof.
  induction h as [| x h IH]; simpl; [done |].
  rewrite !elem_of_cons, list_elem_of_filter, IH.
  destruct (decide (t = x)) as [-> | Hne]; [by split; left |].
  split; [intros [? | [_ ?]]; [done | by right] |].
  intros [? | ?]; [done | by right].
Qed.

Lemma recency_NoDup h : NoDup (recency h).
Proof.
  induction h as [| x h IH]; simpl; [constructor |].
  constructor.
  - rewrite list_elem_of_filter. by intros [? _].
  - by apply NoDup_filter.
Qed.

(** [filter] keeps the order of the elements it keeps. *)
Lemma filter_lookup_order {A : Type} (P : A -> Prop)
    `{forall x, Decision (P x)} (l : list A) p q x y :
  filter P l !! p = Some x -> filter P l !! q = Some y -> (p < q)%nat ->
  exists p' q', l !! p' = Some x /\ l !! q' = Some y /\ (p' < q')%nat.
Proof.
  revert p q. induction l as [| a l IH]; intros p q Hp Hq Hlt; [done |].
  destruct (decide (P a)) as [Ha | Ha].
  - rewrite filter_cons_True in Hp, Hq by done.
    destruct p as [| p]; destruct q as [| q]; try lia; simpl in *.
    + injection Hp as <-.
      assert (y ∈ l) as Hy.
      { assert (y ∈ filter P l) as Hy by (apply list_elem_of_lookup; eauto).
        by apply list_elem_of_filter in Hy as [_ ?]. }
      apply list_elem_of_lookup in Hy as [q' Hq'].
      exists 0%nat, (S q'). simpl. split; [done |]. split; [done | lia].
    + destruct (IH p q Hp Hq) as (p' & q' & Hp' & Hq' & Hlt'); [lia |].
      exists (S p'), (S q'). simpl. split; [done |]. split; [done | lia].
  - rewrite filter_cons_False in Hp, Hq by done.
    destruct (IH p q Hp Hq Hlt) as (p' & q' & Hp' & Hq' & Hlt').
    exists (S p'), (S q'). simpl. split; [done |]. split; [done | lia].
Qed.

(** The recency list is ordered by age. *)
Lemma recency_sorted h p q x y :
  recency h !! p = Some x -> recency h !! q = Some y -> (p < q)%nat ->
  more_recent h x y.
Proof.
  revert p q x y. induction h as [| t h IH]; intros p q x y Hp Hq Hlt;
    [by simpl in Hp |].
  simpl in Hp, Hq. destruct q as [| q]; [lia |]. simpl in Hq.
  assert (y <> t /\ y ∈ h) as [Hyt Hyh].
  { assert (y ∈ filter (fun x => x <> t) (recency h)) as Hy
      by (apply list_elem_of_lookup; eauto).
    apply list_elem_of_filter in Hy as [Hne Hy].
    split; [done | by apply recency_elem_of]. }
  destruct p as [| p]; simpl in Hp.
  - injection Hp as <-. destruct (age_Some h y Hyh) as [j Hj].
    exists 0%nat, (S j). simpl. rewrite Z.eqb_refl.
    apply Z.eqb_neq in Hyt. rewrite Z.eqb_sym, Hyt, Hj. simpl.
    split; [done |]. split; [done | lia].
  - destruct (filter_lookup_order _ _ _ _ _ _ Hp Hq)
      as (p' & q' & Hp' & Hq' & Hlt'); [lia |].
    destruct (IH _ _ _ _ Hp' Hq' Hlt') as (i & j & Hi & Hj & Hij).
    assert (x <> t) as Hxt.
    { assert (x ∈ filter (fun x => x <> t) (recency h)) as Hx
        by (apply list_elem_of_lookup; eauto).
      by apply list_elem_of_filter in Hx as [? _]. }
    exists (S i), (S j). simpl.
    apply Z.eqb_neq in Hxt, Hyt.
    rewrite (Z.eqb_sym t x), (Z.eqb_sym t y), Hxt, Hyt, Hi, Hj. simpl.
    split; [done |]. split; [done | lia].
Qed.

(** A filter that keeps the first [n] elements keeps them in place. *)
Lemma filter_prefix {A : Type} (P : A -> Prop) `{forall x, Decision (P x)}
    (l : list A) (n : nat) :
  (forall x, x ∈ take n l -> P x) ->
  take n (filter P l) = take n l.
Proof.
  revert n. induction l as [| a l IH]; intros n Hall; [done |].
  destruct n as [| n]; [done |]. simpl in Hall.
  rewrite filter_cons_True by (apply Hall; left).
  simpl. f_equal. apply IH. intros x Hx. apply Hall. by right.
Qed.

Lemma filter_prefix_lookup {A : Type} (P : A -> Prop)
    `{forall x, Decision (P x)} (l : list A) (n p : nat) :
  (forall x, x ∈ take n l -> P x) -> (p < n)%nat ->
  filter P l !! p = l !! p.
Proof.
  intros Hall Hlt.
  rewrite <- (lookup_take_lt (filter P l) n p) by done.
  rewrite filter_prefix by done. by apply lookup_take_lt.
Qed.

(** In a list without duplicates, filtering out the element at position [i]
    deletes that position. *)
Lemma filter_ne_delete (l : list Z) (i : nat) (t : Z) :
  NoDup l -> l !! i = Some t -> filter (fun x => x <> t) l = delete i l.
Proof.
  revert i. induction l as [| a l IH]; intros i Hnd Hi; [done |].
  apply NoDup_cons in Hnd as [Ha Hnd].
  destruct i as [| i]; simpl in Hi.
  - injection Hi as ->. rewrite filter_cons_False by (by intros ?). simpl.
    clear IH. induction l as [| b l IH]; [done |].
    apply not_elem_of_cons in Ha as [Hne Ha].
    apply NoDup_cons in Hnd as [_ Hnd].
    rewrite filter_cons_True by done. f_equal. by apply IH.
  - assert (a <> t) as Hne.
    { intros ->. apply Ha, list_elem_of_lookup. eauto. }
    rewrite filter_cons_True by done. simpl. f_equal. by apply IH.
Qed.

Lemma filter_id {A : Type} (P : A -> Prop) `{forall x, Decision (P x)}
    (l : list A) :
  (forall x, x ∈ l -> P x) -> filter P l = l.
Proof.
  induction l as [| a l IH]; intros Hall; [done |].
  rewrite filter_cons_True by (apply Hall; left).
  f_equal. apply IH. intros x Hx. apply Hall. by right.
Qed.

(** *** The set implements the recency list *)

Lemma lru_inv_position set assoc h (p : nat) x :
  rank_invariant set assoc -> lru_inv set h ->
  Z.of_nat p < assoc -> recency h !! p = Some x ->
  exists k l, set !! k = Some l /\ lru_cntr l = Z.of_nat p /\
    valid l = true /\ tag l = x.
Proof.
  intros Hinv Hlru Hp Hx.
  destruct (rank_invariant_has set assoc (Z.of_nat p) Hinv)
    as (k & l & Hk & Hr);
    [lia |].
  exists k, l. split; [done |]. split; [done |].
  specialize (Hlru k l Hk). rewrite Hr in Hlru.
  destruct (valid l).
  - rewrite Nat2Z.id, Hx in Hlru. by injection Hlru as ->.
  - apply lookup_lt_Some in Hx. lia.
Qed.

Lemma lru_inv_no_hit set assoc h t :
  rank_invariant set assoc -> lru_inv set h -> no_hit set t ->
  forall x, x ∈ take (Z.to_nat assoc) (recency h) -> x <> t.
Proof.
  intros Hinv Hlru Hno x Hx ->.
  apply elem_of_take in Hx as (p & Hp & Hlt).
  destruct (lru_inv_position set assoc h p t Hinv Hlru)
    as (k & l & Hk & _ & Hv & Ht);
    [lia | done |].
  apply (Hno l); [apply list_elem_of_lookup; eauto | done | done].
Qed.

Lemma Set_access_lru_inv set assoc t h :
  1 <= assoc <= 32768 -> rank_invariant set assoc -> lru_inv set h ->
  exists o k l set',
    selects set assoc t o k l /\
    Set_access set assoc t = Ok (o, set') /\
    map tag set'
    = (if o is Hit then map tag set else <[k := t]> (map tag set)) /\
    rank_invariant set' assoc /\ lru_inv set' (t :: h).
Proof.
  intros HE Hinv Hlru.
  destruct (Set_access_promotes set assoc t HE Hinv)
    as (o & k & l & Hsel & Heq & Hranks).
  destruct (Set_access_invariant set assoc t HE Hinv)
    as (o2 & set2 & Heq2 & Hinv2).
  rewrite Heq in Heq2. injection Heq2 as <- <-.
  eexists o, k, l, _. split; [done |]. split; [exact Heq |].
  pose proof Hsel as [Hk Hcase].
  pose proof (rank_invariant_short _ _ (proj2 HE) Hinv) as Hshort.
  assert (forall i li, set !! i = Some li -> 0 <= lru_cntr li < assoc)
    as Hrange.
  { intros i li Hi. apply (rank_invariant_range set); [done |].
    apply list_elem_of_lookup. eauto. }
  assert (forall i li, set !! i = Some li -> is_short (lru_cntr li)) as Hsh.
  { intros i li Hi. pose proof (Hrange i li Hi). unfold is_short. lia. }
  set (r0 := lru_cntr l) in *.
  pose proof (Hrange k l Hk) as Hr0. fold r0 in Hr0.
  split; [| split; [done |]].
  { (* tags *)
    change (tag <$> <[k := placed o t (update_line r0 l)]>
              (map (update_line r0) set) = 
            (if o is Hit then map tag set else <[k := t]> (map tag set))).
    rewrite list_fmap_insert, placed_tag, update_line_tag.
    change (tag <$> map (update_line r0) set)
      with (map tag (map (update_line r0) set)).
    rewrite map_map, (map_ext _ tag) by apply update_line_tag.
    destruct o; [| done | done].
    destruct Hcase as [_ Ht]. apply list_insert_id.
    by apply lookup_map_Some. }
  (* the recency list after the access *)
  set (R := recency h) in *.
  set (F := filter (fun x => x <> t) R).
  assert (match o with
          | Hit => R !! Z.to_nat r0 = Some t /\ F = delete (Z.to_nat r0) R
          | MissNoEvict => F = R /\ Z.of_nat (length R) <= r0
          | MissWithEvict =>
              (forall p, Z.of_nat p < assoc -> F !! p = R !! p) /\
              r0 = assoc - 1
          end) as HF.
  { destruct o; simpl in Hcase.
    - destruct Hcase as [Hv Ht]. pose proof (Hlru k l Hk) as Hl.
      rewrite Hv, Ht in Hl. split; [done |].
      apply filter_ne_delete; [apply recency_NoDup | done].
    - destruct Hcase as (Hno & Hv & _). pose proof (Hlru k l Hk) as Hl.
      rewrite Hv in Hl. change (Z.of_nat (length R) <= r0) in Hl.
      split; [| done].
      apply filter_id. intros x Hx.
      apply (lru_inv_no_hit set assoc h t Hinv Hlru Hno).
      fold R. rewrite take_ge; [done | lia].
    - destruct Hcase as (Hno & _ & Hr). split; [| done].
      intros p Hp. apply filter_prefix_lookup with (n := Z.to_nat assoc);
        [| lia].
      apply (lru_inv_no_hit set assoc h t Hinv Hlru Hno). }
  (* line by line *)
  intros i l' Hi. simpl. fold R. fold F.
  destruct (decide (i = k)) as [-> | Hik].
  - (* the line that was selected *)
    rewrite list_lookup_insert_eq in Hi.
    2:{ rewrite length_map. by apply lookup_lt_Some in Hk. }
    injection Hi as <-.
    rewrite placed_valid, placed_tag, placed_lru_cntr, update_line_valid,
      update_line_tag.
    rewrite update_line_lru_cntr by apply (Hsh k l Hk).
    unfold promote. rewrite Z.ltb_irrefl, Z.eqb_refl. simpl.
    destruct o; simpl in Hcase; [| done |].
    + destruct Hcase as [-> ->]. done.
    + destruct Hcase as (_ & Hall & _). rewrite Hall; [done |].
      apply list_elem_of_lookup. eauto.
  - (* the other lines *)
    rewrite list_lookup_insert_ne in Hi by done.
    change (map (update_line r0) set) with (update_line r0 <$> set) in Hi.
    rewrite list_lookup_fmap in Hi.
    destruct (set !! i) as [li |] eqn:Hli; [| done].
    injection Hi as <-.
    rewrite update_line_valid, update_line_tag.
    rewrite update_line_lru_cntr;
      [| apply (Hsh k l Hk) | apply (Hsh i li Hli)].
    pose proof (Hrange i li Hli) as Hr.
    assert (lru_cntr li <> r0) as Hne.
    { intros Heqr. apply Hik.
      by apply (rank_invariant_inj set assoc i k li l Hinv). }
    pose proof (Hlru i li Hli) as Hl. fold R in Hl.
    unfold promote.
    destruct (lru_cntr li <? r0) eqn:Hlt.
    + apply Z.ltb_lt in Hlt.
      replace (Z.to_nat (lru_cntr li + 1)) with (S (Z.to_nat (lru_cntr li)))
        by lia.
      destruct (valid li) eqn:Hv.
      * simpl. rewrite <- Hl. destruct o.
        -- destruct HF as [_ ->]. apply list_lookup_delete_lt. lia.
        -- by destruct HF as [-> _].
        -- destruct HF as [HF _]. apply HF. lia.
      * simpl. destruct o.
        -- destruct HF as [Ht _]. apply lookup_lt_Some in Ht. lia.
        -- destruct HF as [-> _]. lia.
        -- destruct Hcase as (_ & Hall & _). rewrite Hall in Hv; [done |].
           apply list_elem_of_lookup. eauto.
    + apply Z.ltb_ge in Hlt.
      destruct (lru_cntr li =? r0) eqn:Heqb; [apply Z.eqb_eq in Heqb; lia |].
      destruct (valid li) eqn:Hv.
      * replace (Z.to_nat (lru_cntr li))
          with (S (Z.to_nat (lru_cntr li) - 1)) at 1 by lia.
        simpl. rewrite <- Hl. destruct o.
        -- destruct HF as [_ ->].
           rewrite list_lookup_delete_ge by lia. f_equal. lia.
        -- destruct HF as [_ Hlen]. apply lookup_lt_Some in Hl. lia.
        -- destruct HF as [_ ->]. lia.
      * simpl. destruct o.
        -- destruct HF as [Ht ->]. rewrite length_delete by eauto.
           apply lookup_lt_Some in Ht. lia.
        -- destruct HF as [-> Hlen]. lia.
        -- destruct Hcase as (_ & Hall & _). rewrite Hall in Hv; [done |].
           apply list_elem_of_lookup. eauto.
Qed.

Lemma init_set_lru_inv assoc malloc_tag i :
  assoc <= 32768 -> lru_inv (init_set assoc malloc_tag i) [].
Proof.
  intros HE k l Hk. unfold init_set in Hk.
  change (map (init_line malloc_tag i) (seq 0 (Z.to_nat assoc)))
    with (init_line malloc_tag i <$> seq 0 (Z.to_nat assoc)) in Hk.
  rewrite list_lookup_fmap in Hk.
  destruct (seq 0 (Z.to_nat assoc) !! k) as [j |] eqn:Hj; [| done].
  injection Hk as <-. simpl.
  apply lookup_seq in Hj as [-> Hlt].
  rewrite to_short_id; [lia | unfold is_short; lia].
Qed.

Lemma Set_replay_app set assoc tags1 tags2 :
  Set_replay set assoc (tags1 ++ tags2)
  = (set' ← Set_replay set assoc tags1; Set_replay set' assoc tags2).
Proof.
  revert set. induction tags1 as [| t rest IH]; intros set; [done |].
  simpl. destruct (Set_access set assoc t) as [[o set'] | f]; simpl; [| done].
  apply IH.
Qed.

Lemma Set_replay_lru_inv set assoc tags h :
  1 <= assoc <= 32768 -> rank_invariant set assoc -> lru_inv set h ->
  exists set', Set_replay set assoc tags = Ok set' /\
    rank_invariant set' assoc /\ lru_inv set' (reverse tags ++ h).
Proof.
  intros HE. revert set h.
  induction tags as [| t rest IH]; intros set h Hinv Hlru.
  - by exists set.
  - destruct (Set_access_lru_inv set assoc t h HE Hinv Hlru)
      as (o & k & l & set1 & _ & Heq & _ & Hinv1 & Hlru1).
    destruct (IH set1 (t :: h) Hinv1 Hlru1) as (set' & Heq' & Hinv' & Hlru').
    exists set'. simpl. rewrite Heq. simpl.
    split; [done |]. split; [done |].
    by rewrite reverse_cons, <- app_assoc.
Qed.

(** *** Cyclic accesses *)

Lemma cycle_S ts n : cycle ts (S n) = cycle ts n ++ [cyclic ts n].
Proof. unfold cycle. by rewrite seq_S, map_app. Qed.

Lemma cycle_length ts n : length (cycle ts n) = n.
Proof. unfold cycle. by rewrite length_map, length_seq. Qed.

(** The history after [n] accesses, the latest first. *)
Lemma reverse_cycle_lookup ts n j :
  (j < n)%nat -> reverse (cycle ts n) !! j = Some (cyclic ts (n - 1 - j)).
Proof.
  revert j. induction n as [| n IH]; intros j Hj; [lia |].
  rewrite cycle_S, reverse_app. simpl.
  destruct j as [| j]; simpl.
  - f_equal. f_equal. lia.
  - rewrite IH by lia. f_equal. f_equal. lia.
Qed.

(** Two accesses less than a whole round apart are to different tags. *)
Lemma cyclic_distinct ts i j :
  NoDup ts -> (i < j)%nat -> (j - i < length ts)%nat ->
  cyclic ts i <> cyclic ts j.
Proof.
  intros Hnd Hij Hlen Heq. unfold cyclic in Heq.
  assert (length ts <> 0)%nat as Hpos by lia.
  assert (i mod length ts = j mod length ts)%nat as Hmod.
  { apply NoDup_ListNoDup in Hnd.
    apply (proj1 (NoDup_nth ts 0) Hnd); [| | done];
      apply Nat.mod_upper_bound; done. }
  pose proof (Nat.div_mod_eq i (length ts)) as Hi.
  pose proof (Nat.div_mod_eq j (length ts)) as Hj.
  pose proof (Nat.mod_upper_bound i (length ts) Hpos) as Hbi.
  rewrite Hmod in Hi.
  assert (i / length ts < j / length ts)%nat as Hq by nia.
  nia.
Qed.

(** While the tags of any [E + 1] successive accesses are distinct, the
    first [E] entries of the recency list are the last [E] accesses. *)
Lemma recency_cycle ts (E n : nat) :
  NoDup ts -> length ts = S E ->
  take E (recency (reverse (cycle ts n))) = take E (reverse (cycle ts n)).
Proof.
  intros Hnd Hlen. induction n as [| n IH]; [done |].
  rewrite cycle_S, reverse_app. simpl.
  destruct E as [| E]; [done |]. simpl. f_equal.
  assert (take E (recency (reverse (cycle ts n)))
          = take E (reverse (cycle ts n))) as IH'.
  { rewrite <- (Nat.min_l E (S E)) by lia.
    by rewrite <- !take_take, IH. }
  rewrite filter_prefix; [exact IH' |].
  intros x Hx. rewrite IH' in Hx.
  apply elem_of_take in Hx as (j & Hj & Hlt).
  assert (j < n)%nat as Hjn.
  { apply lookup_lt_Some in Hj. by rewrite length_reverse, cycle_length in Hj. }
  rewrite reverse_cycle_lookup in Hj by done. injection Hj as <-.
  apply (cyclic_distinct ts (n - 1 - j) n); [done | lia | lia].
Qed.

(** LRU thrashing.  With at least one and at most 32768 lines in the set
    (the ranks are C [short]s), and [assoc + 1] distinct tags accessed in
    turn from the empty set:
    the first [n] accesses, for any [n] of at least one full round, leave a
    set whose lines are all valid, and the next access (the access number
    [n], counting from 0) is a [MissWithEvict]; it overwrites the tag of one
    line [k] and of no other; the tag that line held is the tag accessed
    [assoc] accesses earlier, and every other line holds a tag that was
    accessed more recently than it. *)
Theorem LRU_thrashing (assoc : Z) (malloc_tag : nat -> nat -> Z) (i0 : nat)
    (ts : list Z) (n : nat) :
  1 <= assoc <= 32768 -> NoDup ts -> Z.of_nat (length ts) = assoc + 1 ->
  (length ts <= n)%nat ->
  exists set,
    Set_replay (init_set assoc malloc_tag i0) assoc (cycle ts n) = Ok set /\
    exists set' k l,
      Set_access set assoc (cyclic ts n) = Ok (MissWithEvict, set') /\
      set !! k = Some l /\
      map tag set' = <[k := cyclic ts n]> (map tag set) /\
      tag l = cyclic ts (n - Z.to_nat assoc) /\
      forall k' l', set !! k' = Some l' ->
        valid l' = true /\
        (k' <> k -> more_recent (reverse (cycle ts n)) (tag l') (tag l)).
Proof.
  intros HE Hnd Hlen Hn.
  destruct (Set_replay_lru_inv (init_set assoc malloc_tag i0) assoc
              (cycle ts n) [] HE) as (set & Hrun & Hinv & Hlru).
  { unfold rank_invariant. rewrite init_set_ranks; [done | lia]. }
  { apply init_set_lru_inv. lia. }
  rewrite app_nil_r in Hlru.
  exists set. split; [done |].
  set (E := Z.to_nat assoc).
  set (H := reverse (cycle ts n)) in *.
  assert (forall p, (p < E)%nat ->
            recency H !! p = Some (cyclic ts (n - 1 - p))) as HR.
  { intros p Hp.
    rewrite <- (lookup_take_lt (recency H) E p) by done.
    unfold H. rewrite (recency_cycle ts E n Hnd) by lia.
    rewrite lookup_take_lt by done. apply reverse_cycle_lookup. lia. }
  assert (forall k' l', set !! k' = Some l' ->
            valid l' = true /\ (Z.to_nat (lru_cntr l') < E)%nat /\
            tag l' = cyclic ts (n - 1 - Z.to_nat (lru_cntr l'))) as Hlines.
  { intros k' l' Hk'.
    assert (0 <= lru_cntr l' < assoc) as Hr.
    { apply (rank_invariant_range set); [done |].
      apply list_elem_of_lookup. eauto. }
    pose proof (Hlru k' l' Hk') as Hl.
    pose proof (HR (Z.to_nat (lru_cntr l'))) as HRl.
    destruct (valid l').
    - split; [done |]. split; [lia |].
      rewrite HRl in Hl by lia. by injection Hl as <-.
    - assert (E - 1 < length (recency H))%nat as Hlt.
      { apply (lookup_lt_Some _ _ (cyclic ts (n - 1 - (E - 1)))), HR. lia. }
      lia. }
  assert (no_hit set (cyclic ts n)) as Hno.
  { intros l' Hl' _ Ht. apply list_elem_of_lookup in Hl' as [k' Hk'].
    destruct (Hlines k' l' Hk') as (_ & Hlt & Htag).
    rewrite Htag in Ht.
    by apply (cyclic_distinct ts (n - 1 - Z.to_nat (lru_cntr l')) n) in Ht;
      [| | lia | lia]. }
  destruct (Set_access_lru_inv set assoc (cyclic ts n) H HE Hinv Hlru)
    as (o & k & l & set' & [Hk Hcase] & Heq & Htags & _ & _).
  destruct o; simpl in Hcase.
  { destruct Hcase as [Hv Ht]. exfalso.
    apply (Hno l); [apply list_elem_of_lookup; eauto | done | done]. }
  { destruct Hcase as (_ & Hv & _).
    destruct (Hlines k l Hk) as (Hv' & _). by rewrite Hv in Hv'. }
  destruct Hcase as (_ & _ & Hr).
  exists set', k, l. split; [done |]. split; [done |]. split; [done |].
  destruct (Hlines k l Hk) as (_ & _ & Htag).
  split.
  { rewrite Htag. f_equal. rewrite Hr. fold E. lia. }
  intros k' l' Hk'. destruct (Hlines k' l' Hk') as (Hv' & Hlt' & Htag').
  split; [done |]. intros Hne.
  assert (lru_cntr l' <> lru_cntr l) as Hrne.
  { intros Heqr. apply Hne.
    by apply (rank_invariant_inj set assoc k' k l' l Hinv). }
  apply (recency_sorted H (Z.to_nat (lru_cntr l')) (Z.to_nat (lru_cntr l))).
  - rewrite HR by done. by rewrite Htag'.
  - rewrite HR by (rewrite Hr; fold E; lia). by rewrite Htag.
  - assert (0 <= lru_cntr l') as Hpos.
    { apply (rank_invariant_range set assoc l' Hinv).
      apply list_elem_of_lookup. eauto. }
    fold E in Hlt'. lia.
Qed.

Lemma LRU_thrashing_witness :
  (1 <= 2 <= 32768 /\ NoDup [10; 20; 30] /\
   Z.of_nat (length [10; 20; 30]) = 2 + 1 /\
   (length [10; 20; 30] <= 4)%nat) /\
  exists set,
    Set_replay (init_set 2 (fun _ _ => 0) 0) 2 (cycle [10; 20; 30] 4)
    = Ok set /\
    exists set' k l,
      Set_access set 2 (cyclic [10; 20; 30] 4) = Ok (MissWithEvict, set') /\
      set !! k = Some l /\
      map tag set' = <[k := cyclic [10; 20; 30] 4]> (map tag set) /\
      tag l = cyclic [10; 20; 30] (4 - Z.to_nat 2) /\
      forall k' l', set !! k' = Some l' ->
        valid l' = true /\
        (k' <> k ->
         more_recent (reverse (cycle [10; 20; 30] 4)) (tag l') (tag l)).
Proof.
  assert (1 <= 2 <= 32768 /\ NoDup [10; 20; 30] /\
          Z.of_nat (length [10; 20; 30]) = 2 + 1 /\
          (length [10; 20; 30] <= 4)%nat) as H.
  { split; [lia |]. split; [| split; [reflexivity | simpl; lia]].
    apply (bool_decide_unpack _). vm_compute. exact I. }
  split; [exact H |].
  exact (LRU_thrashing 2 (fun _ _ => 0) 0 [10; 20; 30] 4
           (proj1 H) (proj1 (proj2 H)) (proj1 (proj2 (proj2 H)))
           (proj2 (proj2 (proj2 H)))).
Defined.

(** The same run, evaluated: after the accesses 10, 20, 30, 10 the set holds
    30 and 10, and the access to 20 evicts 30, the older of the two. *)
Example thrashing_run_example :
  Set_replay (init_set 2 (fun _ _ => 0) 0) 2 (cycle [10; 20; 30] 4)
  = Ok [mk_line 30 true 1; mk_line 10 true 0] /\
  Set_access [mk_line 30 true 1; mk_line 10 true 0] 2
    (cyclic [10; 20; 30] 4)
  = Ok (MissWithEvict, [mk_line 20 true 0; mk_line 10 true 1]).
Proof. split; reflexivity. Qed.

(** ** The assertion of the eviction branch *)

Lemma find_slot_full_max set assoc m p :
  1 <= assoc -> rank_invariant set assoc ->
  find_slot set 0 (-1) None = FullSet m p ->
  m = assoc - 1 /\
  exists k l, p = Some k /\ set !! k = Some l /\ lru_cntr l = assoc - 1.
Proof.
  intros HE Hinv Hslot.
  destruct (find_slot_FullSet _ _ _ _ _ _ Hslot) as (Hall & Hle & Hcase).
  destruct (rank_invariant_has set assoc (assoc - 1) Hinv)
    as (k0 & l0 & Hk0 & Hr0); [lia |].
  assert (l0 ∈ set) as Hin0 by (apply list_elem_of_lookup; eauto).
  destruct (Hall l0 Hin0) as [_ Hmax].
  destruct Hcase as [[-> ->] | (Hlt & j & l & -> & Hj & Hl)]; [lia |].
  assert (l ∈ set) as Hin by (apply list_elem_of_lookup; eauto).
  pose proof (rank_invariant_range _ _ _ Hinv Hin) as Hr.
  assert (m = assoc - 1) as -> by lia.
  split; [done |]. exists j, l. done.
Qed.

(** With at least one and at most 32768 lines per set (the ranks are C
    [short]s) and shifts that C defines, the run of any trace reaches a
    cache in which, for every set and
    every tag that takes [cache_lookup] to its eviction branch (no valid
    line holds the tag and the scan for an empty slot finds none), the
    maximum rank found by the scan is [assoc - 1]: the assertion holds and
    [cache_lookup] returns the line to replace. *)
Theorem eviction_assertion_holds (s b assoc : Z)
    (malloc_tag : nat -> nat -> Z) (trace : list scan) :
  0 <= s <= 30 -> 0 <= b -> s + b <= 63 -> 1 <= assoc <= 32768 ->
  exists st, replay s b assoc trace (init s assoc malloc_tag) = Ok st /\
    forall set t max_lru_cntr lru_line,
      set ∈ cache st ->
      find_hit (take (Z.to_nat assoc) set) t = None ->
      find_slot (take (Z.to_nat assoc) set) 0 (-1) None
        = FullSet max_lru_cntr lru_line ->
      max_lru_cntr = assoc - 1 /\
      exists k set', cache_lookup set assoc t = Ok (Some k, set').
Proof.
  intros [Hs _] _ _ HE.
  destruct (replay_invariant s b assoc trace (init s assoc malloc_tag))
    as (st & Heq & Hlen & Hall); [done | done | |].
  { apply init_invariant. lia. }
  exists st. split; [done |].
  intros set t m p Hset Hhit Hslot.
  rewrite Forall_forall in Hall. pose proof (Hall set Hset) as Hinv.
  pose proof (rank_invariant_length _ _ Hinv) as Hlenset.
  unfold cache_lookup. rewrite Hhit, Hslot.
  rewrite take_ge in Hslot by lia.
  destruct (find_slot_full_max set assoc m p (proj1 HE) Hinv Hslot)
    as (-> & k & l & -> & _).
  split; [done |]. rewrite Z.eqb_refl. eauto.
Qed.

Lemma eviction_assertion_holds_witness :
  (0 <= 0 <= 30 /\ 0 <= 0 /\ 0 + 0 <= 63 /\ 1 <= 2 <= 32768) /\
  exists st,
    replay 0 0 2 [L 1; L 2; L 1] (init 0 2 (fun _ _ => 0)) = Ok st /\
    forall set t max_lru_cntr lru_line,
      set ∈ cache st ->
      find_hit (take (Z.to_nat 2) set) t = None ->
      find_slot (take (Z.to_nat 2) set) 0 (-1) None
        = FullSet max_lru_cntr lru_line ->
      max_lru_cntr = 2 - 1 /\
      exists k set', cache_lookup set 2 t = Ok (Some k, set').
Proof.
  assert (0 <= 0 <= 30 /\ 0 <= 0 /\ 0 + 0 <= 63 /\ 1 <= 2 <= 32768) as H
    by lia.
  split; [exact H |].
  exact (eviction_assertion_holds 0 0 2 (fun _ _ => 0) [L 1; L 2; L 1]
           (proj1 H) (proj1 (proj2 H)) (proj1 (proj2 (proj2 H)))
           (proj2 (proj2 (proj2 H)))).
Defined.

(** ** A set of 32769 lines *)

(** The two branches of an access that do not need the rank invariant. *)
Lemma Set_access_fill set assoc t k l :
  length set = Z.to_nat assoc -> no_hit set t ->
  set !! k = Some l -> valid l = false ->
  (forall j l', (j < k)%nat -> set !! j = Some l' -> valid l' = true) ->
  Set_access set assoc t =
    Ok (MissNoEvict,
        <[k := placed MissNoEvict t (update_line (lru_cntr l) l)]>
          (map (update_line (lru_cntr l)) set)).
Proof.
  intros Hlen Hno Hk Hv Hfirst.
  unfold Set_access, cache_lookup. rewrite take_ge by lia.
  destruct (find_hit set t) as [l' |] eqn:Hhit.
  { destruct (find_hit_Some _ _ _ Hhit) as (k' & Hk' & Hv' & Ht').
    destruct (Hno l'); [apply list_elem_of_lookup; eauto | done | done]. }
  destruct (find_slot set 0 (-1) None) as [k' l' | m p] eqn:Hslot.
  - destruct (find_slot_EmptySlot _ _ _ _ _ _ Hslot)
      as (j & -> & Hj & Hvj & Hbefore). simpl.
    assert (j = k) as ->.
    { destruct (Nat.lt_trichotomy j k) as [Hlt | [-> | Hgt]]; [| done |].
      - rewrite (Hfirst j l' Hlt Hj) in Hvj. done.
      - rewrite (Hbefore k l Hgt Hk) in Hv. done. }
    rewrite Hk in Hj. injection Hj as <-.
    rewrite update_lru_cntr_whole by done.
    rewrite (lookup_map_Some _ _ _ _ Hk).
    by rewrite update_line_valid, Hv.
  - destruct (find_slot_FullSet _ _ _ _ _ _ Hslot) as (Hall & _).
    destruct (Hall l) as [Hvl _]; [apply list_elem_of_lookup; eauto |].
    by rewrite Hv in Hvl.
Qed.

Lemma Set_access_assert set assoc t :
  length set = Z.to_nat assoc -> 1 <= assoc -> no_hit set t ->
  (forall l, l ∈ set -> valid l = true /\ lru_cntr l <> assoc - 1) ->
  Set_access set assoc t = Fault assertion_failed.
Proof.
  intros Hlen HE Hno Hall.
  unfold Set_access, cache_lookup. rewrite take_ge by lia.
  destruct (find_hit set t) as [l' |] eqn:Hhit.
  { destruct (find_hit_Some _ _ _ Hhit) as (k' & Hk' & Hv' & Ht').
    destruct (Hno l'); [apply list_elem_of_lookup; eauto | done | done]. }
  destruct (find_slot set 0 (-1) None) as [k' l' | m p] eqn:Hslot.
  - destruct (find_slot_EmptySlot _ _ _ _ _ _ Hslot)
      as (j & -> & Hj & Hvj & _).
    destruct (Hall l') as [Hv _]; [apply list_elem_of_lookup; eauto |].
    by rewrite Hvj in Hv.
  - destruct (find_slot_FullSet _ _ _ _ _ _ Hslot) as (_ & _ & Hcase).
    assert (m <> assoc - 1) as Hm.
    { destruct Hcase as [[-> _] | (_ & j & l & _ & Hj & <-)]; [lia |].
      apply (Hall l), list_elem_of_lookup. eauto. }
    apply Z.eqb_neq in Hm. by rewrite Hm.
Qed.

Lemma to_short_32768 : to_short 32768 = -32768.
Proof. reflexivity. Qed.

Lemma filled_init malloc_tag i0 : filled 0 (init_set 32769 malloc_tag i0).
Proof.
  split.
  - unfold init_set. by rewrite length_map, length_seq.
  - intros i l Hi. unfold init_set in Hi.
    change (map (init_line malloc_tag i0) (seq 0 (Z.to_nat 32769)))
      with (init_line malloc_tag i0 <$> seq 0 (Z.to_nat 32769)) in Hi.
    rewrite list_lookup_fmap in Hi.
    destruct (seq 0 (Z.to_nat 32769) !! i) as [j |] eqn:Hj; [| done].
    apply lookup_seq in Hj as [-> Hlt]. injection Hi as <-.
    unfold init_line, valid, lru_cntr, tag.
    split; [lia |]. split.
    + intros Hr. split; [done |].
      apply to_short_id. unfold is_short. lia.
    + intros Hr. split; [done |]. rewrite Hr.
      apply to_short_32768.
Qed.

Lemma filled_lookup k set (i : nat) :
  filled k set -> Z.of_nat i < 32769 -> exists l, set !! i = Some l.
Proof.
  intros [Hlen _] Hi. apply lookup_lt_is_Some_2. lia.
Qed.

Lemma filled_index k set (i : nat) l :
  filled k set -> set !! i = Some l -> Z.of_nat i <= 32768.
Proof.
  intros [Hlen _] Hi. apply lookup_lt_Some in Hi. lia.
Qed.

Lemma filled_no_hit k set t :
  filled k set -> k <= 32768 -> k <= t -> no_hit set t.
Proof.
  intros Hf Hk Ht l Hl Hv Htag.
  apply list_elem_of_lookup in Hl as [i Hi].
  pose proof (filled_index _ _ _ _ Hf Hi) as Hle.
  destruct Hf as [_ Hf]. destruct (Hf i l Hi) as (H1 & H2 & H3).
  destruct (Z_lt_ge_dec (Z.of_nat i) k) as [Hlt | Hge].
  - destruct (H1 Hlt) as (_ & Hti & _). lia.
  - destruct (Z.eq_dec (Z.of_nat i) 32768) as [Heq | Hne].
    + destruct (H3 Heq) as [Hv' _]. by rewrite Hv in Hv'.
    + destruct H2 as [Hv' _]; [lia |]. by rewrite Hv in Hv'.
Qed.

Lemma promote_cases r0 r :
  promote r0 r = (if r <? r0 then r + 1 else if r =? r0 then 0 else r).
Proof. reflexivity. Qed.

Lemma filled_step k set :
  0 <= k < 32768 -> filled k set ->
  exists set',
    Set_access set 32769 k = Ok (MissNoEvict, set') /\ filled (k + 1) set'.
Proof.
  intros Hk Hf.
  destruct (filled_lookup k set (Z.to_nat k) Hf) as [l Hl]; [lia |].
  pose proof Hf as [Hlen Hlines].
  destruct (Hlines _ _ Hl) as (_ & Hl2 & _).
  destruct Hl2 as [Hv Hr]; [lia |]. rewrite Z2Nat.id in Hr by lia.
  eexists. split.
  { apply (Set_access_fill set 32769 k (Z.to_nat k) l);
      [done | | done | done |].
    - apply (filled_no_hit k); [done | lia | lia].
    - intros j l' Hj Hl'. destruct (Hlines _ _ Hl') as (H1 & _).
      destruct H1 as (Hv' & _); [lia | done]. }
  rewrite Hr. split; [by rewrite length_insert, length_map |].
  intros i l'' Hi.
  destruct (decide (i = Z.to_nat k)) as [-> | Hne].
  - rewrite list_lookup_insert_eq in Hi
      by (rewrite length_map; by apply lookup_lt_Some in Hl).
    injection Hi as <-.
    change (set_tag (set_valid (update_line k l) true) k)
      with (placed MissNoEvict k (update_line k l)).
    rewrite placed_valid, placed_tag, placed_lru_cntr.
    rewrite update_line_lru_cntr, promote_cases, Hr
      by (unfold is_short; lia).
    rewrite Z.ltb_irrefl, Z.eqb_refl.
    split; [intros _; split; [done |]; lia |]. split; intros ?; lia.
  - rewrite list_lookup_insert_ne in Hi by done.
    change (map (update_line k) set) with (update_line k <$> set) in Hi.
    rewrite list_lookup_fmap in Hi.
    destruct (set !! i) as [li |] eqn:Hli; [| done]. injection Hi as <-.
    pose proof (filled_index _ _ _ _ Hf Hli) as Hle.
    destruct (Hlines _ _ Hli) as (H1 & H2 & H3).
    rewrite update_line_valid, update_line_tag.
    destruct (Z_lt_ge_dec (Z.of_nat i) k) as [Hlt | Hge].
    + destruct (H1 Hlt) as (Hv' & Ht' & Hr').
      rewrite update_line_lru_cntr, promote_cases, Hr'
        by (unfold is_short; lia).
      destruct (k - 1 - Z.of_nat i <? k) eqn:E; [| apply Z.ltb_ge in E; lia].
      split; [intros _; split; [done |]; lia |]. split; intros ?; lia.
    + destruct (Z.eq_dec (Z.of_nat i) 32768) as [Heq | Hne'].
      * destruct (H3 Heq) as [Hv' Hr'].
        rewrite update_line_lru_cntr, promote_cases, Hr'
          by (unfold is_short; lia).
        destruct (k - 32768 <? k) eqn:E; [| apply Z.ltb_ge in E; lia].
        split; [intros ?; lia |]. split; [intros ?; lia |].
        intros _. split; [done | lia].
      * destruct H2 as [Hv' Hr']; [lia |].
        rewrite update_line_lru_cntr, promote_cases, Hr'
          by (unfold is_short; lia).
        destruct (Z.of_nat i <? k) eqn:E; [apply Z.ltb_lt in E; lia |].
        destruct (Z.of_nat i =? k) eqn:E'; [apply Z.eqb_eq in E'; lia |].
        split; [intros ?; lia |]. split; [| intros ?; lia].
        intros _. split; [done | lia].
Qed.

Lemma filled_last set :
  filled 32768 set ->
  exists set',
    Set_access set 32769 32768 = Ok (MissNoEvict, set') /\
    full_without_last_rank set'.
Proof.
  intros Hf.
  destruct (filled_lookup 32768 set (Z.to_nat 32768) Hf) as [l Hl]; [lia |].
  pose proof Hf as [Hlen Hlines].
  destruct (Hlines _ _ Hl) as (_ & _ & Hl3).
  destruct Hl3 as [Hv Hr]; [lia |]. change (32768 - 32768) with 0 in Hr.
  eexists. split.
  { apply (Set_access_fill set 32769 32768 (Z.to_nat 32768) l);
      [done | | done | done |].
    - apply (filled_no_hit 32768); [done | lia | lia].
    - intros j l' Hj Hl'. destruct (Hlines _ _ Hl') as (H1 & _).
      destruct H1 as (Hv' & _); [lia | done]. }
  rewrite Hr. split; [by rewrite length_insert, length_map |].
  intros l'' Hin. apply list_elem_of_lookup in Hin as [i Hi].
  destruct (decide (i = Z.to_nat 32768)) as [-> | Hne].
  - rewrite list_lookup_insert_eq in Hi
      by (rewrite length_map; by apply lookup_lt_Some in Hl).
    injection Hi as Heql. subst l''.
    try change (set_tag (set_valid (update_line 0 l) true) 32768)
      with (placed MissNoEvict 32768 (update_line 0 l)).
    rewrite placed_valid, placed_tag, placed_lru_cntr.
    rewrite update_line_lru_cntr, promote_cases, Hr
      by (unfold is_short; lia).
    rewrite Z.ltb_irrefl, Z.eqb_refl. split; [done | lia].
  - rewrite list_lookup_insert_ne in Hi by done.
    change (map (update_line 0) set) with (update_line 0 <$> set) in Hi.
    rewrite list_lookup_fmap in Hi.
    destruct (set !! i) as [li |] eqn:Hli; [| done].
    injection Hi as Heql. subst l''.
    pose proof (filled_index _ _ _ _ Hf Hli) as Hle.
    destruct (Hlines _ _ Hli) as (H1 & _).
    destruct H1 as (Hv' & Ht' & Hr'); [lia |].
    rewrite update_line_valid, update_line_tag.
    rewrite update_line_lru_cntr, promote_cases, Hr'
      by (unfold is_short; lia).
    split; [done |]. split; [lia |].
    destruct (32768 - 1 - Z.of_nat i <? 0) eqn:E; [apply Z.ltb_lt in E; lia |].
    destruct (32768 - 1 - Z.of_nat i =? 0); lia.
Qed.

Lemma full_without_last_rank_assert set :
  full_without_last_rank set ->
  Set_access set 32769 32769 = Fault assertion_failed.
Proof.
  intros [Hlen Hall]. apply Set_access_assert; [done | lia | |].
  - intros l Hl _ Ht. destruct (Hall l Hl) as (_ & Htag & _). lia.
  - intros l Hl. destruct (Hall l Hl) as (Hv & _ & Hr). split; [done | lia].
Qed.

Lemma filled_run (d : nat) (k : Z) set :
  k = 32768 - Z.of_nat d -> 0 <= k -> filled k set ->
  Set_replay set 32769 (seqZ k (32770 - k)) = Fault assertion_failed.
Proof.
  revert k set. induction d as [| d IH]; intros k set Hk Hpos Hf.
  - assert (k = 32768) as -> by lia.
    change (seqZ 32768 (32770 - 32768)) with [32768; 32769].
    destruct (filled_last set Hf) as (set' & Heq & Hfull). simpl.
    rewrite Heq. simpl. by rewrite (full_without_last_rank_assert set').
  - rewrite seqZ_cons by lia.
    destruct (filled_step k set) as (set' & Heq & Hf'); [lia | done |].
    simpl. rewrite Heq. simpl.
    replace (Z.succ k) with (k + 1) by lia.
    replace (Z.pred (32770 - k)) with (32770 - (k + 1)) by lia.
    apply IH; [lia | lia | done].
Qed.

(** With 32769 lines, the accesses to the tags 0, ..., 32769 end in the
    failure of the assertion. *)
Lemma Set_replay_32769 malloc_tag i0 :
  Set_replay (init_set 32769 malloc_tag i0) 32769 (seqZ 0 32770)
  = Fault assertion_failed.
Proof.
  apply (filled_run (Z.to_nat 32768) 0); [lia | lia | apply filled_init].
Qed.

Lemma cycle_first_round ts : cycle ts (length ts) = ts.
Proof.
  apply list_eq. intros i. unfold cycle.
  change (map (cyclic ts) (seq 0 (length ts)))
    with (cyclic ts <$> seq 0 (length ts)).
  rewrite list_lookup_fmap.
  destruct (decide (i < length ts)%nat) as [Hlt | Hge].
  - rewrite lookup_seq_lt by done. simpl. unfold cyclic.
    rewrite Nat.mod_small by done.
    destruct (lookup_lt_is_Some_2 ts i Hlt) as [x Hx].
    rewrite Hx. f_equal. by apply nth_lookup_Some.
  - rewrite lookup_seq_ge by lia. simpl.
    symmetry. apply lookup_ge_None. lia.
Qed.

(** Claim C5, with 32769 lines in the set and the 32770 distinct tags 0,
    ..., 32769 accessed in turn.  The first round of accesses already ends
    in the failure of the assertion of line 163: no access after the first
    round has an outcome, where the claim has a miss with the eviction of
    the least recently used tag. *)
Lemma first_round_aborts_32769 :
  NoDup (seqZ 0 32770) /\
  Z.of_nat (length (seqZ 0 32770)) = 32769 + 1 /\
  Set_replay (init_set 32769 (fun _ _ => 0) 0) 32769
    (cycle (seqZ 0 32770) (length (seqZ 0 32770)))
  = Fault assertion_failed /\
  ~ exists set set',
      Set_replay (init_set 32769 (fun _ _ => 0) 0) 32769
        (cycle (seqZ 0 32770) (length (seqZ 0 32770))) = Ok set /\
      Set_access set 32769 (cyclic (seqZ 0 32770) (length (seqZ 0 32770)))
      = Ok (MissWithEvict, set').
Proof.
  assert (Set_replay (init_set 32769 (fun _ _ => 0) 0) 32769
            (cycle (seqZ 0 32770) (length (seqZ 0 32770)))
          = Fault assertion_failed) as Hrun.
  { rewrite cycle_first_round. apply Set_replay_32769. }
  split; [apply NoDup_seqZ |]. split; [rewrite length_seqZ; lia |].
  split; [exact Hrun |].
  intros (set & set' & Hok & _). rewrite Hrun in Hok. discriminate.
Qed.

(** The run of the program on one set: a fault of the accesses to the set
    is a fault of the replay. *)
Lemma loop_body_one_set assoc set h m e t :
  loop_body 0 0 assoc (mk_sim [set] h m e) "L" t
  = ('(o, set') ← Set_access set assoc t;
     Ok (count o (mk_sim [set] h m e) [set'])).
Proof.
  unfold loop_body, decode.
  change (Ascii.eqb "L" "I") with false.
  change (Ascii.eqb "L" "M") with false. cbv iota.
  change (INDEX_MASK 0) with 0. change (0 + 0) with 0.
  rewrite Z.shiftr_0_r, Z.land_0_r.
  change (array_get (cache (mk_sim [set] h m e)) 0) with (Ok set).
  change (Ok set ≫= ?k) with (k set). cbv beta.
  destruct (Set_access set assoc t) as [[o set'] | f']; reflexivity.
Qed.

Lemma replay_cons s b assoc e rest st :
  replay s b assoc (e :: rest) st
  = (if items e =? 2 then
       st' ← loop_body s b assoc st (access_type e) (address e);
       replay s b assoc rest st'
     else Ok st).
Proof. reflexivity. Qed.

Lemma replay_one_set_fault assoc tags set h m e f :
  Set_replay set assoc tags = Fault f ->
  replay 0 0 assoc (map L tags) (mk_sim [set] h m e) = Fault f.
Proof.
  revert set h m e. induction tags as [| t rest IH]; intros set h m e Hrun;
    [done |].
  simpl in Hrun. simpl map. rewrite replay_cons.
  change (items (L t) =? 2) with true. cbv iota.
  change (access_type (L t)) with "L"%char.
  change (address (L t)) with t.
  rewrite loop_body_one_set.
  destruct (Set_access set assoc t) as [[o set'] | f'].
  - simpl in Hrun. destruct o; apply (IH set' _ _ _ Hrun).
  - simpl in Hrun. injection Hrun as ->. reflexivity.
Qed.

Lemma init_one_set assoc malloc_tag :
  init 0 assoc malloc_tag = mk_sim [init_set assoc malloc_tag 0] 0 0 0.
Proof. reflexivity. Qed.

(** Claim C6, on the command line [-s 0 -E 32769 -b 0].  The trace that
    loads the 32770 blocks 0, ..., 32769 into the single set of the cache
    reaches the eviction branch with a maximum rank of 32767, not 32768: the
    assertion of line 163 fails and the run is aborted. *)
Lemma assertion_fails_32769 :
  main 0 0 32769 (fun _ _ => 0) (map L (seqZ 0 32770))
  = Fault assertion_failed.
Proof.
  unfold main.
  rewrite (init_one_set 32769 (fun _ _ => 0)).
  rewrite (replay_one_set_fault 32769 (seqZ 0 32770)
             (init_set 32769 (fun _ _ => 0) 0) 0 0 0 assertion_failed
             (Set_replay_32769 _ _)).
  reflexivity.
Qed.

(** * Further properties *)

(** ** What an access never does *)

(** An access changes neither the number of lines of the set nor a valid
    line into one that is not: this needs no invariant of the set. *)
Theorem Set_access_keeps_valid (set : list cache_line) (assoc t : Z)
    (o : Outcome) (set' : list cache_line) :
  Set_access set assoc t = Ok (o, set') ->
  length set' = length set /\
  forall i l, set !! i = Some l -> valid l = true ->
    exists l', set' !! i = Some l' /\ valid l' = true.
Proof.
  intros Hacc.
  assert (forall r set1 (k : option nat),
            set1 = update_lru_cntr set assoc r ->
            (match k with
             | None => Ok (Hit, set1)
             | Some i =>
                 match set1 !! i with
                 | None => Fault out_of_bounds
                 | Some l =>
                     if valid l
                     then Ok (MissWithEvict, <[i := set_tag l t]> set1)
                     else Ok (MissNoEvict,
                              <[i := set_tag (set_valid l true) t]> set1)
                 end
             end) = Ok (o, set') ->
            length set' = length set /\
            forall i l, set !! i = Some l -> valid l = true ->
              exists l', set' !! i = Some l' /\ valid l' = true) as Hgen.
  { intros r set1 k -> Hres.
    assert (forall i l, set !! i = Some l -> valid l = true ->
              exists l', update_lru_cntr set assoc r !! i = Some l' /\
                         valid l' = true) as Hupd.
    { intros i l Hi Hv.
      pose proof (update_lru_cntr_valids set assoc r) as Hvs.
      assert (map valid (update_lru_cntr set assoc r) !! i = Some true)
        as Hi'.
      { rewrite Hvs. rewrite <- Hv. by apply lookup_map_Some. }
      change ((valid <$> update_lru_cntr set assoc r) !! i = Some true)
        in Hi'.
      rewrite list_lookup_fmap in Hi'.
      destruct (update_lru_cntr set assoc r !! i) as [l' |]; [| done].
      exists l'. split; [done |]. by injection Hi'. }
    destruct k as [k |].
    - destruct (update_lru_cntr set assoc r !! k) as [lk |] eqn:Hk;
        [| done].
      assert (forall y, valid y = true ->
                length (<[k := y]> (update_lru_cntr set assoc r))
                = length set /\
                forall i l, set !! i = Some l -> valid l = true ->
                  exists l', <[k := y]> (update_lru_cntr set assoc r) !! i
                             = Some l' /\ valid l' = true) as Hins.
      { intros y Hy. split.
        - by rewrite length_insert, update_lru_cntr_length.
        - intros i l Hi Hv. destruct (Hupd i l Hi Hv) as (l' & Hl' & Hv').
          destruct (decide (k = i)) as [-> | Hne].
          + exists y. split; [| done]. apply list_lookup_insert_eq.
            by apply lookup_lt_Some in Hl'.
          + exists l'. by rewrite list_lookup_insert_ne. }
      destruct (valid lk) eqn:Hvk; injection Hres as <- <-.
      + by apply Hins.
      + by apply Hins.
    - injection Hres as <- <-. split; [apply update_lru_cntr_length | done]. }
  unfold Set_access, cache_lookup in Hacc.
  destruct (find_hit (take (Z.to_nat assoc) set) t) as [l |].
  - exact (Hgen (lru_cntr l) _ None eq_refl Hacc).
  - destruct (find_slot (take (Z.to_nat assoc) set) 0 (-1) None)
      as [k l | m p].
    + exact (Hgen (lru_cntr l) _ (Some k) eq_refl Hacc).
    + destruct (m =? assoc - 1); [| done].
      destruct p as [k |]; [| done].
      exact (Hgen (to_short (assoc - 1)) _ (Some k) eq_refl Hacc).
Qed.

Lemma Set_access_keeps_valid_witness :
  Set_access set_C1 3 7
  = Ok (MissNoEvict,
        [mk_line 5 true 1; mk_line 7 true 0; mk_line 9 true 2]) /\
  length [mk_line 5 true 1; mk_line 7 true 0; mk_line 9 true 2]
  = length set_C1 /\
  forall i l, set_C1 !! i = Some l -> valid l = true ->
    exists l', [mk_line 5 true 1; mk_line 7 true 0; mk_line 9 true 2] !! i
               = Some l' /\ valid l' = true.
Proof.
  assert (Set_access set_C1 3 7
          = Ok (MissNoEvict,
                [mk_line 5 true 1; mk_line 7 true 0; mk_line 9 true 2]))
    as H by reflexivity.
  split; [exact H |].
  exact (Set_access_keeps_valid set_C1 3 7 MissNoEvict _ H).
Defined.

Lemma processed_cons e rest :
  processed (e :: rest) = if items e =? 2 then e :: processed rest else [].
Proof. reflexivity. Qed.

(** ** Sets are independent *)

(** A run changes only the sets that its data references map to: for
    shifts that C defines, the cache keeps its number of sets, and a set
    that no replayed data reference is decoded to is, at the end, exactly
    as it was at the start. *)
Theorem replay_leaves_other_sets (s b assoc : Z) (trace : list scan)
    (st st' : sim) (idx : Z) :
  0 <= s <= 30 -> 0 <= b -> s + b <= 63 ->
  replay s b assoc trace st = Ok st' -> 0 <= idx ->
  (forall e, e ∈ data_refs (processed trace) ->
     snd (decode s b (address e)) <> idx) ->
  length (cache st') = length (cache st) /\
  cache st' !! Z.to_nat idx = cache st !! Z.to_nat idx.
Proof.
  intros _ _ _.
  revert st. induction trace as [| e rest IH]; intros st Hrun Hidx Hother.
  - simpl in Hrun. by injection Hrun as <-.
  - rewrite replay_cons in Hrun. rewrite processed_cons in Hother.
    destruct (items e =? 2); [| by injection Hrun as <-].
    destruct (loop_body s b assoc st (access_type e) (address e))
      as [st1 |] eqn:Hbody; [| done].
    simpl in Hrun.
    assert (forall e', e' ∈ data_refs (processed rest) ->
              snd (decode s b (address e')) <> idx) as Hrest.
    { intros e' He'. apply Hother. unfold data_refs in *. simpl.
      destruct (negb (Ascii.eqb (access_type e) "I")); [by right | done]. }
    destruct (IH st1 Hrun Hidx Hrest) as [Hlen Hsame].
    rewrite Hlen, Hsame.
    apply loop_body_Ok_inv in Hbody
      as [[_ ->] | (HI & set & o & set' & Hpos & _ & _ & ->)]; [done |].
    cbn [cache]. split; [apply length_insert |].
    apply list_lookup_insert_ne.
    assert (snd (decode s b (address e)) <> idx) as Hne.
    { apply Hother. unfold data_refs. simpl. rewrite HI. simpl. by left. }
    lia.
Qed.

Lemma replay_leaves_other_sets_witness :
  (0 <= 1 <= 30 /\ 0 <= 0 /\ 1 + 0 <= 63 /\
   replay 1 0 1 [L 0; L 2; M 4] (init 1 1 (fun _ _ => 0))
   = Ok (mk_sim [[mk_line 2 true 0]; [mk_line 0 false 0]] 1 3 2)
   /\ 0 <= 1 /\
   (forall e, e ∈ data_refs (processed [L 0; L 2; M 4]) ->
      snd (decode 1 0 (address e)) <> 1)) /\
  length (cache (mk_sim [[mk_line 2 true 0]; [mk_line 0 false 0]] 1 3 2))
  = length (cache (init 1 1 (fun _ _ => 0))) /\
  cache (mk_sim [[mk_line 2 true 0]; [mk_line 0 false 0]] 1 3 2)
    !! Z.to_nat 1
  = cache (init 1 1 (fun _ _ => 0)) !! Z.to_nat 1.
Proof.
  assert (0 <= 1 <= 30 /\ 0 <= 0 /\ 1 + 0 <= 63 /\
          replay 1 0 1 [L 0; L 2; M 4] (init 1 1 (fun _ _ => 0))
          = Ok (mk_sim [[mk_line 2 true 0]; [mk_line 0 false 0]] 1 3 2)
          /\ 0 <= 1 /\
          (forall e, e ∈ data_refs (processed [L 0; L 2; M 4]) ->
             snd (decode 1 0 (address e)) <> 1)) as H.
  { split; [lia |]. split; [lia |]. split; [lia |].
    split; [reflexivity |]. split; [lia |].
    intros e He. vm_compute in He.
    repeat (apply elem_of_cons in He as [-> | He]; [vm_compute; lia |]).
    by apply elem_of_nil in He. }
  split; [exact H |].
  destruct H as (H1 & H2 & H3 & H4 & H5 & H6).
  exact (replay_leaves_other_sets 1 0 1 [L 0; L 2; M 4] _ _ 1
           H1 H2 H3 H4 H5 H6).
Defined.

(** ** Blocks *)

(** For shifts that C defines, the tag and the set index are the quotient
    and the remainder of the block number [address >> b] by the number of
    sets: they determine the block, and two addresses are decoded alike
    exactly when they lie in the same block. *)
Theorem decode_block (s b address : Z) :
  0 <= s <= 30 -> 0 <= b -> s + b <= 63 ->
  Z.shiftr address b
  = fst (decode s b address) * num_sets s + snd (decode s b address) /\
  0 <= snd (decode s b address) < num_sets s /\
  forall address',
    decode s b address' = decode s b address
    <-> Z.shiftr address' b = Z.shiftr address b.
Proof.
  intros [Hs _] Hb _.
  assert (forall a, Z.shiftr a b
                    = fst (decode s b a) * num_sets s + snd (decode s b a))
    as Hsplit.
  { intros a. unfold decode. simpl.
    rewrite INDEX_MASK_ones, Z.land_ones, num_sets_pow by done.
    rewrite (Z.add_comm s b), <- Z.shiftr_shiftr by done.
    rewrite (Z.shiftr_div_pow2 (Z.shiftr a b) s) by done.
    pose proof (Z.div_mod (Z.shiftr a b) (2 ^ s)) as Hdm.
    assert (2 ^ s <> 0) as Hnz by (apply Z.pow_nonzero; lia).
    specialize (Hdm Hnz). lia. }
  split; [apply Hsplit |]. split; [by apply decode_index_range |].
  intros a'. split.
  - intros Heq. by rewrite (Hsplit a'), (Hsplit address), Heq.
  - intros Heq. unfold decode.
    rewrite (Z.add_comm s b), <- !Z.shiftr_shiftr by done.
    by rewrite Heq.
Qed.

Lemma decode_block_witness :
  (0 <= 5 <= 30 /\ 0 <= 5 /\ 5 + 5 <= 63) /\
  Z.shiftr 123456 5
  = fst (decode 5 5 123456) * num_sets 5 + snd (decode 5 5 123456) /\
  0 <= snd (decode 5 5 123456) < num_sets 5 /\
  forall address',
    decode 5 5 address' = decode 5 5 123456
    <-> Z.shiftr address' 5 = Z.shiftr 123456 5.
Proof.
  assert (0 <= 5 <= 30 /\ 0 <= 5 /\ 5 + 5 <= 63) as H by lia.
  split; [exact H |].
  exact (decode_block 5 5 123456 (proj1 H) (proj1 (proj2 H))
           (proj2 (proj2 H))).
Defined.

(** ** The counters of a run *)

Lemma count_valid_app set1 set2 :
  count_valid (set1 ++ set2) = count_valid set1 + count_valid set2.
Proof.
  unfold count_valid. rewrite List.filter_app, length_app. lia.
Qed.

Lemma count_valid_cons l set :
  count_valid (l :: set) = (if valid l then 1 else 0) + count_valid set.
Proof. unfold count_valid. simpl. destruct (valid l); simpl; lia. Qed.

Lemma count_valid_insert set k x y :
  set !! k = Some x ->
  count_valid (<[k := y]> set)
  = count_valid set - (if valid x then 1 else 0) + (if valid y then 1 else 0).
Proof.
  intros Hk.
  rewrite insert_take_drop by (by apply lookup_lt_Some in Hk).
  rewrite <- (take_drop_middle set k x Hk) at 3.
  rewrite !count_valid_app, !count_valid_cons. lia.
Qed.

Lemma count_valid_map f set :
  (forall l, valid (f l) = valid l) ->
  count_valid (map f set) = count_valid set.
Proof.
  intros Hf. induction set as [| l set IH]; [done |].
  simpl map. rewrite !count_valid_cons, Hf, IH. done.
Qed.

Lemma count_valid_bound set : 0 <= count_valid set <= Z.of_nat (length set).
Proof.
  induction set as [| l set IH]; [unfold count_valid; simpl; lia |].
  rewrite count_valid_cons. simpl length. destruct (valid l); lia.
Qed.

Lemma valid_lines_app c1 c2 :
  valid_lines (c1 ++ c2) = valid_lines c1 + valid_lines c2.
Proof.
  induction c1 as [| set c1 IH]; [done |].
  simpl. unfold valid_lines in *. simpl. rewrite IH. lia.
Qed.

Lemma valid_lines_insert c i x y :
  c !! i = Some x ->
  valid_lines (<[i := y]> c) = valid_lines c - count_valid x + count_valid y.
Proof.
  intros Hi.
  rewrite insert_take_drop by (by apply lookup_lt_Some in Hi).
  rewrite <- (take_drop_middle c i x Hi) at 3.
  rewrite !valid_lines_app. unfold valid_lines. simpl. lia.
Qed.

Lemma valid_lines_bound c n :
  Forall (fun set => length set = n) c ->
  0 <= valid_lines c <= Z.of_nat n * Z.of_nat (length c).
Proof.
  induction 1 as [| set c Hset Hc IH]; [simpl; lia |].
  unfold valid_lines in *. simpl foldr. simpl length.
  pose proof (count_valid_bound set). nia.
Qed.

Lemma Set_access_count_valid set assoc t :
  1 <= assoc -> rank_invariant set assoc ->
  exists o set', Set_access set assoc t = Ok (o, set') /\
    count_valid set'
    = count_valid set + (if o is MissNoEvict then 1 else 0).
Proof.
  intros HE Hinv.
  destruct (Set_access_view set assoc t HE Hinv)
    as (o & k & l & [Hk Hcase] & Heq).
  eexists o, _. split; [exact Heq |].
  rewrite (count_valid_insert _ k (update_line (rank_accessed assoc o l) l))
    by (by apply lookup_map_Some).
  rewrite count_valid_map by apply update_line_valid.
  rewrite placed_valid, update_line_valid.
  destruct o; simpl in Hcase.
  - destruct (valid l); lia.
  - destruct Hcase as (_ & -> & _). lia.
  - destruct (valid l); lia.
Qed.

Lemma init_valid_lines s assoc malloc_tag :
  valid_lines (init_cache s assoc malloc_tag) = 0.
Proof.
  unfold init_cache.
  induction (seq 0 (Z.to_nat (num_sets s))) as [| i others IH]; [done |].
  simpl map. unfold valid_lines in *. simpl foldr. rewrite IH.
  assert (count_valid (init_set assoc malloc_tag i) = 0) as ->; [| done].
  unfold init_set.
  induction (seq 0 (Z.to_nat assoc)) as [| j js IHj]; [done |].
  simpl map. by rewrite count_valid_cons, IHj.
Qed.

(** The bookkeeping of a replay that starts in a cache satisfying the
    invariant. *)
Lemma replay_counts s b assoc trace st :
  0 <= s -> 1 <= assoc <= 32768 -> cache_invariant s assoc (cache st) ->
  exists st', replay s b assoc trace st = Ok st' /\
    cache_invariant s assoc (cache st') /\
    hits st' + misses st'
    = hits st + misses st
      + Z.of_nat (length (data_refs (processed trace)))
      + Z.of_nat (length (modifies (processed trace))) /\
    misses st' - evictions st' - valid_lines (cache st')
    = misses st - evictions st - valid_lines (cache st) /\
    hits st <= hits st' /\ misses st <= misses st' /\
    evictions st <= evictions st'.
Proof.
  intros Hs HE. revert st.
  induction trace as [| e rest IH]; intros st Hinv.
  - exists st. simpl. repeat (split; [done || lia |]). lia.
  - rewrite replay_cons, processed_cons.
    destruct (items e =? 2).
    2:{ exists st. simpl. repeat (split; [done || lia |]). lia. }
    destruct (loop_body_invariant s b assoc st (access_type e) (address e)
                Hs HE Hinv) as (st1 & Hbody & Hinv1).
    rewrite Hbody. simpl.
    destruct (IH st1 Hinv1) as (st' & Hrun & Hinv' & Hhm & Hme & Hh & Hm & He).
    exists st'. split; [done |]. split; [done |].
    unfold data_refs, modifies in *. simpl List.filter.
    destruct (Ascii.eqb (access_type e) "I") eqn:HI.
    + assert (Ascii.eqb (access_type e) "M" = false) as HM.
      { apply Ascii.eqb_eq in HI. by rewrite HI. }
      rewrite HM. simpl negb. cbv iota.
      unfold loop_body in Hbody. rewrite HI in Hbody.
      injection Hbody as <-. done.
    + simpl negb. cbv iota.
      destruct (loop_body_data s b assoc st (access_type e) (address e)
                  Hs (proj1 HE) Hinv HI)
        as (set & o & set' & Hset & Hacc & Hinvset & Hbody').
      rewrite Hbody in Hbody'. injection Hbody' as ->.
      destruct (Set_access_count_valid set assoc
                  (fst (decode s b (address e))) (proj1 HE) Hinvset)
        as (o2 & set2 & Hacc2 & Hcount).
      rewrite Hacc in Hacc2. injection Hacc2 as <- <-.
      cbn [cache hits misses evictions] in *.
      rewrite (valid_lines_insert _ _ set) in Hme by done.
      destruct o, (Ascii.eqb (access_type e) "M"); simpl length; lia.
Qed.

(** With between one and 32768 lines per set and shifts that C defines, the
    run of any trace ends, every replayed data reference is counted once as
    a hit or as a miss, and every [M] once more as a hit; there are no more
    evictions than misses. *)
Theorem hits_and_misses_account (s b assoc : Z)
    (malloc_tag : nat -> nat -> Z) (trace : list scan) :
  0 <= s <= 30 -> 0 <= b -> s + b <= 63 -> 1 <= assoc <= 32768 ->
  exists h m e, main s b assoc malloc_tag trace = Ok (h, m, e) /\
    h + m = Z.of_nat (length (data_refs (processed trace)))
            + Z.of_nat (length (modifies (processed trace))) /\
    0 <= h /\ 0 <= e <= m.
Proof.
  intros [Hs _] _ _ HE.
  destruct (replay_counts s b assoc trace (init s assoc malloc_tag) Hs HE)
    as (st & Hrun & Hinv & Hhm & Hme & Hh & Hm & He).
  { apply init_invariant. lia. }
  exists (hits st), (misses st), (evictions st).
  unfold main. rewrite Hrun. split; [done |].
  cbn [cache hits misses evictions init] in *.
  rewrite init_valid_lines in Hme.
  destruct Hinv as [Hlen Hall].
  pose proof (valid_lines_bound (cache st) (Z.to_nat assoc)) as Hb.
  assert (0 <= valid_lines (cache st)) as Hpos.
  { apply Hb. eapply Forall_impl; [exact Hall |].
    intros set Hset. by apply rank_invariant_length. }
  split; [lia |]. split; lia.
Qed.

Lemma hits_and_misses_account_witness :
  (0 <= 1 <= 30 /\ 0 <= 2 /\ 1 + 2 <= 63 /\ 1 <= 2 <= 32768) /\
  exists h m e,
    main 1 2 2 (fun _ _ => 0) [L 0; M 8; mk_scan 2 "I" 0; L 16; L 24]
    = Ok (h, m, e) /\
    h + m
    = Z.of_nat (length (data_refs (processed
                  [L 0; M 8; mk_scan 2 "I" 0; L 16; L 24])))
      + Z.of_nat (length (modifies (processed
                  [L 0; M 8; mk_scan 2 "I" 0; L 16; L 24]))) /\
    0 <= h /\ 0 <= e <= m.
Proof.
  assert (0 <= 1 <= 30 /\ 0 <= 2 /\ 1 + 2 <= 63 /\ 1 <= 2 <= 32768) as H
    by lia.
  split; [exact H |].
  exact (hits_and_misses_account 1 2 2 (fun _ _ => 0)
           [L 0; M 8; mk_scan 2 "I" 0; L 16; L 24]
           (proj1 H) (proj1 (proj2 H)) (proj1 (proj2 (proj2 H)))
           (proj2 (proj2 (proj2 H)))).
Defined.

(** The misses that were not evictions each filled one line: with between
    one and 32768 lines per set and shifts that C defines, at any point of
    a run, misses minus evictions is the number of valid lines of the
    cache, which is at most the number of its lines. *)
Theorem cold_misses_fill_lines (s b assoc : Z)
    (malloc_tag : nat -> nat -> Z) (trace : list scan) :
  0 <= s <= 30 -> 0 <= b -> s + b <= 63 -> 1 <= assoc <= 32768 ->
  exists st, replay s b assoc trace (init s assoc malloc_tag) = Ok st /\
    misses st - evictions st = valid_lines (cache st) /\
    valid_lines (cache st) <= assoc * num_sets s.
Proof.
  intros [Hs _] _ _ HE.
  destruct (replay_counts s b assoc trace (init s assoc malloc_tag) Hs HE)
    as (st & Hrun & Hinv & Hhm & Hme & Hh & Hm & He).
  { apply init_invariant. lia. }
  exists st. split; [done |].
  cbn [cache hits misses evictions init] in *.
  rewrite init_valid_lines in Hme. split; [lia |].
  destruct Hinv as [Hlen Hall].
  pose proof (valid_lines_bound (cache st) (Z.to_nat assoc)) as Hb.
  assert (valid_lines (cache st)
          <= Z.of_nat (Z.to_nat assoc) * Z.of_nat (length (cache st))) as Hle.
  { apply Hb. eapply Forall_impl; [exact Hall |].
    intros set Hset. by apply rank_invariant_length. }
  rewrite Hlen in Hle.
  pose proof (decode_index_range s 0 0 Hs) as Hn.
  rewrite !Z2Nat.id in Hle by lia. done.
Qed.

Lemma cold_misses_fill_lines_witness :
  (0 <= 1 <= 30 /\ 0 <= 2 /\ 1 + 2 <= 63 /\ 1 <= 2 <= 32768) /\
  exists st,
    replay 1 2 2 [L 0; M 8; L 16; L 24; L 32] (init 1 2 (fun _ _ => 0))
    = Ok st /\
    misses st - evictions st = valid_lines (cache st) /\
    valid_lines (cache st) <= 2 * num_sets 1.
Proof.
  assert (0 <= 1 <= 30 /\ 0 <= 2 /\ 1 + 2 <= 63 /\ 1 <= 2 <= 32768) as H
    by lia.
  split; [exact H |].
  exact (cold_misses_fill_lines 1 2 2 (fun _ _ => 0)
           [L 0; M 8; L 16; L 24; L 32]
           (proj1 H) (proj1 (proj2 H)) (proj1 (proj2 (proj2 H)))
           (proj2 (proj2 (proj2 H)))).
Defined.

(** ** Accessing the same block again *)

Lemma find_hit_map (f : cache_line -> cache_line) lines t :
  (forall l, valid (f l) = valid l) -> (forall l, tag (f l) = tag l) ->
  find_hit (map f lines) t = f <$> find_hit lines t.
Proof.
  intros Hv Ht. induction lines as [| l rest IH]; [done |].
  simpl. rewrite Hv, Ht. by destruct (valid l && (tag l =? t)).
Qed.

Lemma find_hit_intro lines t k l :
  lines !! k = Some l -> valid l = true -> tag l = t ->
  (forall j l', (j < k)%nat -> lines !! j = Some l' ->
     valid l' = true -> tag l' <> t) ->
  find_hit lines t = Some l.
Proof.
  revert k. induction lines as [| l0 rest IH]; intros k Hk Hv Ht Hfirst;
    [done |].
  simpl. destruct k as [| k]; simpl in Hk.
  - injection Hk as ->. by rewrite Hv, Ht, Z.eqb_refl.
  - destruct (valid l0 && (tag l0 =? t)) eqn:E.
    + apply andb_true_iff in E as [Hv0 Ht0]. apply Z.eqb_eq in Ht0.
      destruct (Hfirst 0%nat l0); [lia | done | done | done].
    + apply (IH k); [done | done | done |].
      intros j l' Hj Hl'. apply (Hfirst (S j)); [lia | done].
Qed.

(** Promoting the line of rank 0 changes nothing. *)
Lemma update_lru_cntr_mru set assoc :
  rank_invariant set assoc -> update_lru_cntr set assoc 0 = set.
Proof.
  intros Hinv.
  rewrite update_lru_cntr_whole by (by apply rank_invariant_length).
  rewrite <- (map_id set) at 2. apply map_ext_in. intros l Hl.
  apply list_elem_of_In in Hl.
  pose proof (rank_invariant_range _ _ _ Hinv Hl) as Hr.
  unfold update_line.
  destruct (lru_cntr l <? 0) eqn:E; [apply Z.ltb_lt in E; lia |].
  destruct (lru_cntr l =? 0) eqn:E0; [| done].
  apply Z.eqb_eq in E0. destruct l as [tg v r]. simpl in *. by subst r.
Qed.

(** Once a tag has been accessed, accessing it again is a hit that leaves
    the set as it is. *)
Lemma Set_access_again set assoc t o set1 :
  1 <= assoc <= 32768 -> rank_invariant set assoc ->
  Set_access set assoc t = Ok (o, set1) ->
  Set_access set1 assoc t = Ok (Hit, set1).
Proof.
  intros HE Hinv Hacc.
  pose proof (rank_invariant_length _ _ Hinv) as Hlen.
  destruct (Set_access_invariant set assoc t HE Hinv)
    as (o' & set1' & Hacc' & Hinv1).
  rewrite Hacc in Hacc'. injection Hacc' as <- <-.
  pose proof (rank_invariant_length _ _ Hinv1) as Hlen1.
  assert (exists l1, find_hit set1 t = Some l1 /\ lru_cntr l1 = 0)
    as (l1 & Hhit1 & Hr1).
  { pose proof (rank_invariant_short _ _ (proj2 HE) Hinv) as Hshort.
    assert (forall l, l ∈ set -> is_short (lru_cntr l)) as Hsh.
    { intros l Hl. unfold short_ranks in Hshort.
      rewrite Forall_forall in Hshort. by apply Hshort. }
    destruct (find_hit set t) as [l |] eqn:Hhit.
    - (* the first access was a hit *)
      unfold Set_access, cache_lookup in Hacc.
      rewrite take_ge, Hhit in Hacc by lia. simpl in Hacc.
      injection Hacc as <- <-.
      rewrite update_lru_cntr_whole by done.
      exists (update_line (lru_cntr l) l). split.
      + rewrite find_hit_map, Hhit; [done | |];
          intros l'; [apply update_line_valid | apply update_line_tag].
      + destruct (find_hit_Some _ _ _ Hhit) as (k & Hk & _).
        assert (is_short (lru_cntr l)) as Hl
          by (apply Hsh, list_elem_of_lookup; eauto).
        rewrite update_line_lru_cntr by done.
        unfold promote. by rewrite Z.ltb_irrefl, Z.eqb_refl.
    - (* the first access was a miss *)
      apply find_hit_None in Hhit.
      destruct (Set_access_promotes set assoc t HE Hinv)
        as (o' & k & l & [Hk Hcase] & Heq & _).
      rewrite Hacc in Heq. injection Heq as -> ->.
      assert (l ∈ set) as Hin by (apply list_elem_of_lookup; eauto).
      destruct o'; simpl in Hcase.
      { destruct Hcase as [Hv Ht]. by destruct (Hhit l Hin Hv). }
      all: eexists; split;
        [ apply (find_hit_intro _ t k);
          [ apply list_lookup_insert_eq; rewrite length_map;
            by apply lookup_lt_Some in Hk
          | rewrite placed_valid, ?update_line_valid
          | by rewrite placed_tag
          | intros j l' Hj Hl' Hv' Ht';
            rewrite list_lookup_insert_ne in Hl' by lia;
            change (map (update_line (lru_cntr l)) set)
              with (update_line (lru_cntr l) <$> set) in Hl';
            rewrite list_lookup_fmap in Hl';
            destruct (set !! j) as [lj |] eqn:Hlj; [| done];
            injection Hl' as <-;
            rewrite update_line_valid in Hv';
            rewrite update_line_tag in Ht';
            apply (Hhit lj); [apply list_elem_of_lookup; eauto | done | done]
          ]
        | rewrite placed_lru_cntr, update_line_lru_cntr by (by apply Hsh);
          unfold promote; by rewrite Z.ltb_irrefl, Z.eqb_refl ].
      * done.
      * destruct Hcase as (_ & Hall & _). by apply Hall. }
  unfold Set_access, cache_lookup.
  rewrite take_ge, Hhit1 by lia. simpl.
  by rewrite Hr1, update_lru_cntr_mru.
Qed.

Lemma Ok_inj {A : Type} (x y : A) : Ok x = Ok y -> x = y.
Proof. by intros [= ->]. Qed.

Lemma loop_body_again s b assoc st st1 c c' a a' :
  0 <= s -> 1 <= assoc <= 32768 -> cache_invariant s assoc (cache st) ->
  Ascii.eqb c "I" = false -> Ascii.eqb c' "I" = false ->
  loop_body s b assoc st c a = Ok st1 ->
  decode s b a' = decode s b a ->
  loop_body s b assoc st1 c' a'
  = Ok (mk_sim (cache st1)
          (hits st1 + 1 + if Ascii.eqb c' "M" then 1 else 0)
          (misses st1) (evictions st1)).
Proof.
  intros Hs HE Hinv HI HI' Hbody Hdec.
  destruct (loop_body_data s b assoc st c a Hs (proj1 HE) Hinv HI)
    as (set & o & set1 & Hset & Hacc & Hinvset & Hbody').
  rewrite Hbody in Hbody'. apply Ok_inj in Hbody'. rename Hbody' into Hst1.
  pose proof (Set_access_again set assoc _ o set1 HE Hinvset Hacc) as Hagain.
  pose proof (decode_index_range s b a Hs) as Hidx.
  revert Hset Hagain Hst1 Hidx. clear Hacc Hbody.
  unfold loop_body. rewrite HI', Hdec.
  destruct (decode s b a) as [t idx]. simpl fst. simpl snd.
  intros Hset Hagain -> Hidx.
  cbn [cache hits misses evictions].
  assert (Z.to_nat idx < length (cache st))%nat as Hlt
    by (by apply lookup_lt_Some in Hset).
  unfold array_get. destruct (idx <? 0) eqn:Hneg; [lia |].
  rewrite list_lookup_insert_eq by done. simpl.
  rewrite Hagain. simpl.
  rewrite list_insert_insert_eq.
  destruct (Ascii.eqb c' "M"); f_equal; f_equal; lia.
Qed.

(** After a data reference, a reference to any address of the same block
    (the same tag and set index, for shifts that C defines) is a hit and
    leaves the cache as it is, whatever the kind of the two references. *)
Theorem same_block_hits (s b assoc : Z) (st st1 : sim) (c c' : ascii)
    (a a' : Z) :
  0 <= s <= 30 -> 0 <= b -> s + b <= 63 ->
  1 <= assoc <= 32768 -> cache_invariant s assoc (cache st) ->
  c <> "I"%char -> c' <> "I"%char ->
  loop_body s b assoc st c a = Ok st1 ->
  decode s b a' = decode s b a ->
  loop_body s b assoc st1 c' a'
  = Ok (mk_sim (cache st1)
          (hits st1 + 1 + if Ascii.eqb c' "M" then 1 else 0)
          (misses st1) (evictions st1)).
Proof.
  intros [Hs _] _ _ HE Hinv HI HI'. apply Ascii.eqb_neq in HI, HI'.
  by apply loop_body_again.
Qed.

Lemma same_block_hits_witness :
  (0 <= 0 <= 30 /\ 0 <= 3 /\ 0 + 3 <= 63 /\
   1 <= 2 <= 32768 /\ cache_invariant 0 2 (cache sim_C4) /\
   "L"%char <> "I"%char /\ "S"%char <> "I"%char /\
   loop_body 0 3 2 sim_C4 "L" 72
   = Ok (mk_sim [[mk_line 3 true 1; mk_line 9 true 0]] 5 7 3) /\
   decode 0 3 79 = decode 0 3 72) /\
  loop_body 0 3 2 (mk_sim [[mk_line 3 true 1; mk_line 9 true 0]] 5 7 3)
    "S" 79
  = Ok (mk_sim
          (cache (mk_sim [[mk_line 3 true 1; mk_line 9 true 0]] 5 7 3))
          (hits (mk_sim [[mk_line 3 true 1; mk_line 9 true 0]] 5 7 3) + 1
           + if Ascii.eqb "S" "M" then 1 else 0)
          (misses (mk_sim [[mk_line 3 true 1; mk_line 9 true 0]] 5 7 3))
          (evictions (mk_sim [[mk_line 3 true 1; mk_line 9 true 0]] 5 7 3))).
Proof.
  assert (0 <= 0 <= 30 /\ 0 <= 3 /\ 0 + 3 <= 63 /\
          1 <= 2 <= 32768 /\ cache_invariant 0 2 (cache sim_C4) /\
          "L"%char <> "I"%char /\ "S"%char <> "I"%char /\
          loop_body 0 3 2 sim_C4 "L" 72
          = Ok (mk_sim [[mk_line 3 true 1; mk_line 9 true 0]] 5 7 3) /\
          decode 0 3 79 = decode 0 3 72) as H.
  { split; [lia |]. split; [lia |]. split; [lia |]. split; [lia |].
    split; [apply cache_invariantb_true; vm_compute; reflexivity |].
    split; [discriminate |]. split; [discriminate |].
    split; reflexivity. }
  split; [exact H |].
  destruct H as (G1 & G2 & G3 & H2 & H3 & H4 & H5 & H6 & H7).
  exact (same_block_hits 0 3 2 sim_C4 _ "L" "S" 72 79
           G1 G2 G3 H2 H3 H4 H5 H6 H7).
Defined.

Lemma result_bind_Ok {A B : Type} (x : A) (k : A -> result B) :
  (Ok x ≫= k) = k x.
Proof. reflexivity. Qed.

(** A reference of kind [M] counts as the load of the address followed by
    the store to it: the shortcut of [main] (one lookup and one more hit)
    leaves the cache and the counters as the two references would. *)
Theorem modify_is_load_then_store (s b assoc : Z) (st : sim) (a : Z) :
  0 <= s -> 1 <= assoc <= 32768 -> cache_invariant s assoc (cache st) ->
  loop_body s b assoc st "M" a
  = (st1 ← loop_body s b assoc st "L" a; loop_body s b assoc st1 "S" a).
Proof.
  intros Hs HE Hinv.
  destruct (loop_body_data s b assoc st "L" a Hs (proj1 HE) Hinv eq_refl)
    as (set & o & set1 & Hset & Hacc & Hinvset & HL).
  destruct (loop_body_data s b assoc st "M" a Hs (proj1 HE) Hinv eq_refl)
    as (set' & o' & set1' & Hset' & Hacc' & _ & HM).
  rewrite Hset in Hset'. injection Hset' as <-.
  rewrite Hacc in Hacc'. injection Hacc' as <- <-.
  rewrite HM, HL, result_bind_Ok.
  rewrite (loop_body_again s b assoc st _ "L" "S" a a Hs HE Hinv
             eq_refl eq_refl HL eq_refl).
  cbn [cache hits misses evictions].
  change (Ascii.eqb "M" "M") with true.
  change (Ascii.eqb "L" "M") with false.
  change (Ascii.eqb "S" "M") with false.
  f_equal. f_equal; lia.
Qed.

Lemma modify_is_load_then_store_witness :
  (0 <= 0 /\ 1 <= 2 <= 32768 /\ cache_invariant 0 2 (cache sim_C4)) /\
  loop_body 0 0 2 sim_C4 "M" 9
  = (st1 ← loop_body 0 0 2 sim_C4 "L" 9; loop_body 0 0 2 st1 "S" 9).
Proof.
  assert (0 <= 0 /\ 1 <= 2 <= 32768 /\ cache_invariant 0 2 (cache sim_C4))
    as H.
  { split; [lia |]. split; [lia |].
    apply cache_invariantb_true. vm_compute. reflexivity. }
  split; [exact H |].
  exact (modify_is_load_then_store 0 0 2 sim_C4 9
           (proj1 H) (proj1 (proj2 H)) (proj2 (proj2 H))).
Defined.

(** ** The set holds the most recently used tags *)

Lemma elem_of_take_elem {A : Type} (x : A) n l : x ∈ take n l -> x ∈ l.
Proof.
  intros H. apply elem_of_take in H as (i & Hi & _).
  apply list_elem_of_lookup. eauto.
Qed.

(** The outcome of an access, read off the history of the set. *)
Lemma Set_access_by_history set assoc t h :
  1 <= assoc <= 32768 -> rank_invariant set assoc -> lru_inv set h ->
  exists o k l set',
    selects set assoc t o k l /\
    Set_access set assoc t = Ok (o, set') /\
    map tag set'
    = (if o is Hit then map tag set else <[k := t]> (map tag set)) /\
    rank_invariant set' assoc /\ lru_inv set' (t :: h) /\
    match o with
    | Hit => t ∈ take (Z.to_nat assoc) (recency h)
    | MissNoEvict =>
        (t ∉ recency h) /\ (length (recency h) < Z.to_nat assoc)%nat
    | MissWithEvict =>
        (t ∉ take (Z.to_nat assoc) (recency h)) /\
        (Z.to_nat assoc <= length (recency h))%nat /\
        recency h !! (Z.to_nat assoc - 1)%nat = Some (tag l)
    end.
Proof.
  intros HE Hinv Hlru.
  destruct (Set_access_lru_inv set assoc t h HE Hinv Hlru)
    as (o & k & l & set' & Hsel & Heq & Htags & Hinv' & Hlru').
  exists o, k, l, set'. repeat (split; [done |]).
  destruct Hsel as [Hk Hcase].
  assert (0 <= lru_cntr l < assoc) as Hr.
  { apply (rank_invariant_range set); [done |].
    apply list_elem_of_lookup. eauto. }
  pose proof (Hlru k l Hk) as Hl.
  destruct o; simpl in Hcase.
  - destruct Hcase as [Hv Ht]. rewrite Hv, Ht in Hl.
    apply elem_of_take. exists (Z.to_nat (lru_cntr l)). split; [done | lia].
  - destruct Hcase as (Hno & Hv & _). rewrite Hv in Hl.
    assert (length (recency h) < Z.to_nat assoc)%nat as Hlen by lia.
    split; [| done].
    intros Hin.
    apply (lru_inv_no_hit set assoc h t Hinv Hlru Hno t); [| done].
    by rewrite take_ge by lia.
  - destruct Hcase as (Hno & Hall & Hrk).
    rewrite Hall in Hl by (apply list_elem_of_lookup; eauto).
    rewrite Hrk in Hl.
    replace (Z.to_nat (assoc - 1)) with (Z.to_nat assoc - 1)%nat in Hl
      by lia.
    split; [| split; [| done]].
    + intros Hin.
      by apply (lru_inv_no_hit set assoc h t Hinv Hlru Hno t).
    + apply lookup_lt_Some in Hl. lia.
Qed.

(** After any sequence of accesses to a set that started empty, the valid
    lines hold exactly the [assoc] most recently used distinct tags, each of
    them in one line only. *)
Theorem LRU_content (assoc : Z) (malloc_tag : nat -> nat -> Z) (i0 : nat)
    (tags : list Z) :
  1 <= assoc <= 32768 ->
  exists set,
    Set_replay (init_set assoc malloc_tag i0) assoc tags = Ok set /\
    (forall t, has_tag set t
               <-> t ∈ take (Z.to_nat assoc) (recency (reverse tags))) /\
    forall i j li lj,
      set !! i = Some li -> set !! j = Some lj ->
      valid li = true -> valid lj = true -> tag li = tag lj -> i = j.
Proof.
  intros HE.
  destruct (Set_replay_lru_inv (init_set assoc malloc_tag i0) assoc tags []
              HE) as (set & Hrun & Hinv & Hlru).
  { unfold rank_invariant. rewrite init_set_ranks; [done | lia]. }
  { apply init_set_lru_inv. lia. }
  rewrite app_nil_r in Hlru.
  exists set. split; [done |].
  assert (forall i l, set !! i = Some l -> valid l = true ->
            0 <= lru_cntr l < assoc /\
            recency (reverse tags) !! Z.to_nat (lru_cntr l) = Some (tag l))
    as Hvalid.
  { intros i l Hi Hv. split.
    - apply (rank_invariant_range set); [done |].
      apply list_elem_of_lookup. eauto.
    - pose proof (Hlru i l Hi) as Hl. by rewrite Hv in Hl. }
  split.
  - intros t. split.
    + intros (l & Hl & Hv & <-). apply list_elem_of_lookup in Hl as [i Hi].
      destruct (Hvalid i l Hi Hv) as [Hr HR].
      apply elem_of_take. exists (Z.to_nat (lru_cntr l)).
      split; [done | lia].
    + intros Hin. apply elem_of_take in Hin as (p & Hp & Hlt).
      destruct (lru_inv_position set assoc _ p t Hinv Hlru)
        as (k & l & Hk & _ & Hv & Ht); [lia | done |].
      exists l. split; [apply list_elem_of_lookup; eauto | done].
  - intros i j li lj Hi Hj Hvi Hvj Htag.
    destruct (Hvalid i li Hi Hvi) as [Hri HRi].
    destruct (Hvalid j lj Hj Hvj) as [Hrj HRj].
    rewrite Htag in HRi.
    pose proof (NoDup_lookup _ _ _ _ (recency_NoDup (reverse tags)) HRi HRj)
      as Heq.
    apply (rank_invariant_inj set assoc i j li lj Hinv Hi Hj). lia.
Qed.

Lemma LRU_content_witness :
  1 <= 2 <= 32768 /\
  exists set,
    Set_replay (init_set 2 (fun _ _ => 0) 0) 2 tags_7879 = Ok set /\
    (forall t, has_tag set t
               <-> t ∈ take (Z.to_nat 2) (recency (reverse tags_7879))) /\
    forall i j li lj,
      set !! i = Some li -> set !! j = Some lj ->
      valid li = true -> valid lj = true -> tag li = tag lj -> i = j.
Proof.
  assert (1 <= 2 <= 32768) as H by lia.
  split; [exact H |].
  exact (LRU_content 2 (fun _ _ => 0) 0 tags_7879 H).
Defined.

(** After any sequence of accesses to a set that started empty, the next
    access is a hit exactly when its tag is among the [assoc] most recently
    used distinct tags; otherwise it fills an empty line while fewer than
    [assoc] distinct tags have been used, and else evicts, from one line and
    no other, the tag that is the [assoc]-th most recently used: every other
    line holds a tag used more recently. *)
Theorem LRU_outcome (assoc : Z) (malloc_tag : nat -> nat -> Z) (i0 : nat)
    (tags : list Z) (t : Z) :
  1 <= assoc <= 32768 ->
  exists set o set',
    Set_replay (init_set assoc malloc_tag i0) assoc tags = Ok set /\
    Set_access set assoc t = Ok (o, set') /\
    (o = Hit <-> t ∈ take (Z.to_nat assoc) (recency (reverse tags))) /\
    (o = MissNoEvict
     <-> (t ∉ recency (reverse tags)) /\
         (length (recency (reverse tags)) < Z.to_nat assoc)%nat) /\
    (o = MissWithEvict ->
     exists k l,
       set !! k = Some l /\
       map tag set' = <[k := t]> (map tag set) /\
       recency (reverse tags) !! (Z.to_nat assoc - 1)%nat = Some (tag l) /\
       forall k' l', set !! k' = Some l' -> k' <> k ->
         valid l' = true /\ more_recent (reverse tags) (tag l') (tag l)).
Proof.
  intros HE.
  destruct (Set_replay_lru_inv (init_set assoc malloc_tag i0) assoc tags []
              HE) as (set & Hrun & Hinv & Hlru).
  { unfold rank_invariant. rewrite init_set_ranks; [done | lia]. }
  { apply init_set_lru_inv. lia. }
  rewrite app_nil_r in Hlru.
  destruct (Set_access_by_history set assoc t _ HE Hinv Hlru)
    as (o & k & l & set' & [Hk Hcase] & Heq & Htags & _ & _ & Hhist).
  exists set, o, set'. split; [done |]. split; [done |].
  set (R := recency (reverse tags)) in *.
  destruct o.
  - split; [by split |]. split; [split; [done |] | done].
    intros [Hnot _]. destruct Hnot.
    by apply (elem_of_take_elem _ (Z.to_nat assoc)).
  - destruct Hhist as [Hnot Hlen].
    split; [split; [done |] |].
    { intros Hin. destruct Hnot.
      by apply (elem_of_take_elem _ (Z.to_nat assoc)). }
    split; [by split | done].
  - destruct Hhist as (Hnot & Hlen & HR).
    split; [split; [done | by intros ?] |].
    split; [split; [done | intros [_ ?]; lia] |].
    intros _. exists k, l. split; [done |]. split; [done |].
    split; [done |].
    simpl in Hcase. destruct Hcase as (_ & Hall & Hrk).
    intros k' l' Hk' Hne.
    assert (valid l' = true) as Hv'
      by (apply Hall, list_elem_of_lookup; eauto).
    split; [done |].
    assert (0 <= lru_cntr l' < assoc) as Hr'.
    { apply (rank_invariant_range set); [done |].
      apply list_elem_of_lookup. eauto. }
    assert (lru_cntr l' <> lru_cntr l) as Hrne.
    { intros Heqr. apply Hne.
      by apply (rank_invariant_inj set assoc k' k l' l Hinv). }
    pose proof (Hlru k' l' Hk') as Hl'. rewrite Hv' in Hl'.
    apply (recency_sorted (reverse tags) (Z.to_nat (lru_cntr l'))
             (Z.to_nat assoc - 1)); [done | done | lia].
Qed.

Lemma LRU_outcome_witness :
  1 <= 2 <= 32768 /\
  exists set o set',
    Set_replay (init_set 2 (fun _ _ => 0) 0) 2 tags_7879 = Ok set /\
    Set_access set 2 8 = Ok (o, set') /\
    (o = Hit <-> 8 ∈ take (Z.to_nat 2) (recency (reverse tags_7879))) /\
    (o = MissNoEvict
     <-> (8 ∉ recency (reverse tags_7879)) /\
         (length (recency (reverse tags_7879)) < Z.to_nat 2)%nat) /\
    (o = MissWithEvict ->
     exists k l,
       set !! k = Some l /\
       map tag set' = <[k := 8]> (map tag set) /\
       recency (reverse tags_7879) !! (Z.to_nat 2 - 1)%nat
       = Some (tag l) /\
       forall k' l', set !! k' = Some l' -> k' <> k ->
         valid l' = true /\
         more_recent (reverse tags_7879) (tag l') (tag l)).
Proof.
  assert (1 <= 2 <= 32768) as H by lia.
  split; [exact H |].
  exact (LRU_outcome 2 (fun _ _ => 0) 0 tags_7879 8 H).
Defined.

(** ** Within the capacity of a set *)

Lemma recency_length_cons t h :
  length (recency (t :: h))
  = if decide (t ∈ recency h) then length (recency h)
    else S (length (recency h)).
Proof.
  simpl. destruct (decide (t ∈ recency h)) as [Hin | Hnot].
  - apply list_elem_of_lookup in Hin as [i Hi].
    rewrite (filter_ne_delete _ i t (recency_NoDup h) Hi).
    rewrite length_delete by eauto.
    apply lookup_lt_Some in Hi. lia.
  - rewrite filter_id; [done |]. by intros x Hx ->.
Qed.

Lemma recency_length_mono h' h :
  (length (recency h) <= length (recency (h' ++ h)))%nat.
Proof.
  induction h' as [| x h' IH]; [done |].
  change ((x :: h') ++ h) with (x :: (h' ++ h)).
  rewrite recency_length_cons. case_decide; lia.
Qed.

Lemma recency_length_distinct tags :
  length (recency (reverse tags)) = length (remove_dups tags).
Proof.
  apply Permutation_length, NoDup_Permutation.
  - apply recency_NoDup.
  - apply NoDup_remove_dups.
  - intros x.
    by rewrite recency_elem_of, elem_of_reverse, elem_of_remove_dups.
Qed.

Lemma Set_outcomes_within_capacity set assoc tags h :
  1 <= assoc <= 32768 -> rank_invariant set assoc -> lru_inv set h ->
  (length (recency (reverse tags ++ h)) <= Z.to_nat assoc)%nat ->
  exists os, Set_outcomes set assoc tags = Ok os /\
    length os = length tags /\ (MissWithEvict ∉ os) /\
    (length (recency h) + cold_misses os
     = length (recency (reverse tags ++ h)))%nat.
Proof.
  intros HE. revert set h.
  induction tags as [| t rest IH]; intros set h Hinv Hlru Hcap.
  - exists []. simpl. split; [done |]. split; [done |].
    split; [apply not_elem_of_nil | unfold cold_misses; simpl; lia].
  - rewrite reverse_cons, <- app_assoc in Hcap |- *.
    change ([t] ++ h) with (t :: h) in Hcap |- *.
    destruct (Set_access_by_history set assoc t h HE Hinv Hlru)
      as (o & k & l & set' & _ & Heq & _ & Hinv' & Hlru' & Hhist).
    destruct (IH set' (t :: h) Hinv' Hlru' Hcap)
      as (os & Hrun & Hlen & Hnoev & Hcount).
    exists (o :: os). simpl. rewrite Heq. simpl. rewrite Hrun. simpl.
    split; [done |]. split; [by rewrite Hlen |].
    pose proof (recency_length_mono (reverse rest) (t :: h)) as Hmono.
    rewrite recency_length_cons in Hmono, Hcount.
    unfold cold_misses in *. simpl List.filter.
    destruct o.
    + split; [by apply not_elem_of_cons |].
      apply elem_of_take_elem in Hhist.
      rewrite decide_True in Hcount by done. done.
    + destruct Hhist as [Hnot Hlt]. split; [by apply not_elem_of_cons |].
      rewrite decide_False in Hcount by done. simpl length. lia.
    + destruct Hhist as (Hnot & Hle & _). exfalso.
      destruct (decide (t ∈ recency h)) as [Hin | Hnin]; [| lia].
      apply Hnot. rewrite take_ge; [done | lia].
Qed.

(** Capacity: when the accesses to a set that started empty use at most
    [assoc] distinct tags, none of them evicts; the first access to each
    tag fills a line, so that there are as many misses as distinct tags. *)
Theorem no_eviction_within_capacity (assoc : Z)
    (malloc_tag : nat -> nat -> Z) (i0 : nat) (tags : list Z) :
  1 <= assoc <= 32768 ->
  (length (remove_dups tags) <= Z.to_nat assoc)%nat ->
  exists os,
    Set_outcomes (init_set assoc malloc_tag i0) assoc tags = Ok os /\
    length os = length tags /\ (MissWithEvict ∉ os) /\
    cold_misses os = length (remove_dups tags).
Proof.
  intros HE Hcap.
  destruct (Set_outcomes_within_capacity
              (init_set assoc malloc_tag i0) assoc tags [] HE)
    as (os & Hrun & Hlen & Hnoev & Hcount).
  { unfold rank_invariant. rewrite init_set_ranks; [done | lia]. }
  { apply init_set_lru_inv. lia. }
  { by rewrite app_nil_r, recency_length_distinct. }
  exists os. repeat (split; [done |]).
  rewrite app_nil_r, recency_length_distinct in Hcount. simpl in Hcount.
  lia.
Qed.

Lemma no_eviction_within_capacity_witness :
  (1 <= 3 <= 32768 /\ (length (remove_dups tags_7879) <= Z.to_nat 3)%nat) /\
  exists os,
    Set_outcomes (init_set 3 (fun _ _ => 0) 0) 3 tags_7879 = Ok os /\
    length os = length tags_7879 /\ (MissWithEvict ∉ os) /\
    cold_misses os = length (remove_dups tags_7879).
Proof.
  assert (1 <= 3 <= 32768
          /\ (length (remove_dups tags_7879) <= Z.to_nat 3)%nat) as H.
  { split; [lia |]. vm_compute. lia. }
  split; [exact H |].
  exact (no_eviction_within_capacity 3 (fun _ _ => 0) 0 tags_7879
           (proj1 H) (proj2 H)).
Defined.

(** ** A negative number of lines *)

(** [main] does not check [-E].  With a negative number of lines per set
    the loops of [cache_lookup] scan nothing, [max_lru_cntr] is still -1 and
    the assertion compares it with [assoc - 1], which is below -1: the
    first data reference of a trace fails the assertion, and the run is
    aborted before any counter is printed. *)
Theorem negative_assoc_fails_assertion (s b assoc : Z)
    (malloc_tag : nat -> nat -> Z) (c : ascii) (a : Z) (rest : list scan) :
  0 <= s <= 30 -> 0 <= b -> s + b <= 63 -> assoc < 0 -> c <> "I"%char ->
  main s b assoc malloc_tag (mk_scan 2 c a :: rest) = Fault assertion_failed.
Proof.
  intros [Hs _] _ _ HE HI. apply Ascii.eqb_neq in HI.
  pose proof (decode_index_range s b a Hs) as Hidx.
  unfold main. rewrite replay_cons.
  change (items (mk_scan 2 c a) =? 2) with true. cbv iota.
  change (access_type (mk_scan 2 c a)) with c.
  change (address (mk_scan 2 c a)) with a.
  unfold loop_body. rewrite HI.
  destruct (decode s b a) as [t idx]. simpl snd in Hidx.
  unfold array_get. destruct (idx <? 0) eqn:Hneg; [lia |].
  destruct (lookup_lt_is_Some_2 (cache (init s assoc malloc_tag))
              (Z.to_nat idx)) as [set Hset].
  { cbn [cache init]. unfold init_cache.
    rewrite length_map, length_seq. lia. }
  rewrite Hset. rewrite !result_bind_Ok.
  assert (Set_access set assoc t = Fault assertion_failed) as ->; [| done].
  unfold Set_access, cache_lookup.
  replace (Z.to_nat assoc) with 0%nat by lia. rewrite take_0.
  cbn [find_hit find_slot].
  assert ((-1 =? assoc - 1) = false) as -> by (apply Z.eqb_neq; lia).
  done.
Qed.

Lemma negative_assoc_fails_assertion_witness :
  (0 <= 2 <= 30 /\ 0 <= 3 /\ 2 + 3 <= 63 /\ -1 < 0 /\
   "L"%char <> "I"%char) /\
  main 2 3 (-1) (fun _ _ => 0) (mk_scan 2 "L" 64 :: [L 0])
  = Fault assertion_failed.
Proof.
  assert (0 <= 2 <= 30 /\ 0 <= 3 /\ 2 + 3 <= 63 /\ -1 < 0 /\
          "L"%char <> "I"%char) as H.
  { split; [lia |]. split; [lia |]. split; [lia |].
    split; [lia | discriminate]. }
  split; [exact H |].
  destruct H as (H1 & H2 & H3 & H4 & H5).
  exact (negative_assoc_fails_assertion 2 3 (-1) (fun _ _ => 0) "L" 64 [L 0]
           H1 H2 H3 H4 H5).
Defined.

(** ** The command line *)

Lemma find_snoc {A : Type} (f : A -> bool) (l : list A) (x : A) :
  List.find f (l ++ [x])
  = match List.find f l with
    | Some y => Some y
    | None => if f x then Some x else None
    end.
Proof.
  induction l as [| y l IH]; simpl; [done |].
  destruct (f y); [done | apply IH].
Qed.

Lemma last_arg_cons c call calls :
  last_arg c (call :: calls)
  = match last_arg c calls with
    | Some x => Some x
    | None => if Ascii.eqb (opt call) c then Some (optarg call) else None
    end.
Proof.
  unfold last_arg. simpl rev. rewrite find_snoc.
  destruct (List.find _ (rev calls)); [done |].
  by destruct (Ascii.eqb (opt call) c).
Qed.

(** What the loop over the options leaves in the locals, for any values
    [o] they had before. *)
Lemma getopt_loop_from calls o :
  let o' := fold_left getopt_case calls o in
  sflag o' = sflag o || given "s" calls /\
  Eflag o' = Eflag o || given "E" calls /\
  bflag o' = bflag o || given "b" calls /\
  tflag o' = tflag o || given "t" calls /\
  err_flag o' = err_flag o || given "?" calls /\
  sname o' = from_option Some (sname o) (last_arg "s" calls) /\
  Ename o' = from_option Some (Ename o) (last_arg "E" calls) /\
  bname o' = from_option Some (bname o) (last_arg "b" calls) /\
  trace_file o' = from_option Some (trace_file o) (last_arg "t" calls).
Proof.
  revert o. induction calls as [| call calls IH]; intros o.
  - simpl. rewrite !orb_false_r. done.
  - simpl fold_left. specialize (IH (getopt_case o call)). simpl in IH.
    destruct IH as (Hs & HE & Hb & Ht & Herr & Hsn & HEn & Hbn & Htf).
    cbv zeta. rewrite Hs, HE, Hb, Ht, Herr, Hsn, HEn, Hbn, Htf.
    rewrite !last_arg_cons. unfold given. simpl existsb.
    unfold getopt_case.
    destruct (Ascii.eqb (opt call) "s") eqn:Es;
      [apply Ascii.eqb_eq in Es; rewrite Es |
       destruct (Ascii.eqb (opt call) "E") eqn:EE;
       [apply Ascii.eqb_eq in EE; rewrite EE |
        destruct (Ascii.eqb (opt call) "b") eqn:Eb;
        [apply Ascii.eqb_eq in Eb; rewrite Eb |
         destruct (Ascii.eqb (opt call) "t") eqn:Et;
         [apply Ascii.eqb_eq in Et; rewrite Et |
          destruct (Ascii.eqb (opt call) "?") eqn:Eq]]]];
      destruct (last_arg "s" calls), (last_arg "E" calls),
        (last_arg "b" calls), (last_arg "t" calls);
      simpl; rewrite ?orb_true_r, ?orb_false_r; done.
Qed.

Lemma given_last_arg c calls :
  given c calls = true -> exists x, last_arg c calls = Some x.
Proof.
  induction calls as [| call calls IH]; [done |].
  unfold given in *. simpl. rewrite last_arg_cons.
  destruct (last_arg c calls) as [x |]; [eauto |].
  destruct (Ascii.eqb (opt call) c); [eauto |].
  simpl. intros H. by destruct (IH H).
Qed.

(** [main] returns -1, without opening the trace, exactly when one of the
    options [s], [E], [b], [t] is missing, whether or not an unknown option
    was given; it returns -2, without opening the trace, exactly when the
    four are given and [getopt] reported an unknown option. *)
Theorem main_argv_status (atoi : String.string -> Z)
    (fopen : String.string -> option (list scan))
    (malloc_tag : nat -> nat -> Z) (calls : list getopt_call) :
  (main_argv atoi fopen malloc_tag calls = Exit (-1) None
   <-> given "s" calls && given "E" calls && given "b" calls
       && given "t" calls = false) /\
  (main_argv atoi fopen malloc_tag calls = Exit (-2) None
   <-> given "s" calls && given "E" calls && given "b" calls
       && given "t" calls = true /\ given "?" calls = true).
Proof.
  unfold main_argv, getopt_loop.
  destruct (getopt_loop_from calls no_options)
    as (Hs & HE & Hb & Ht & Herr & Hsn & HEn & Hbn & Htf).
  rewrite Hs, HE, Hb, Ht, Herr, Hsn, HEn, Hbn, Htf. simpl orb.
  destruct (given "s" calls) eqn:Gs;
    [| simpl; split; split; (done || by intros [? ?])].
  destruct (given "E" calls) eqn:GE;
    [| simpl; split; split; (done || by intros [? ?])].
  destruct (given "b" calls) eqn:Gb;
    [| simpl; split; split; (done || by intros [? ?])].
  destruct (given "t" calls) eqn:Gt;
    [| simpl; split; split; (done || by intros [? ?])].
  simpl.
  destruct (given "?" calls) eqn:Gq;
    [split; split; (done || by intros [? ?]) |].
  destruct (given_last_arg _ _ Gs) as [sn ->].
  destruct (given_last_arg _ _ GE) as [En ->].
  destruct (given_last_arg _ _ Gb) as [bn ->].
  destruct (given_last_arg _ _ Gt) as [tf ->].
  simpl.
  destruct (fopen tf) as [trace |].
  - destruct (main (atoi sn) (atoi bn) (atoi En) malloc_tag trace);
      split; split; (done || by intros [? ?]).
  - split; split; (done || by intros [? ?]).
Qed.

(** When the four options are given and none is unknown, [main] runs the
    simulation with, for each option, the last argument given for it (an
    earlier one is overwritten, and the order of the options does not
    matter): it returns 0 with the counters, or is aborted by the fault of
    the replay, or reads through a null [FILE *] when the trace cannot be
    opened. *)
Theorem main_argv_last_arguments (atoi : String.string -> Z)
    (fopen : String.string -> option (list scan))
    (malloc_tag : nat -> nat -> Z) (calls : list getopt_call)
    (sn En bn tf : String.string) :
  last_arg "s" calls = Some sn -> last_arg "E" calls = Some En ->
  last_arg "b" calls = Some bn -> last_arg "t" calls = Some tf ->
  given "?" calls = false ->
  main_argv atoi fopen malloc_tag calls
  = match fopen tf with
    | None => NullFile
    | Some trace =>
        match main (atoi sn) (atoi bn) (atoi En) malloc_tag trace with
        | Ok counters => Exit 0 (Some counters)
        | Fault f => Abort f
        end
    end.
Proof.
  intros Hsn HEn Hbn Htf Hq.
  assert (forall c x, last_arg c calls = Some x -> given c calls = true)
    as Hgiven.
  { intros c. clear. induction calls as [| call calls IH]; intros x; [done |].
    rewrite last_arg_cons. unfold given in *. simpl.
    destruct (last_arg c calls) as [y |].
    - intros _. rewrite (IH y eq_refl). apply orb_true_r.
    - by destruct (Ascii.eqb (opt call) c). }
  unfold main_argv, getopt_loop.
  destruct (getopt_loop_from calls no_options)
    as (Hs & HE & Hb & Ht & Herr & Hsn' & HEn' & Hbn' & Htf').
  rewrite Hs, HE, Hb, Ht, Herr, Hsn', HEn', Hbn', Htf'.
  rewrite (Hgiven _ _ Hsn), (Hgiven _ _ HEn), (Hgiven _ _ Hbn),
    (Hgiven _ _ Htf), Hq, Hsn, HEn, Hbn, Htf.
  reflexivity.
Qed.

Lemma main_argv_last_arguments_witness :
  (last_arg "s" calls_sEbt = Some "1"%string /\
   last_arg "E" calls_sEbt = Some "2"%string /\
   last_arg "b" calls_sEbt = Some "3"%string /\
   last_arg "t" calls_sEbt = Some "yi.trace"%string /\
   given "?" calls_sEbt = false) /\
  main_argv (fun _ => 1) (fun _ => Some [L 0; M 8]) (fun _ _ => 0)
    calls_sEbt
  = match (fun _ : String.string => Some [L 0; M 8]) "yi.trace"%string with
    | None => NullFile
    | Some trace =>
        match main ((fun _ => 1) "1"%string) ((fun _ => 1) "3"%string)
                ((fun _ => 1) "2"%string) (fun _ _ => 0) trace with
        | Ok counters => Exit 0 (Some counters)
        | Fault f => Abort f
        end
    end.
Proof.
  assert (last_arg "s" calls_sEbt = Some "1"%string /\
          last_arg "E" calls_sEbt = Some "2"%string /\
          last_arg "b" calls_sEbt = Some "3"%string /\
          last_arg "t" calls_sEbt = Some "yi.trace"%string /\
          given "?" calls_sEbt = false) as H.
  { repeat split; reflexivity. }
  split; [exact H |].
  destruct H as (H1 & H2 & H3 & H4 & H5).
  exact (main_argv_last_arguments (fun _ => 1) (fun _ => Some [L 0; M 8])
           (fun _ _ => 0) calls_sEbt _ _ _ _ H1 H2 H3 H4 H5).
Defined.
(** * Properties of trans.c *)

Lemma to_int_id (z : Z) : -2147483648 <= z <= INT_MAX -> to_int z = z.
Proof.
  unfold INT_MAX, to_int, wrap. intros H.
  change (2 ^ (32 - 1)) with 2147483648. change (2 ^ 32) with 4294967296.
  rewrite Z.mod_small; lia.
Qed.

Lemma min_Zmin (a b : Z) : min a b = Z.min a b.
Proof. unfold min. destruct (Z.ltb_spec a b); lia. Qed.

Lemma has_shape_spec rows cols (A : matrix) :
  has_shape rows cols A = true
  <-> Z.of_nat (length A) = rows
      /\ Forall (fun row => Z.of_nat (length row) = cols) A.
Proof.
  unfold has_shape. rewrite andb_true_iff, Z.eqb_eq, forallb_forall.
  rewrite Forall_forall. split; intros [H1 H2]; split; try done.
  - intros row Hin. apply Z.eqb_eq, H2. by apply list_elem_of_In.
  - intros row Hin. apply Z.eqb_eq, H2. by apply list_elem_of_In.
Qed.

Lemma has_shape_nonneg rows cols A :
  has_shape rows cols A = true -> 0 <= rows.
Proof. rewrite has_shape_spec. lia. Qed.

(** Inside a matrix every cell can be read. *)
Lemma load_inside rows cols A i j :
  has_shape rows cols A = true -> 0 <= i < rows -> 0 <= j < cols ->
  exists x, load A i j = Done x.
Proof.
  rewrite has_shape_spec. intros [Hlen Hrows] Hi Hj. unfold load.
  replace (0 <=? i) with true by (symmetry; apply Z.leb_le; lia).
  replace (0 <=? j) with true by (symmetry; apply Z.leb_le; lia).
  cbn [andb].
  destruct (lookup_lt_is_Some_2 A (Z.to_nat i)) as [row Hrow]; [lia |].
  rewrite Hrow.
  assert (Z.of_nat (length row) = cols) as Hc.
  { rewrite Forall_forall in Hrows. apply Hrows.
    apply list_elem_of_lookup. eauto. }
  destruct (lookup_lt_is_Some_2 row (Z.to_nat j)) as [x Hx]; [lia |].
  rewrite Hx. eauto.
Qed.

(** A store inside a matrix keeps its shape, is read back, and leaves every
    other cell as it was. *)
Lemma store_inside rows cols B i j x :
  has_shape rows cols B = true -> 0 <= i < rows -> 0 <= j < cols ->
  exists B', store B i j x = Done B' /\
    has_shape rows cols B' = true /\
    load B' i j = Done x /\
    forall i' j', (i' <> i \/ j' <> j) -> load B' i' j' = load B i' j'.
Proof.
  intros Hshape Hi Hj.
  pose proof Hshape as [Hlen Hrows]%has_shape_spec. unfold store.
  replace (0 <=? i) with true by (symmetry; apply Z.leb_le; lia).
  replace (0 <=? j) with true by (symmetry; apply Z.leb_le; lia).
  cbn [andb].
  destruct (lookup_lt_is_Some_2 B (Z.to_nat i)) as [row Hrow]; [lia |].
  rewrite Hrow.
  assert (Z.of_nat (length row) = cols) as Hc.
  { rewrite Forall_forall in Hrows. apply Hrows.
    apply list_elem_of_lookup. eauto. }
  destruct (lookup_lt_is_Some_2 row (Z.to_nat j)) as [y Hy]; [lia |].
  rewrite Hy. eexists. split; [reflexivity |].
  split; [| split].
  - apply has_shape_spec. rewrite length_insert. split; [done |].
    apply Forall_insert; [done |]. rewrite length_insert. done.
  - unfold load.
    replace (0 <=? i) with true by (symmetry; apply Z.leb_le; lia).
    replace (0 <=? j) with true by (symmetry; apply Z.leb_le; lia).
    cbn [andb]. rewrite list_lookup_insert_eq by lia.
    rewrite list_lookup_insert_eq by lia. done.
  - intros i' j' Hne. unfold load.
    destruct (0 <=? i') eqn:Hi'; [| done].
    destruct (0 <=? j') eqn:Hj'; [| done].
    apply Z.leb_le in Hi', Hj'. cbn [andb].
    destruct (decide (i' = i)) as [-> | Hii].
    + rewrite list_lookup_insert_eq by lia. rewrite Hrow.
      rewrite list_lookup_insert_ne by lia. done.
    + rewrite list_lookup_insert_ne by lia. done.
Qed.

(** ** Loops *)

Lemma for_up_nil {St : Type} lo hi (body : Z -> St -> run St) st :
  hi <= lo -> for_up lo hi body st = Done st.
Proof.
  intros H. unfold for_up, seqZ.
  replace (Z.to_nat (hi - lo)) with 0%nat by lia. done.
Qed.

Lemma for_up_cons {St : Type} lo hi (body : Z -> St -> run St) st :
  lo < hi ->
  for_up lo hi body st = (st' ← body lo st; for_up (lo + 1) hi body st').
Proof.
  intros H. unfold for_up. rewrite seqZ_cons by lia. simpl.
  replace (Z.succ lo) with (lo + 1) by lia.
  replace (Z.pred (hi - lo)) with (hi - (lo + 1)) by lia. done.
Qed.

(** A loop with unit step: an invariant indexed by the loop variable. *)
Lemma for_up_inv {St : Type} (I : Z -> St -> Prop) lo hi
    (body : Z -> St -> run St) st :
  lo <= hi -> I lo st ->
  (forall x s, lo <= x < hi -> I x s ->
     exists s', body x s = Done s' /\ I (x + 1) s') ->
  exists st', for_up lo hi body st = Done st' /\ I hi st'.
Proof.
  intros Hle. remember (Z.to_nat (hi - lo)) as n eqn:Hn.
  revert lo st Hle Hn. induction n as [| n IH]; intros lo st Hle Hn H0 Hbody.
  - assert (hi = lo) as -> by lia. rewrite for_up_nil by lia. eauto.
  - rewrite for_up_cons by lia.
    destruct (Hbody lo st) as (s' & -> & Hs'); [lia | done |]. simpl.
    apply IH; [lia | lia | done |].
    intros x s Hx. apply Hbody. lia.
Qed.

(** A loop with a step of at least one ends within [hi - x] iterations. *)
Lemma for_step_inv {St : Type} (I : Z -> St -> Prop) fuel x hi step
    (body : Z -> St -> run St) st :
  1 <= step -> hi + step <= INT_MAX -> 0 <= x ->
  hi - x <= Z.of_nat fuel -> I x st ->
  (forall y s, x <= y < hi -> I y s ->
     exists s', body y s = Done s' /\ I (y + step) s') ->
  exists st' x', for_step fuel x hi step body st = Done st' /\
    hi <= x' /\ I x' st'.
Proof.
  intros Hstep Hmax. revert x st.
  induction fuel as [| fuel IH]; intros x st Hx Hfuel H0 Hbody.
  - simpl. destruct (Z.ltb_spec x hi); [lia |]. eauto.
  - simpl. destruct (Z.ltb_spec x hi) as [Hlt |]; [| eauto].
    destruct (Hbody x st) as (s' & -> & Hs'); [lia | done |]. simpl.
    rewrite to_int_id by (unfold INT_MAX in *; lia).
    apply IH; [lia | lia | done |].
    intros y s Hy. apply Hbody. lia.
Qed.

(** A loop with step zero does not end. *)
Lemma for_step_zero {St : Type} fuel hi (body : Z -> St -> run St) st :
  0 < hi -> (forall s, body 0 s = Done s) ->
  for_step fuel 0 hi 0 body st = Stop out_of_fuel.
Proof.
  intros Hhi Hbody. induction fuel as [| fuel IH]; simpl.
  - by destruct (Z.ltb_spec 0 hi); [| lia].
  - destruct (Z.ltb_spec 0 hi); [| lia]. rewrite Hbody. simpl.
    exact IH.
Qed.

(** ** Cells that hold the transpose *)

Lemma done_on_weaken M N A B (R R' : Z -> Z -> Prop) :
  done_on M N A B R ->
  (forall i j, 0 <= i < N -> 0 <= j < M -> R' i j -> R i j) ->
  done_on M N A B R'.
Proof.
  intros [Hshape Hcells] Hsub. split; [done |].
  intros i j Hi Hj HR. apply Hcells; auto.
Qed.

(** The assignment [B[jb][ib] = A[ib][jb]] adds the cell to those done and
    undoes none. *)
Lemma store_done_on M N A B (R : Z -> Z -> Prop) ib jb :
  has_shape N M A = true -> done_on M N A B R ->
  0 <= ib < N -> 0 <= jb < M ->
  exists x B', load A ib jb = Done x /\ store B jb ib x = Done B' /\
    done_on M N A B' (fun i j => R i j \/ (i = ib /\ j = jb)).
Proof.
  intros HA [HB Hcells] Hib Hjb.
  destruct (load_inside N M A ib jb HA Hib Hjb) as [x Hx].
  destruct (store_inside M N B jb ib x HB Hjb Hib)
    as (B' & HB' & Hshape' & Hread & Hother).
  exists x, B'. split; [done |]. split; [done |]. split; [done |].
  intros i j Hi Hj HR.
  destruct (decide (i = ib /\ j = jb)) as [[-> ->] | Hne].
  - by rewrite Hread, Hx.
  - rewrite Hother by lia. apply Hcells; [done | done |].
    destruct HR as [HR | HR]; [done | tauto].
Qed.

(** ** The loop nest of the blocked functions *)

Section Nest.

Context {St : Type} (getB : St -> matrix) (good : St -> Prop).
Variables (A : matrix) (M N block_dim : Z).
Variable row : Z -> Z -> St -> run St.

Hypothesis Hbd : 1 <= block_dim.
Hypothesis HN : N + block_dim <= INT_MAX.
Hypothesis HM : M + block_dim <= INT_MAX.

(** What a row of a block has to do: add the cells of row [ib] in the
    columns of the block to those done. *)
Hypothesis row_spec : forall ib j st (R : Z -> Z -> Prop),
  0 <= ib < N -> 0 <= j < M -> good st -> done_on M N A (getB st) R ->
  exists st', row ib j st = Done st' /\ good st' /\
    done_on M N A (getB st')
      (fun i' j' => R i' j' \/ (i' = ib /\ j <= j' < j + block_dim)).

Lemma nest_transposes fuel st :
  N <= Z.of_nat fuel -> M <= Z.of_nat fuel ->
  good st -> has_shape M N (getB st) = true ->
  exists st', nest fuel M N block_dim row st = Done st' /\ good st' /\
    transposed M N A (getB st').
Proof.
  intros HfN HfM Hgood Hshape. unfold nest.
  destruct (for_step_inv
    (fun i st => good st /\ done_on M N A (getB st) (fun i' _ => i' < i))
    fuel 0 N block_dim
    (fun i st =>
       for_step fuel 0 M block_dim (fun j st =>
         for_up i (min (to_int (i + block_dim)) N) (fun ib st =>
           row ib j st) st) st) st)
    as (st' & x' & Hrun & Hx' & Hgood' & Hdone'); try lia.
  { split; [done |]. split; [done |]. intros; lia. }
  { intros i s Hi [Hg Hd].
    destruct (for_step_inv
      (fun j st => good st /\
         done_on M N A (getB st)
           (fun i' j' => i' < i \/ (i' < i + block_dim /\ j' < j)))
      fuel 0 M block_dim
      (fun j st =>
         for_up i (min (to_int (i + block_dim)) N) (fun ib st =>
           row ib j st) st) s)
      as (s' & y' & Hrun & Hy' & Hg' & Hd'); try lia.
    { split; [done |]. eapply done_on_weaken; [exact Hd |].
      simpl. intros; lia. }
    { intros j s1 Hj [Hg1 Hd1].
      rewrite to_int_id by (unfold INT_MAX in *; lia). rewrite min_Zmin.
      destruct (for_up_inv
        (fun ib st => good st /\
           done_on M N A (getB st)
             (fun i' j' => i' < i \/ (i' < i + block_dim /\ j' < j)
                           \/ (i <= i' < ib /\ j <= j' < j + block_dim)))
        i (Z.min (i + block_dim) N) (fun ib st => row ib j st) s1)
        as (s2 & Hrun2 & Hg2 & Hd2); try lia.
      { split; [done |]. eapply done_on_weaken; [exact Hd1 |].
        simpl. intros; lia. }
      { intros ib s3 Hib [Hg3 Hd3].
        destruct (row_spec ib j s3 _ ltac:(lia) Hj Hg3 Hd3)
          as (s4 & Hrow & Hg4 & Hd4).
        exists s4. split; [done |]. split; [done |].
        eapply done_on_weaken; [exact Hd4 |]. simpl. intros; lia. }
      exists s2. split; [done |]. split; [done |].
      eapply done_on_weaken; [exact Hd2 |]. simpl. intros; lia. }
    exists s'. split; [done |]. split; [done |].
    eapply done_on_weaken; [exact Hd' |]. simpl. intros; lia. }
  exists st'. split; [done |]. split; [done |].
  destruct Hdone' as [Hs Hc]. split; [done |].
  intros i j Hi Hj. apply Hc; [done | done | lia].
Qed.

End Nest.

(** ** Rows *)

(** The row of [trans] and of [transpose_blocking]. *)
Lemma copying_row_spec M N A hi ib j B (R : Z -> Z -> Prop) :
  has_shape N M A = true -> 0 <= ib < N -> 0 <= j <= hi -> hi <= M ->
  done_on M N A B R ->
  exists B',
    for_up j hi (fun jb B => x ← load A ib jb; store B jb ib x) B = Done B' /\
    done_on M N A B' (fun i' j' => R i' j' \/ (i' = ib /\ j <= j' < hi)).
Proof.
  intros HA Hib Hj Hhi Hd.
  apply (for_up_inv
    (fun jb B => done_on M N A B
       (fun i' j' => R i' j' \/ (i' = ib /\ j <= j' < jb)))); [lia | |].
  - eapply done_on_weaken; [exact Hd |]. simpl. intros i' j' _ _ [H | H];
      [done | lia].
  - intros jb B1 Hjb Hd1.
    destruct (store_done_on M N A B1 _ ib jb HA Hd1)
      as (x & B2 & Hx & HB2 & Hd2); [lia | lia |].
    exists B2. rewrite Hx. simpl. split; [done |].
    eapply done_on_weaken; [exact Hd2 |]. simpl.
    intros i' j' _ _ [H | H]; [tauto |].
    destruct (decide (j' = jb)) as [-> | Hne]; [right; lia | left; right; lia].
Qed.

(** The row of [transpose_submit] and of [transpose_square_matrix], when at
    most one cell of the row is deferred. *)
Lemma deferring_row_spec direct M N A hi ib j st (R : Z -> Z -> Prop) :
  has_shape N M A = true -> 0 <= ib < N -> 0 <= j <= hi -> hi <= M ->
  (forall x y, j <= x < hi -> j <= y < hi ->
     direct ib x = false -> direct ib y = false -> x = y) ->
  diag_flag st = false -> done_on M N A (mat st) R ->
  exists st', deferring_row direct A hi ib j st = Done st' /\
    diag_flag st' = false /\
    done_on M N A (mat st')
      (fun i' j' => R i' j' \/ (i' = ib /\ j <= j' < hi)).
Proof.
  intros HA Hib Hj Hhi Hone Hflag Hd. unfold deferring_row.
  destruct (for_up_inv
    (fun jb st =>
       done_on M N A (mat st)
         (fun i' j' => R i' j' \/
            (i' = ib /\ j <= j' < jb /\ direct ib j' = true)) /\
       (diag_flag st = false ->
          forall j', j <= j' < jb -> direct ib j' = true) /\
       (diag_flag st = true ->
          idx1 st = ib /\ j <= idx2 st < jb /\ direct ib (idx2 st) = false))
    j hi
    (fun jb st =>
       if direct ib jb then
         x ← load A ib jb;
         B' ← store (mat st) jb ib x;
         Done (mk_locals B' (diag_flag st) (idx1 st) (idx2 st))
       else Done (mk_locals (mat st) true ib jb)) st)
    as (st1 & -> & Hd1 & Hnone & Hsome); [lia | | |].
  - split; [| split].
    + eapply done_on_weaken; [exact Hd |]. simpl.
      intros i' j' _ _ [H | H]; [done | lia].
    + intros _ j' Hj'. lia.
    + rewrite Hflag. done.
  - intros jb s Hjb (Hds & Hn & Hs).
    destruct (direct ib jb) eqn:Hdir.
    + destruct (store_done_on M N A (mat s) _ ib jb HA Hds)
        as (x & B2 & Hx & HB2 & Hd2); [lia | lia |].
      rewrite Hx. simpl. rewrite HB2. simpl. eexists. split; [done |].
      simpl. split; [| split].
      * eapply done_on_weaken; [exact Hd2 |]. simpl.
        intros i' j' _ _ [H | (-> & Hj' & Hdir')]; [tauto |].
        destruct (decide (j' = jb)) as [-> | Hne]; [by right |].
        left. right. split; [done |]. split; [lia | done].
      * intros Hf j' Hj'. destruct (decide (j' = jb)) as [-> | Hne];
          [done |]. apply Hn; [done | lia].
      * intros Hf. destruct (Hs Hf) as (H1 & H2 & H3).
        split; [done |]. split; [lia | done].
    + eexists. split; [done |]. simpl. split; [| split].
      * eapply done_on_weaken; [exact Hds |]. simpl.
        intros i' j' _ _ [H | (-> & Hj' & Hdir')]; [tauto |].
        right. split; [done |]. split; [| done].
        destruct (decide (j' = jb)) as [-> | Hne]; [congruence | lia].
      * done.
      * intros _. split; [done |]. split; [lia | done].
  - simpl. destruct (diag_flag st1) eqn:Hf.
    + destruct (Hsome eq_refl) as (H1 & H2 & H3).
      destruct (store_done_on M N A (mat st1) _ (idx1 st1) (idx2 st1) HA Hd1)
        as (x & B2 & Hx & HB2 & Hd2); [lia | lia |].
      rewrite Hx. simpl. rewrite HB2. simpl. eexists. split; [done |].
      simpl. split; [done |].
      eapply done_on_weaken; [exact Hd2 |]. simpl.
      intros i' j' _ _ [H | (-> & Hj')]; [tauto |].
      destruct (direct ib j') eqn:Hdir.
      * left. right. tauto.
      * right. split; [by rewrite H1 |].
        apply Hone; [lia | lia | done | done].
    + exists st1. split; [done |]. split; [done |].
      eapply done_on_weaken; [exact Hd1 |]. simpl.
      intros i' j' _ _ [H | (-> & Hj')]; [tauto |].
      right. split; [done |]. split; [done |]. by apply Hnone.
Qed.

(** ** The three blocked functions as instances of the loop nest *)

Lemma transpose_blocking_nest fuel M N A B :
  transpose_blocking fuel M N A B
  = (block_dim ← int_div 32 (M ÷ 8);
     nest fuel M N block_dim (fun ib j B =>
       for_up j (min (to_int (j + block_dim)) M) (fun jb B =>
         x ← load A ib jb; store B jb ib x) B) B).
Proof. reflexivity. Qed.

Lemma transpose_submit_nest fuel M N A B u1 u2 :
  transpose_submit fuel M N A B u1 u2
  = (block_dim ← (if M =? N then int_div 32 (M ÷ 8) else Done 18);
     st ← nest fuel M N block_dim (fun ib j st =>
       deferring_row (direct_submit M) A (min (to_int (j + block_dim)) M)
         ib j st) (mk_locals B false u1 u2);
     Done (mat st)).
Proof. reflexivity. Qed.

Lemma transpose_square_matrix_nest fuel M N A B u1 u2 :
  transpose_square_matrix fuel M N A B u1 u2
  = (block_dim ← int_div 32 (M ÷ 8);
     st ← nest fuel M N block_dim (fun ib j st =>
       deferring_row (direct_square M) A (min (to_int (j + block_dim)) M)
         ib j st) (mk_locals B false u1 u2);
     Done (mat st)).
Proof. reflexivity. Qed.

(** The block size [32 / (M / 8)]. *)
Lemma block_dim_range M :
  8 <= M <= 263 ->
  exists block_dim, int_div 32 (M ÷ 8) = Done block_dim /\
    1 <= block_dim <= 32 /\ (56 <= M -> block_dim <= 4).
Proof.
  intros HM. unfold int_div.
  rewrite (Z.quot_div_nonneg M 8) by lia.
  assert (1 <= M / 8 <= 32) as Hq.
  { split; [apply Z.div_le_lower_bound; lia |].
    apply Z.lt_succ_r, Z.div_lt_upper_bound; lia. }
  destruct (Z.eqb_spec (M / 8) 0) as [H0 | _]; [lia |].
  eexists. split; [reflexivity |].
  rewrite (Z.quot_div_nonneg 32 (M / 8)) by lia.
  split; [split |].
  - apply Z.div_le_lower_bound; lia.
  - apply Z.lt_succ_r, Z.div_lt_upper_bound; lia.
  - intros H56. assert (7 <= M / 8) by (apply Z.div_le_lower_bound; lia).
    apply Z.lt_succ_r, Z.div_lt_upper_bound; lia.
Qed.

Lemma direct_submit_false M ib jb :
  0 <= jb -> jb + 4 <= INT_MAX -> direct_submit M ib jb = false ->
  ib = jb \/ (M = 64 /\ (ib = jb - 4 \/ ib = jb + 4)).
Proof.
  intros H0 Hmax. unfold direct_submit.
  rewrite !to_int_id by (unfold INT_MAX in *; lia).
  destruct (Z.eqb_spec ib jb); [auto |].
  destruct (Z.eqb_spec M 64); [| done].
  destruct (Z.eqb_spec ib (jb - 4)); [auto |].
  destruct (Z.eqb_spec ib (jb + 4)); [auto | done].
Qed.

Lemma direct_square_false M ib jb :
  0 <= jb -> jb + 4 <= INT_MAX -> direct_square M ib jb = false ->
  ib = jb \/ (M <> 32 /\ (ib = jb - 4 \/ ib = jb + 4)).
Proof.
  intros H0 Hmax. unfold direct_square.
  rewrite !to_int_id by (unfold INT_MAX in *; lia).
  destruct (Z.eqb_spec ib jb); [auto |].
  destruct (Z.eqb_spec M 32); [done |].
  destruct (Z.eqb_spec ib (jb - 4)); [auto |].
  destruct (Z.eqb_spec ib (jb + 4)); [auto | done].
Qed.

(** The loop nest with deferred cells, when at most one cell of a row of a
    block is deferred. *)
Lemma deferring_nest_transposes direct fuel M N block_dim A B u1 u2 :
  has_shape N M A = true -> has_shape M N B = true ->
  1 <= block_dim -> N + block_dim <= INT_MAX -> M + block_dim <= INT_MAX ->
  N <= Z.of_nat fuel -> M <= Z.of_nat fuel ->
  (forall ib j x y, 0 <= j -> j <= x < j + block_dim ->
     j <= y < j + block_dim -> x < M -> y < M ->
     direct ib x = false -> direct ib y = false -> x = y) ->
  exists st',
    nest fuel M N block_dim (fun ib j st =>
      deferring_row direct A (min (to_int (j + block_dim)) M) ib j st)
      (mk_locals B false u1 u2) = Done st' /\
    transposed M N A (mat st').
Proof.
  intros HA HB Hbd HN HM HfN HfM Hone.
  destruct (nest_transposes mat (fun st => diag_flag st = false) A M N
              block_dim
              (fun ib j st =>
                 deferring_row direct A (min (to_int (j + block_dim)) M)
                   ib j st) Hbd HN HM) with (fuel := fuel)
              (st := mk_locals B false u1 u2)
    as (st' & Hrun & _ & Ht); try done.
  - intros ib j st R Hib Hj Hflag Hd.
    rewrite to_int_id by (unfold INT_MAX in *; lia). rewrite min_Zmin.
    destruct (deferring_row_spec direct M N A (Z.min (j + block_dim) M)
                ib j st R HA Hib) as (st' & Hrow & Hflag' & Hd');
      [lia | lia | | done | done |].
    + intros x y Hx Hy. apply (Hone ib j); lia.
    + exists st'. split; [done |]. split; [done |].
      eapply done_on_weaken; [exact Hd' |]. simpl.
      intros i' j' _ Hj' [H | H]; [tauto | right; lia].
  - eauto.
Qed.

(** ** Matrices are determined by their cells *)

Lemma matrix_ext rows cols (A1 A2 : matrix) :
  has_shape rows cols A1 = true -> has_shape rows cols A2 = true ->
  (forall i j, 0 <= i < rows -> 0 <= j < cols -> load A1 i j = load A2 i j) ->
  A1 = A2.
Proof.
  intros H1 H2 Hcells.
  pose proof H1 as [Hlen1 Hrows1]%has_shape_spec.
  pose proof H2 as [Hlen2 Hrows2]%has_shape_spec.
  rewrite Forall_forall in Hrows1, Hrows2.
  apply list_eq. intros i.
  destruct (decide (i < length A1)%nat) as [Hi | Hi].
  - destruct (lookup_lt_is_Some_2 A1 i) as [r1 Hr1]; [done |].
    destruct (lookup_lt_is_Some_2 A2 i) as [r2 Hr2]; [lia |].
    rewrite Hr1, Hr2. f_equal.
    assert (Z.of_nat (length r1) = cols) as Hc1.
    { apply Hrows1, list_elem_of_lookup. eauto. }
    assert (Z.of_nat (length r2) = cols) as Hc2.
    { apply Hrows2, list_elem_of_lookup. eauto. }
    apply list_eq. intros j.
    destruct (decide (j < length r1)%nat) as [Hj | Hj].
    + specialize (Hcells (Z.of_nat i) (Z.of_nat j) ltac:(lia) ltac:(lia)).
      unfold load in Hcells.
      replace (0 <=? Z.of_nat i) with true in Hcells
        by (symmetry; apply Z.leb_le; lia).
      replace (0 <=? Z.of_nat j) with true in Hcells
        by (symmetry; apply Z.leb_le; lia).
      cbn [andb] in Hcells. rewrite !Nat2Z.id, Hr1, Hr2 in Hcells.
      destruct (lookup_lt_is_Some_2 r1 j) as [x1 Hx1]; [done |].
      destruct (lookup_lt_is_Some_2 r2 j) as [x2 Hx2]; [lia |].
      rewrite Hx1, Hx2 in Hcells. rewrite Hx1, Hx2. congruence.
    + rewrite !lookup_ge_None_2 by lia. done.
  - rewrite !lookup_ge_None_2 by lia. done.
Qed.

(** ** [trans] *)

(** The loops of [trans] end with every row of [A] copied. *)
Lemma trans_done_on (M N : Z) (A B : matrix) :
  has_shape N M A = true -> has_shape M N B = true ->
  exists B', trans M N A B = Done B' /\
    done_on M N A B' (fun i _ => i < N).
Proof.
  intros HA HB. unfold trans.
  pose proof (has_shape_nonneg _ _ _ HA) as HN.
  pose proof (has_shape_nonneg _ _ _ HB) as HM.
  apply (for_up_inv (fun i B => done_on M N A B (fun i' _ => i' < i)));
    [done | |].
  - split; [done |]. intros; lia.
  - intros i B1 Hi Hd.
    destruct (copying_row_spec M N A M i 0 B1 _ HA Hi ltac:(lia) ltac:(lia) Hd)
      as (B2 & Hrow & Hd2).
    exists B2. split; [done |].
    eapply done_on_weaken; [exact Hd2 |]. simpl. intros; lia.
Qed.

(** [trans] returns, for an [N] x [M] matrix [A] and any [M] x [N] matrix
    [B], the transpose of [A]: an [M] x [N] matrix whose cell [(j, i)] is
    the cell [(i, j)] of [A]; no access leaves the arrays. *)
Theorem trans_transposes (M N : Z) (A B : matrix) :
  has_shape N M A = true -> has_shape M N B = true ->
  exists B', trans M N A B = Done B' /\ transposed M N A B'.
Proof.
  intros HA HB.
  destruct (trans_done_on M N A B HA HB) as (B' & Hrun & Hshape & Hcells).
  exists B'. split; [exact Hrun |]. split; [exact Hshape |].
  intros i j Hi Hj. apply Hcells; [exact Hi | exact Hj | lia].
Qed.

Lemma trans_transposes_witness :
  (has_shape 2 3 (iota_matrix 2 3) = true /\
   has_shape 3 2 (zero_matrix 3 2) = true) /\
  exists B', trans 3 2 (iota_matrix 2 3) (zero_matrix 3 2) = Done B' /\
    transposed 3 2 (iota_matrix 2 3) B'.
Proof.
  assert (has_shape 2 3 (iota_matrix 2 3) = true /\
          has_shape 3 2 (zero_matrix 3 2) = true) as H.
  { split; reflexivity. }
  split; [exact H |].
  exact (trans_transposes 3 2 (iota_matrix 2 3) (zero_matrix 3 2)
           (proj1 H) (proj2 H)).
Defined.

(** Transposing twice with [trans] gives the matrix back, whatever the two
    output arrays held. *)
Theorem trans_round_trip (M N : Z) (A B C : matrix) :
  has_shape N M A = true -> has_shape M N B = true ->
  has_shape N M C = true ->
  exists B', trans M N A B = Done B' /\ trans N M B' C = Done A.
Proof.
  intros HA HB HC.
  destruct (trans_done_on M N A B HA HB) as (B' & HB' & HsB' & HcB').
  destruct (trans_done_on N M B' C HsB' HC) as (A' & HA' & HsA' & HcA').
  exists B'. split; [done |]. rewrite HA'. f_equal.
  apply (matrix_ext N M); [done | done |].
  intros i j Hi Hj. rewrite HcA' by lia. apply HcB'; lia.
Qed.

Lemma trans_round_trip_witness :
  (has_shape 2 3 (iota_matrix 2 3) = true /\
   has_shape 3 2 (zero_matrix 3 2) = true /\
   has_shape 2 3 (zero_matrix 2 3) = true) /\
  exists B', trans 3 2 (iota_matrix 2 3) (zero_matrix 3 2) = Done B' /\
    trans 2 3 B' (zero_matrix 2 3) = Done (iota_matrix 2 3).
Proof.
  assert (has_shape 2 3 (iota_matrix 2 3) = true /\
          has_shape 3 2 (zero_matrix 3 2) = true /\
          has_shape 2 3 (zero_matrix 2 3) = true) as H.
  { repeat split; reflexivity. }
  split; [exact H |].
  exact (trans_round_trip 3 2 (iota_matrix 2 3) (zero_matrix 3 2)
           (zero_matrix 2 3) (proj1 H) (proj1 (proj2 H)) (proj2 (proj2 H))).
Defined.

(** ** [is_transpose] *)

Lemma for_each_until_seqZ {R : Type} (P : Z -> Prop) (Q : R -> Prop)
    (len : nat) (lo : Z) (body : Z -> run (option R)) :
  (forall x, lo <= x < lo + Z.of_nat len ->
     (body x = Done None /\ P x)
     \/ (exists v, body x = Done (Some v) /\ Q v /\ ~ P x)) ->
  (for_each_until (seqZ lo (Z.of_nat len)) body = Done None /\
   forall x, lo <= x < lo + Z.of_nat len -> P x)
  \/ (exists v, for_each_until (seqZ lo (Z.of_nat len)) body = Done (Some v) /\
        Q v /\ ~ (forall x, lo <= x < lo + Z.of_nat len -> P x)).
Proof.
  revert lo. induction len as [| len IH]; intros lo Hbody.
  - left. split; [done |]. intros; lia.
  - rewrite seqZ_cons by lia. simpl for_each_until.
    replace (Z.pred (Z.of_nat (S len))) with (Z.of_nat len) by lia.
    destruct (Hbody lo) as [[-> Hlo] | (v & -> & Hv & Hlo)]; [lia | |].
    + simpl. destruct (IH (Z.succ lo)) as [[-> Hall] | (v & -> & Hv & Hnot)].
      * intros x Hx. apply Hbody. lia.
      * left. split; [done |]. intros x Hx.
        destruct (decide (x = lo)) as [-> | Hne]; [done |].
        apply Hall. lia.
      * right. exists v. split; [done |]. split; [done |].
        intros Hall. apply Hnot. intros x Hx. apply Hall. lia.
    + simpl. right. exists v. split; [done |]. split; [done |].
      intros Hall. apply Hlo, Hall. lia.
Qed.

(** [is_transpose] returns 1 if [B] is the transpose of [A] and 0 if it is
    not, for an [N] x [M] matrix [A] and an [M] x [N] matrix [B]; no access
    leaves the arrays. *)
Theorem is_transpose_decides (M N : Z) (A B : matrix) :
  has_shape N M A = true -> has_shape M N B = true ->
  exists r, is_transpose M N A B = Done r /\ (r = 0 \/ r = 1) /\
    (r = 1 <-> transposed M N A B).
Proof.
  intros HA HB. unfold is_transpose.
  pose proof (has_shape_nonneg _ _ _ HA) as HN.
  pose proof (has_shape_nonneg _ _ _ HB) as HM.
  destruct (for_each_until_seqZ
    (fun i => forall j, 0 <= j < M -> load B j i = load A i j)
    (fun v : Z => v = 0) (Z.to_nat N) 0
    (fun i =>
       for_each_until (seqZ 0 M) (fun j =>
         a ← load A i j;
         b ← load B j i;
         Done (if negb (a =? b) then Some 0 else None))))
    as [[Hrun Hall] | (v & Hrun & -> & Hnot)].
  - intros i Hi.
    destruct (for_each_until_seqZ
      (fun j => load B j i = load A i j) (fun v : Z => v = 0)
      (Z.to_nat M) 0
      (fun j =>
         a ← load A i j;
         b ← load B j i;
         Done (if negb (a =? b) then Some 0 else None)))
      as [[Hrow Hall] | (v & Hrow & -> & Hnot)].
    + intros j Hj.
      destruct (load_inside N M A i j HA) as [a Ha]; [lia | lia |].
      destruct (load_inside M N B j i HB) as [b Hb]; [lia | lia |].
      rewrite Ha, Hb. simpl.
      destruct (Z.eqb_spec a b) as [-> | Hne]; simpl.
      * left. done.
      * right. exists 0. split; [done |]. split; [done |]. congruence.
    + rewrite Z2Nat.id in Hrow, Hall by done. left. split; [done |].
      intros j Hj. apply Hall. lia.
    + rewrite Z2Nat.id in Hrow, Hnot by done. right. exists 0.
      split; [done |]. split; [done |].
      intros Hall. apply Hnot. intros j Hj. apply Hall. lia.
  - rewrite Z2Nat.id in Hrun, Hall by done. rewrite Hrun. simpl.
    exists 1. split; [done |]. split; [by right |]. split; [| done].
    intros _. split; [done |]. intros i j Hi Hj. apply Hall; lia.
  - rewrite Z2Nat.id in Hrun, Hnot by done. rewrite Hrun. simpl.
    exists 0. split; [done |]. split; [by left |]. split; [done |].
    intros [_ Hcells]. exfalso. apply Hnot. intros i Hi j Hj.
    apply Hcells; lia.
Qed.

Lemma is_transpose_decides_witness :
  (has_shape 2 3 (iota_matrix 2 3) = true /\
   has_shape 3 2 (zero_matrix 3 2) = true) /\
  exists r, is_transpose 3 2 (iota_matrix 2 3) (zero_matrix 3 2) = Done r /\
    (r = 0 \/ r = 1) /\
    (r = 1 <-> transposed 3 2 (iota_matrix 2 3) (zero_matrix 3 2)).
Proof.
  assert (has_shape 2 3 (iota_matrix 2 3) = true /\
          has_shape 3 2 (zero_matrix 3 2) = true) as H.
  { split; reflexivity. }
  split; [exact H |].
  exact (is_transpose_decides 3 2 (iota_matrix 2 3) (zero_matrix 3 2)
           (proj1 H) (proj2 H)).
Defined.

(** ** The blocked transposes *)

(** [transpose_blocking] returns the transpose of [A] when [A] has between 8
    and 263 columns: the block size [32 / (M / 8)] is then between 1 and 32,
    every loop ends and no access leaves the arrays. *)
Theorem transpose_blocking_transposes (fuel : nat) (M N : Z) (A B : matrix) :
  has_shape N M A = true -> has_shape M N B = true ->
  8 <= M <= 263 -> N + 32 <= INT_MAX ->
  N <= Z.of_nat fuel -> M <= Z.of_nat fuel ->
  exists B', transpose_blocking fuel M N A B = Done B' /\
    transposed M N A B'.
Proof.
  intros HA HB HM HN HfN HfM. rewrite transpose_blocking_nest.
  destruct (block_dim_range M HM) as (block_dim & -> & Hbd & _). simpl.
  destruct (nest_transposes (fun B : matrix => B) (fun _ => True) A M N
              block_dim
              (fun ib j B =>
                 for_up j (min (to_int (j + block_dim)) M) (fun jb B =>
                   x ← load A ib jb; store B jb ib x) B))
    with (fuel := fuel) (st := B) as (B' & Hrun & _ & Ht);
    try done; try (unfold INT_MAX in *; lia).
  - intros ib j B1 R Hib Hj _ Hd.
    rewrite to_int_id by (unfold INT_MAX in *; lia). rewrite min_Zmin.
    destruct (copying_row_spec M N A (Z.min (j + block_dim) M) ib j B1 R
                HA Hib) as (B2 & Hrow & Hd2); [lia | lia | done |].
    exists B2. split; [done |]. split; [done |].
    eapply done_on_weaken; [exact Hd2 |]. simpl.
    intros i' j' _ Hj' [H | H]; [tauto | right; lia].
  - eauto.
Qed.

Lemma transpose_blocking_transposes_witness :
  (has_shape 2 8 (iota_matrix 2 8) = true /\
   has_shape 8 2 (zero_matrix 8 2) = true /\
   8 <= 8 <= 263 /\ 2 + 32 <= INT_MAX /\
   2 <= Z.of_nat 8 /\ 8 <= Z.of_nat 8) /\
  exists B',
    transpose_blocking 8 8 2 (iota_matrix 2 8) (zero_matrix 8 2) = Done B' /\
    transposed 8 2 (iota_matrix 2 8) B'.
Proof.
  assert (has_shape 2 8 (iota_matrix 2 8) = true /\
          has_shape 8 2 (zero_matrix 8 2) = true /\
          8 <= 8 <= 263 /\ 2 + 32 <= INT_MAX /\
          2 <= Z.of_nat 8 /\ 8 <= Z.of_nat 8) as H.
  { unfold INT_MAX. repeat split; (reflexivity || lia). }
  split; [exact H |].
  destruct H as (H1 & H2 & H3 & H4 & H5 & H6).
  exact (transpose_blocking_transposes 8 8 2 (iota_matrix 2 8)
           (zero_matrix 8 2) H1 H2 H3 H4 H5 H6).
Defined.

(** [transpose_submit] returns the transpose of [A] when [A] is square with
    between 8 and 263 columns, and when [A] is not square and does not have
    64 columns, whatever [idx1] and [idx2] held at first: in each row of a
    block one cell at most is deferred, and it is stored after the row. *)
Theorem transpose_submit_transposes (fuel : nat) (M N : Z) (A B : matrix)
    (u1 u2 : Z) :
  has_shape N M A = true -> has_shape M N B = true ->
  (M = N /\ 8 <= M <= 263) \/ (M <> N /\ M <> 64) ->
  N + 32 <= INT_MAX -> M + 32 <= INT_MAX ->
  N <= Z.of_nat fuel -> M <= Z.of_nat fuel ->
  exists B', transpose_submit fuel M N A B u1 u2 = Done B' /\
    transposed M N A B'.
Proof.
  intros HA HB Hcases HN HM HfN HfM. rewrite transpose_submit_nest.
  pose proof (has_shape_nonneg _ _ _ HB) as HM0.
  assert (exists block_dim,
            (if M =? N then int_div 32 (M ÷ 8) else Done 18)
            = Done block_dim /\ 1 <= block_dim <= 32 /\
            (M = 64 -> block_dim <= 4)) as (block_dim & -> & Hbd & H64).
  { destruct Hcases as [[-> HM8] | [Hne H64]].
    - rewrite Z.eqb_refl.
      destruct (block_dim_range N HM8) as (block_dim & Hdiv & Hbd & H56).
      exists block_dim. split; [done |]. split; [done |].
      intros ->. apply H56. lia.
    - destruct (Z.eqb_spec M N); [done |]. exists 18.
      split; [done |]. split; [lia | done]. }
  simpl.
  destruct (deferring_nest_transposes (direct_submit M) fuel M N block_dim
              A B u1 u2 HA HB) as (st' & -> & Ht);
    try done; try (unfold INT_MAX in *; lia).
  - intros ib j x y Hj Hx Hy HxM HyM Dx Dy.
    apply direct_submit_false in Dx; [| lia | unfold INT_MAX in *; lia].
    apply direct_submit_false in Dy; [| lia | unfold INT_MAX in *; lia].
    destruct (decide (M = 64)) as [H | H]; [specialize (H64 H) |]; lia.
  - simpl. eauto.
Qed.

Lemma transpose_submit_transposes_witness :
  (has_shape 8 8 (iota_matrix 8 8) = true /\
   has_shape 8 8 (zero_matrix 8 8) = true /\
   ((8 = 8 /\ 8 <= 8 <= 263) \/ (8 <> 8 /\ 8 <> 64)) /\
   8 + 32 <= INT_MAX /\ 8 + 32 <= INT_MAX /\
   8 <= Z.of_nat 8 /\ 8 <= Z.of_nat 8) /\
  exists B',
    transpose_submit 8 8 8 (iota_matrix 8 8) (zero_matrix 8 8) 0 0
    = Done B' /\
    transposed 8 8 (iota_matrix 8 8) B'.
Proof.
  assert (has_shape 8 8 (iota_matrix 8 8) = true /\
          has_shape 8 8 (zero_matrix 8 8) = true /\
          ((8 = 8 /\ 8 <= 8 <= 263) \/ (8 <> 8 /\ 8 <> 64)) /\
          8 + 32 <= INT_MAX /\ 8 + 32 <= INT_MAX /\
          8 <= Z.of_nat 8 /\ 8 <= Z.of_nat 8) as H.
  { unfold INT_MAX. split; [reflexivity |]. split; [reflexivity |].
    split; [left; lia |]. lia. }
  split; [exact H |].
  destruct H as (H1 & H2 & H3 & H4 & H5 & H6 & H7).
  exact (transpose_submit_transposes 8 8 8 (iota_matrix 8 8)
           (zero_matrix 8 8) 0 0 H1 H2 H3 H4 H5 H6 H7).
Defined.

(** [transpose_square_matrix] returns the transpose of [A] when [A] has 32
    columns, or between 56 and 263: with 32 columns only the diagonal is
    deferred, and from 56 columns on a block has four columns at most, so
    that one cell at most of a row of a block is deferred. *)
Theorem transpose_square_matrix_transposes (fuel : nat) (M N : Z)
    (A B : matrix) (u1 u2 : Z) :
  has_shape N M A = true -> has_shape M N B = true ->
  M = 32 \/ 56 <= M <= 263 -> N + 32 <= INT_MAX ->
  N <= Z.of_nat fuel -> M <= Z.of_nat fuel ->
  exists B', transpose_square_matrix fuel M N A B u1 u2 = Done B' /\
    transposed M N A B'.
Proof.
  intros HA HB Hcases HN HfN HfM. rewrite transpose_square_matrix_nest.
  destruct (block_dim_range M) as (block_dim & -> & Hbd & H56); [lia |].
  simpl.
  destruct (deferring_nest_transposes (direct_square M) fuel M N block_dim
              A B u1 u2 HA HB) as (st' & -> & Ht);
    try done; try (unfold INT_MAX in *; lia).
  - intros ib j x y Hj Hx Hy HxM HyM Dx Dy.
    apply direct_square_false in Dx; [| lia | unfold INT_MAX in *; lia].
    apply direct_square_false in Dy; [| lia | unfold INT_MAX in *; lia].
    destruct (decide (M = 32)) as [H | H]; [lia |].
    assert (block_dim <= 4) by (apply H56; lia). lia.
  - simpl. eauto.
Qed.

Lemma transpose_square_matrix_transposes_witness :
  (has_shape 1 32 (iota_matrix 1 32) = true /\
   has_shape 32 1 (zero_matrix 32 1) = true /\
   (32 = 32 \/ 56 <= 32 <= 263) /\ 1 + 32 <= INT_MAX /\
   1 <= Z.of_nat 32 /\ 32 <= Z.of_nat 32) /\
  exists B',
    transpose_square_matrix 32 32 1 (iota_matrix 1 32) (zero_matrix 32 1) 0 0
    = Done B' /\
    transposed 32 1 (iota_matrix 1 32) B'.
Proof.
  assert (has_shape 1 32 (iota_matrix 1 32) = true /\
          has_shape 32 1 (zero_matrix 32 1) = true /\
          (32 = 32 \/ 56 <= 32 <= 263) /\ 1 + 32 <= INT_MAX /\
          1 <= Z.of_nat 32 /\ 32 <= Z.of_nat 32) as H.
  { unfold INT_MAX. split; [reflexivity |]. split; [reflexivity |].
    split; [by left |]. lia. }
  split; [exact H |].
  destruct H as (H1 & H2 & H3 & H4 & H5 & H6).
  exact (transpose_square_matrix_transposes 32 32 1 (iota_matrix 1 32)
           (zero_matrix 32 1) 0 0 H1 H2 H3 H4 H5 H6).
Defined.

(** ** Matrices that the blocked functions do not handle *)

Lemma for_step_S {St : Type} fuel x hi step (body : Z -> St -> run St) st :
  for_step (S fuel) x hi step body st
  = if x <? hi then
      st' ← body x st; for_step fuel (to_int (x + step)) hi step body st'
    else Done st.
Proof. reflexivity. Qed.

(** With a block size of zero the loop nest does not end. *)
Lemma nest_zero {St : Type} fuel M N (row : Z -> Z -> St -> run St) st :
  0 < N -> 0 < M -> nest fuel M N 0 row st = Stop out_of_fuel.
Proof.
  intros HN HM. unfold nest.
  assert (forall s, for_step fuel 0 M 0 (fun j st =>
            for_up 0 (min (to_int (0 + 0)) N) (fun ib st => row ib j st) st)
            s = Stop out_of_fuel) as Hinner.
  { intros s. apply for_step_zero; [done |]. intros s'.
    apply for_up_nil. change (to_int (0 + 0)) with 0. rewrite min_Zmin. lia. }
  destruct fuel as [| fuel'] eqn:Hfuel.
  - simpl. by destruct (Z.ltb_spec 0 N); [| lia].
  - rewrite for_step_S. destruct (Z.ltb_spec 0 N); [| lia].
    rewrite Hinner. done.
Qed.

Lemma block_dim_zero M : 264 <= M -> int_div 32 (M ÷ 8) = Done 0.
Proof.
  intros HM. unfold int_div. rewrite (Z.quot_div_nonneg M 8) by lia.
  assert (33 <= M / 8) as Hq by (apply Z.div_le_lower_bound; lia).
  destruct (Z.eqb_spec (M / 8) 0); [lia |].
  rewrite Z.quot_small by lia. done.
Qed.

Lemma block_dim_traps M : 0 <= M < 8 -> int_div 32 (M ÷ 8) = Stop division_by_zero.
Proof. intros HM. unfold int_div. rewrite Z.quot_small by lia. done. Qed.

(** For a matrix [A] of fewer than 8 columns the block size is [32 / 0]:
    [transpose_blocking] and [transpose_square_matrix] divide by zero before
    they touch [B], and so does [transpose_submit] when [A] is square. *)
Theorem narrow_matrix_divides_by_zero (fuel : nat) (M N : Z) (A B : matrix)
    (u1 u2 : Z) :
  0 <= M < 8 ->
  transpose_blocking fuel M N A B = Stop division_by_zero /\
  transpose_square_matrix fuel M N A B u1 u2 = Stop division_by_zero /\
  (M = N -> transpose_submit fuel M N A B u1 u2 = Stop division_by_zero).
Proof.
  intros HM.
  rewrite transpose_blocking_nest, transpose_square_matrix_nest,
    transpose_submit_nest, block_dim_traps by done.
  split; [done |]. split; [done |]. intros <-. by rewrite Z.eqb_refl.
Qed.

Lemma narrow_matrix_divides_by_zero_witness :
  0 <= 7 < 8 /\
  transpose_blocking 7 7 7 (iota_matrix 7 7) (zero_matrix 7 7)
  = Stop division_by_zero /\
  transpose_square_matrix 7 7 7 (iota_matrix 7 7) (zero_matrix 7 7) 0 0
  = Stop division_by_zero /\
  (7 = 7 ->
   transpose_submit 7 7 7 (iota_matrix 7 7) (zero_matrix 7 7) 0 0
   = Stop division_by_zero).
Proof.
  assert (0 <= 7 < 8) as H by lia.
  split; [exact H |].
  exact (narrow_matrix_divides_by_zero 7 7 7 (iota_matrix 7 7)
           (zero_matrix 7 7) 0 0 H).
Defined.

(** For a matrix [A] of 264 columns or more, and at least one row, the
    block size is [32 / (M / 8) = 0]: the loops of [transpose_blocking] and
    of [transpose_square_matrix] do not advance, and the functions do not
    return, however many iterations they are given; nor does
    [transpose_submit] when [A] is square. *)
Theorem wide_matrix_never_returns (fuel : nat) (M N : Z) (A B : matrix)
    (u1 u2 : Z) :
  264 <= M -> 1 <= N ->
  transpose_blocking fuel M N A B = Stop out_of_fuel /\
  transpose_square_matrix fuel M N A B u1 u2 = Stop out_of_fuel /\
  (M = N -> transpose_submit fuel M N A B u1 u2 = Stop out_of_fuel).
Proof.
  intros HM HN.
  rewrite transpose_blocking_nest, transpose_square_matrix_nest,
    transpose_submit_nest, block_dim_zero by done.
  simpl. rewrite !nest_zero by lia.
  split; [done |]. split; [done |]. intros <-. rewrite Z.eqb_refl.
  simpl. by rewrite nest_zero by lia.
Qed.

Lemma wide_matrix_never_returns_witness :
  (264 <= 264 /\ 1 <= 264) /\
  transpose_blocking 1000 264 264 (iota_matrix 264 264) (zero_matrix 264 264)
  = Stop out_of_fuel /\
  transpose_square_matrix 1000 264 264 (iota_matrix 264 264)
    (zero_matrix 264 264) 0 0 = Stop out_of_fuel /\
  (264 = 264 ->
   transpose_submit 1000 264 264 (iota_matrix 264 264)
     (zero_matrix 264 264) 0 0 = Stop out_of_fuel).
Proof.
  assert (264 <= 264 /\ 1 <= 264) as H by lia.
  split; [exact H |].
  exact (wide_matrix_never_returns 1000 264 264 (iota_matrix 264 264)
           (zero_matrix 264 264) 0 0 (proj1 H) (proj2 H)).
Defined.

(** ** Rows with more than one deferred cell *)

(** An invariant of the rows is an invariant of the loop nest. *)
Lemma nest_inv {St : Type} (Inv : St -> Prop) fuel M N block_dim
    (row : Z -> Z -> St -> run St) st :
  1 <= block_dim -> N + block_dim <= INT_MAX -> M + block_dim <= INT_MAX ->
  N <= Z.of_nat fuel -> M <= Z.of_nat fuel ->
  (forall ib j s, 0 <= ib < N -> 0 <= j < M -> Inv s ->
     exists s', row ib j s = Done s' /\ Inv s') ->
  Inv st ->
  exists st', nest fuel M N block_dim row st = Done st' /\ Inv st'.
Proof.
  intros Hbd HN HM HfN HfM Hrow Hinv. unfold nest.
  destruct (for_step_inv (fun _ s => Inv s) fuel 0 N block_dim
    (fun i st =>
       for_step fuel 0 M block_dim (fun j st =>
         for_up i (min (to_int (i + block_dim)) N) (fun ib st =>
           row ib j st) st) st) st)
    as (st' & x' & Hrun & _ & Hinv'); try lia; [done | | eauto].
  intros i s Hi Hs.
  destruct (for_step_inv (fun _ s => Inv s) fuel 0 M block_dim
    (fun j st =>
       for_up i (min (to_int (i + block_dim)) N) (fun ib st =>
         row ib j st) st) s)
    as (s' & y' & Hrun & _ & Hs'); try lia; [done | | eauto].
  intros j s1 Hj Hs1.
  rewrite to_int_id by (unfold INT_MAX in *; lia). rewrite min_Zmin.
  apply (for_up_inv (fun _ s => Inv s)); [lia | done |].
  intros ib s2 Hib Hs2. apply Hrow; [lia | lia | done].
Qed.

(** When the diagonal cell and the cell four columns to its right are both
    deferred, a row of a block that holds both does not write [B[0][0]]. *)
Lemma deferring_row_keeps_corner direct M N A hi ib j st v :
  has_shape N M A = true -> 0 <= ib < N -> 0 <= j <= hi -> hi <= M ->
  (forall x, direct x x = false) -> direct 0 4 = false ->
  (j = 0 -> 4 < hi) ->
  diag_flag st = false -> has_shape M N (mat st) = true ->
  load (mat st) 0 0 = v ->
  exists st', deferring_row direct A hi ib j st = Done st' /\
    diag_flag st' = false /\ has_shape M N (mat st') = true /\
    load (mat st') 0 0 = v.
Proof.
  intros HA Hib Hj Hhi Hdiag H04 Hwide Hflag Hshape Hv. unfold deferring_row.
  destruct (for_up_inv
    (fun jb st =>
       has_shape M N (mat st) = true /\ load (mat st) 0 0 = v /\
       (diag_flag st = true ->
          idx1 st = ib /\ j <= idx2 st < jb /\
          (ib = 0 -> j = 0 -> 4 < jb -> 4 <= idx2 st)))
    j hi
    (fun jb st =>
       if direct ib jb then
         x ← load A ib jb;
         B' ← store (mat st) jb ib x;
         Done (mk_locals B' (diag_flag st) (idx1 st) (idx2 st))
       else Done (mk_locals (mat st) true ib jb)) st)
    as (st1 & -> & Hs1 & Hv1 & Hsome); [lia | | |].
  - split; [done |]. split; [done |]. rewrite Hflag. done.
  - intros jb s Hjb (Hs & Hvs & Hf).
    destruct (direct ib jb) eqn:Hdir.
    + assert (ib <> jb) as Hne.
      { intros ->. rewrite Hdiag in Hdir. done. }
      destruct (load_inside N M A ib jb HA) as [x Hx]; [lia | lia |].
      destruct (store_inside M N (mat s) jb ib x Hs)
        as (B2 & HB2 & Hs2 & _ & Hother); [lia | lia |].
      rewrite Hx. simpl. rewrite HB2. simpl. eexists. split; [done |].
      simpl. split; [done |]. split.
      * rewrite Hother by lia. done.
      * intros Hfl. destruct (Hf Hfl) as (H1 & H2 & H3).
        split; [done |]. split; [lia |]. intros -> -> H4.
        destruct (decide (jb = 4)) as [-> | H4']; [congruence |].
        apply H3; [done | done | lia].
    + eexists. split; [done |]. simpl. split; [done |]. split; [done |].
      intros _. split; [done |]. split; [lia |]. lia.
  - simpl. destruct (diag_flag st1) eqn:Hf.
    + destruct (Hsome eq_refl) as (H1 & H2 & H3).
      destruct (load_inside N M A (idx1 st1) (idx2 st1) HA) as [x Hx];
        [lia | lia |].
      destruct (store_inside M N (mat st1) (idx2 st1) (idx1 st1) x Hs1)
        as (B2 & HB2 & Hs2 & _ & Hother); [lia | lia |].
      rewrite Hx. simpl. rewrite HB2. simpl. eexists. split; [done |].
      simpl. split; [done |]. split; [done |].
      rewrite Hother; [done |].
      destruct (decide (ib = 0)) as [Hib0 | Hib0]; [| right; lia].
      destruct (decide (j = 0)) as [Hj0 | Hj0]; [| left; lia].
      left. specialize (H3 Hib0 Hj0 (Hwide Hj0)). lia.
    + exists st1. done.
Qed.

(** The loop nest with blocks of more than four columns. *)
Lemma deferring_nest_keeps_corner direct fuel M N block_dim A B u1 u2 :
  has_shape N M A = true -> has_shape M N B = true ->
  4 < block_dim -> 4 < M -> 1 <= N ->
  N + block_dim <= INT_MAX -> M + block_dim <= INT_MAX ->
  N <= Z.of_nat fuel -> M <= Z.of_nat fuel ->
  (forall x, direct x x = false) -> direct 0 4 = false ->
  exists st',
    nest fuel M N block_dim (fun ib j st =>
      deferring_row direct A (min (to_int (j + block_dim)) M) ib j st)
      (mk_locals B false u1 u2) = Done st' /\
    has_shape M N (mat st') = true /\
    load (mat st') 0 0 = load B 0 0.
Proof.
  intros HA HB Hbd HM4 HN1 HN HM HfN HfM Hdiag H04.
  destruct (nest_inv
    (fun st => diag_flag st = false /\ has_shape M N (mat st) = true /\
               load (mat st) 0 0 = load B 0 0)
    fuel M N block_dim
    (fun ib j st =>
       deferring_row direct A (min (to_int (j + block_dim)) M) ib j st)
    (mk_locals B false u1 u2))
    as (st' & Hrun & _ & Hs' & Hv'); try lia; [| done | eauto].
  intros ib j s Hib Hj (Hf & Hs & Hv).
  rewrite to_int_id by (unfold INT_MAX in *; lia). rewrite min_Zmin.
  apply (deferring_row_keeps_corner direct M N A); try done; lia.
Qed.

Lemma not_transposed M N A B :
  0 < N -> 0 < M -> load B 0 0 <> load A 0 0 -> ~ transposed M N A B.
Proof. intros HN HM Hne [_ Hcells]. apply Hne, Hcells; lia. Qed.

(** [transpose_submit] does not transpose a matrix [A] of 64 columns that is
    not square: the blocks have 18 columns, the cells [(0, 0)] and [(0, 4)]
    of [A] are both deferred in the first row of the first block, and only
    the second is stored afterwards.  The function returns with [B[0][0]]
    as it was. *)
Theorem transpose_submit_64_columns (fuel : nat) (N : Z) (A B : matrix)
    (u1 u2 : Z) :
  has_shape N 64 A = true -> has_shape 64 N B = true ->
  N <> 64 -> 1 <= N -> N + 32 <= INT_MAX ->
  N <= Z.of_nat fuel -> 64 <= Z.of_nat fuel ->
  exists B', transpose_submit fuel 64 N A B u1 u2 = Done B' /\
    load B' 0 0 = load B 0 0 /\
    (load B 0 0 <> load A 0 0 -> ~ transposed 64 N A B').
Proof.
  intros HA HB Hne HN1 HN HfN HfM. rewrite transpose_submit_nest.
  destruct (Z.eqb_spec 64 N) as [| _]; [lia |]. simpl.
  destruct (deferring_nest_keeps_corner (direct_submit 64) fuel 64 N 18
              A B u1 u2 HA HB) as (st' & -> & Hs' & Hv');
    try done; try (unfold INT_MAX in *; lia).
  { intros x. unfold direct_submit. by rewrite Z.eqb_refl. }
  simpl. exists (mat st'). split; [done |]. split; [done |].
  intros Hcorner. apply not_transposed; [lia | lia | congruence].
Qed.

Lemma transpose_submit_64_columns_witness :
  (has_shape 1 64 (iota_matrix 1 64) = true /\
   has_shape 64 1 (zero_matrix 64 1) = true /\
   1 <> 64 /\ 1 <= 1 /\ 1 + 32 <= INT_MAX /\
   1 <= Z.of_nat 64 /\ 64 <= Z.of_nat 64) /\
  exists B',
    transpose_submit 64 64 1 (iota_matrix 1 64) (zero_matrix 64 1) 0 0
    = Done B' /\
    load B' 0 0 = load (zero_matrix 64 1) 0 0 /\
    (load (zero_matrix 64 1) 0 0 <> load (iota_matrix 1 64) 0 0 ->
     ~ transposed 64 1 (iota_matrix 1 64) B').
Proof.
  assert (has_shape 1 64 (iota_matrix 1 64) = true /\
          has_shape 64 1 (zero_matrix 64 1) = true /\
          1 <> 64 /\ 1 <= 1 /\ 1 + 32 <= INT_MAX /\
          1 <= Z.of_nat 64 /\ 64 <= Z.of_nat 64) as H.
  { unfold INT_MAX. split; [reflexivity |]. split; [reflexivity |]. lia. }
  split; [exact H |].
  destruct H as (H1 & H2 & H3 & H4 & H5 & H6 & H7).
  exact (transpose_submit_64_columns 64 1 (iota_matrix 1 64)
           (zero_matrix 64 1) 0 0 H1 H2 H3 H4 H5 H6 H7).
Defined.

(** [transpose_square_matrix] does not transpose a matrix [A] of between 8
    and 55 columns, 32 apart: its blocks have more than four columns, the
    cells [(0, 0)] and [(0, 4)] of [A] are both deferred in the first row
    of the first block, and only the second is stored afterwards.  The
    function returns with [B[0][0]] as it was. *)
Theorem transpose_square_matrix_loses_corner (fuel : nat) (M N : Z)
    (A B : matrix) (u1 u2 : Z) :
  has_shape N M A = true -> has_shape M N B = true ->
  8 <= M <= 55 -> M <> 32 -> 1 <= N -> N + 32 <= INT_MAX ->
  N <= Z.of_nat fuel -> M <= Z.of_nat fuel ->
  exists B', transpose_square_matrix fuel M N A B u1 u2 = Done B' /\
    load B' 0 0 = load B 0 0 /\
    (load B 0 0 <> load A 0 0 -> ~ transposed M N A B').
Proof.
  intros HA HB HM H32 HN1 HN HfN HfM. rewrite transpose_square_matrix_nest.
  destruct (block_dim_range M) as (block_dim & Hdiv & Hbd & _); [lia |].
  assert (4 < block_dim) as Hbd4.
  { revert Hdiv. unfold int_div. rewrite (Z.quot_div_nonneg M 8) by lia.
    assert (1 <= M / 8 <= 6) as Hq.
    { split; [apply Z.div_le_lower_bound; lia |].
      apply Z.lt_succ_r, Z.div_lt_upper_bound; lia. }
    destruct (Z.eqb_spec (M / 8) 0); [lia |].
    rewrite (Z.quot_div_nonneg 32 (M / 8)) by lia.
    intros [= <-].
    assert (5 <= 32 / (M / 8)) by (apply Z.div_le_lower_bound; lia). lia. }
  rewrite Hdiv. simpl.
  destruct (deferring_nest_keeps_corner (direct_square M) fuel M N block_dim
              A B u1 u2 HA HB) as (st' & -> & Hs' & Hv');
    try done; try (unfold INT_MAX in *; lia).
  { intros x. unfold direct_square. by rewrite Z.eqb_refl. }
  { unfold direct_square. by destruct (Z.eqb_spec M 32). }
  simpl. exists (mat st'). split; [done |]. split; [done |].
  intros Hcorner. apply not_transposed; [lia | lia | congruence].
Qed.

Lemma transpose_square_matrix_loses_corner_witness :
  (has_shape 1 8 (iota_matrix 1 8) = true /\
   has_shape 8 1 (zero_matrix 8 1) = true /\
   8 <= 8 <= 55 /\ 8 <> 32 /\ 1 <= 1 /\ 1 + 32 <= INT_MAX /\
   1 <= Z.of_nat 8 /\ 8 <= Z.of_nat 8) /\
  exists B',
    transpose_square_matrix 8 8 1 (iota_matrix 1 8) (zero_matrix 8 1) 0 0
    = Done B' /\
    load B' 0 0 = load (zero_matrix 8 1) 0 0 /\
    (load (zero_matrix 8 1) 0 0 <> load (iota_matrix 1 8) 0 0 ->
     ~ transposed 8 1 (iota_matrix 1 8) B').
Proof.
  assert (has_shape 1 8 (iota_matrix 1 8) = true /\
          has_shape 8 1 (zero_matrix 8 1) = true /\
          8 <= 8 <= 55 /\ 8 <> 32 /\ 1 <= 1 /\ 1 + 32 <= INT_MAX /\
          1 <= Z.of_nat 8 /\ 8 <= Z.of_nat 8) as H.
  { unfold INT_MAX. split; [reflexivity |]. split; [reflexivity |]. lia. }
  split; [exact H |].
  destruct H as (H1 & H2 & H3 & H4 & H5 & H6 & H7 & H8).
  exact (transpose_square_matrix_loses_corner 8 8 1 (iota_matrix 1 8)
           (zero_matrix 8 1) 0 0 H1 H2 H3 H4 H5 H6 H7 H8).
Defined.
